(** * Concurrent download orchestration of playwright-vsco-downloader

  A shallow embedding of
  - [src/download/ConcurrentDownloadService.ts] (the [Semaphore] class,
    [processBatch], [downloadSingleImage], [downloadImageWithContext],
    [attemptDownloadWithContext], [downloadImagesConcurrently]),
  - [src/download/DownloadService.ts] ([attemptDownload]),
  - [src/browser/BrowserPool.ts],
  - [src/fs/FileSystemService.ts] ([imageExists]),
  - [src/stats/StatsTracker.ts] (the three counters),
  together with the properties of the design document that concern them.

  JavaScript numbers are integers of [Z]; asynchronous code is written in
  a state-and-exception monad over the state of the services, and every
  call that leaves the program (file system, browser, clock, the order in
  which promises settle) reads its answer from an oracle. *)

From Stdlib Require Import Ascii.
From stdpp Require Import base numbers list strings pretty.
Local Open Scope Z_scope.

(** * The Semaphore class *)

Module Semaphore.

(** The three fields of the class.  A queued [execute] closure is
    identified by the number of the [acquire] call that created it. *)
Record t := mk {
  maxConcurrent : Z;
  currentCount : Z;
  queue : list nat
}.

(** [constructor(maxConcurrent)] *)
Definition new (maxConcurrent : Z) : t := mk maxConcurrent 0 [].

(** The semaphore together with what the promises around it are doing:
    which [acquire] calls were made, which of them had to wait, which
    tasks [fn] have been called (in that order), which are still in
    flight, and how each finished one settled. *)
Record sched := mkSched {
  sem : t;
  calls : list nat;
  waited : list nat;
  started : list nat;
  running : list nat;
  settled : list (nat * bool)
}.

Definition init (maxConcurrent : Z) : sched :=
  mkSched (new maxConcurrent) [] [] [] [] [].

Fixpoint removeId (id : nat) (l : list nat) : list nat :=
  match l with
  | [] => []
  | x :: l' => if Nat.eqb x id then l' else x :: removeId id l'
  end.

(** [execute], up to its [await fn()]: the count goes up and [fn] is
    called. *)
Definition execute (id : nat) (s : sched) : sched :=
  mkSched
    (mk (maxConcurrent (sem s)) (currentCount (sem s) + 1) (queue (sem s)))
    (calls s) (waited s)
    (started s ++ [id]) (running s ++ [id]) (settled s).

(** [acquire(fn)]: the closure is built, then run at once when a slot is
    free and pushed on the queue otherwise. *)
Definition acquire (s : sched) : sched :=
  let id := length (calls s) in
  let s1 := mkSched (sem s) (calls s ++ [id]) (waited s)
                    (started s) (running s) (settled s) in
  if currentCount (sem s1) <? maxConcurrent (sem s1) then execute id s1
  else
    mkSched
      (mk (maxConcurrent (sem s1)) (currentCount (sem s1))
          (queue (sem s1) ++ [id]))
      (calls s1) (waited s1 ++ [id]) (started s1) (running s1) (settled s1).

(** The rest of [execute], once [fn()] has settled: [resolve] or [reject]
    according to [ok], then the [finally] block. *)
Definition finish (id : nat) (ok : bool) (s : sched) : sched :=
  let s1 := mkSched
              (mk (maxConcurrent (sem s)) (currentCount (sem s) - 1)
                  (queue (sem s)))
              (calls s) (waited s) (started s)
              (removeId id (running s)) (settled s ++ [(id, ok)]) in
  match queue (sem s1) with
  | [] => s1
  | next :: rest =>
      execute next
        (mkSched (mk (maxConcurrent (sem s1)) (currentCount (sem s1)) rest)
                 (calls s1) (waited s1) (started s1) (running s1)
                 (settled s1))
  end.

(** What can happen to a semaphore: somebody calls [acquire], or the
    promise of a task in flight settles. *)
Inductive action :=
| Acquire
| Settle (id : nat) (ok : bool).

Definition inFlight (id : nat) (s : sched) : bool :=
  existsb (Nat.eqb id) (running s).

Definition step (s : sched) (e : action) : sched :=
  match e with
  | Acquire => acquire s
  | Settle id ok => if inFlight id s then finish id ok s else s
  end.

Definition run (evs : list action) (s : sched) : sched :=
  fold_left step evs s.

(** Position of a task in a log. *)
Fixpoint indexOf (id : nat) (l : list nat) : option nat :=
  match l with
  | [] => None
  | x :: l' =>
      if Nat.eqb x id then Some 0%nat
      else match indexOf id l' with
           | Some n => Some (S n)
           | None => None
           end
  end.

(** What every reachable scheduler state satisfies, whatever the capacity:
    the logs number the [acquire] calls, tasks start in the order of their
    calls, the queue holds the calls that have not started yet, the count
    is the number of tasks in flight, and nobody waits while a slot is
    free. *)
Record wf (s : sched) : Prop := mkWf {
  wf_calls : calls s = seq 0 (length (calls s));
  wf_started : started s = seq 0 (length (started s));
  wf_queue : queue (sem s) = seq (length (started s)) (length (queue (sem s)));
  wf_total : length (calls s) = (length (started s) + length (queue (sem s)))%nat;
  wf_count : currentCount (sem s) = Z.of_nat (length (running s));
  wf_nodup : NoDup (running s);
  wf_running : forall id, id ∈ running s -> id ∈ started s;
  wf_full : queue (sem s) <> [] -> maxConcurrent (sem s) <= currentCount (sem s);
  wf_waited : forall id, id ∈ waited s -> id ∈ calls s
}.

(** With a capacity that is not negative the count stays within it. *)
Definition bounded (s : sched) : Prop :=
  0 <= currentCount (sem s) <= maxConcurrent (sem s).

End Semaphore.

(** * JavaScript values, promises and effects *)

(** A thrown value: an [Error] object with its message, or another value
    that is not [null] or [undefined], whose [message] reads as
    [undefined].  The promises of Playwright and of fs-extra, like the
    program itself, reject with [Error] objects. *)
Inductive jsError :=
| ErrorObj (message : string)
| NonError.

(** [error instanceof Error ? error.message : fallback] *)
Definition messageOr (fallback : string) (e : jsError) : string :=
  match e with
  | ErrorObj m => m
  | NonError => fallback
  end.

(** [a || b] on an optional number: [undefined] and [0] are falsy. *)
Definition orNumber (a : option Z) (b : Z) : Z :=
  match a with
  | Some v => if v =? 0 then b else v
  | None => b
  end.

(** [a || b] on an optional string: [undefined] and the empty string are
    falsy. *)
Definition orString (a : option string) (b : string) : string :=
  match a with
  | Some v => if String.eqb v EmptyString then b else v
  | None => b
  end.

(** [a ?? b] *)
Definition nullish {A : Type} (a : option A) (b : A) : A :=
  match a with
  | Some v => v
  | None => b
  end.

(** Truthiness of an optional number and of an optional string. *)
Definition truthyNumber (a : option Z) : bool :=
  match a with
  | Some v => negb (v =? 0)
  | None => false
  end.

Definition truthyString (a : option string) : bool :=
  match a with
  | Some v => negb (String.eqb v EmptyString)
  | None => false
  end.

(** How a promise of the outside world settles. *)
Inductive answer (A : Type) :=
| Ok (a : A)
| Err (e : jsError).
Arguments Ok {A} a.
Arguments Err {A} e.

(** How an [async] function of the program ends: it returns, it throws, or
    its promise never settles. *)
Inductive outcome (A : Type) :=
| Return (a : A)
| Throw (e : jsError)
| Pending.
Arguments Return {A} a.
Arguments Throw {A} e.
Arguments Pending {A}.

(** State and exceptions. *)
Definition M (S A : Type) : Type := S -> outcome A * S.

Definition ret {S A : Type} (a : A) : M S A := fun s => (Return a, s).

Definition throw {S A : Type} (e : jsError) : M S A := fun s => (Throw e, s).

(** A promise that never settles. *)
Definition never {S A : Type} : M S A := fun s => (Pending, s).

Definition bind {S A B : Type} (m : M S A) (k : A -> M S B) : M S B :=
  fun s =>
    match m s with
    | (Return a, s') => k a s'
    | (Throw e, s') => (Throw e, s')
    | (Pending, s') => (Pending, s')
    end.

Declare Scope js_scope.
Delimit Scope js_scope with js.
Notation "x <- m ;; k" := (bind m (fun x => k))
  (at level 100, m at next level, right associativity) : js_scope.
Notation "m ;; k" := (bind m (fun _ => k))
  (at level 100, right associativity) : js_scope.
Local Open Scope js_scope.

(** [try { body } catch (error) { handler }] *)
Definition tryCatch {S A : Type} (body : M S A) (handler : jsError -> M S A) : M S A :=
  fun s =>
    match body s with
    | (Throw e, s') => handler e s'
    | r => r
    end.

(** [try { body } finally { cleanup }]: the cleanup always runs; when it
    ends normally the outcome of the body stands. *)
Definition tryFinally {S A : Type} (body : M S A) (cleanup : M S unit) : M S A :=
  fun s =>
    match body s with
    | (Pending, s') => (Pending, s')
    | (r, s') =>
        match cleanup s' with
        | (Return _, s'') => (r, s'')
        | (Throw e, s'') => (Throw e, s'')
        | (Pending, s'') => (Pending, s'')
        end
    end.

Definition gets {S A : Type} (f : S -> A) : M S A := fun s => (Return (f s), s).

Definition modify {S : Type} (f : S -> S) : M S unit := fun s => (Return tt, f s).

(** [for (const x of xs) body(x)] *)
Fixpoint forEach {S A : Type} (xs : list A) (body : A -> M S unit) : M S unit :=
  match xs with
  | [] => ret tt
  | x :: xs' => body x ;; forEach xs' body
  end.

(** * Configuration ([src/config/Config.ts]) *)

(** The options the download services read.  [debug] and [dryRun] are
    checked to be booleans by the constructor; the numeric options may be
    absent. *)
Record ConfigOptions := mkConfigOptions {
  debug : bool;
  dryRun : bool;
  downloadDir : option string;
  timeout : option Z;
  retries : option Z;
  limit : option Z;
  maxConcurrency : option Z;
  delayBetweenBatches : option Z;
  batchSize : option Z;
  enableBatching : option bool
}.

(** [validateConfig] *)
Definition validateConfig (config : ConfigOptions) : outcome unit :=
  if truthyNumber (timeout config) && (nullish (timeout config) 0 <=? 0) then
    Throw (ErrorObj "Timeout must be a positive number")
  else if truthyNumber (retries config) && (nullish (retries config) 0 <? 0) then
    Throw (ErrorObj "Retries must be a non-negative number")
  else if truthyNumber (limit config) && (nullish (limit config) 0 <=? 0) then
    Throw (ErrorObj "Limit must be a positive number")
  else Return tt.


(** The clamps of [OptionParser.buildDownloaderOptions] on the command
    line's concurrency, batch size and delay. *)
Definition buildDownloaderOptions (concurrency : Z) (batch : option Z) (delay : Z)
    (noBatching : bool) (options : ConfigOptions) : ConfigOptions :=
  mkConfigOptions (debug options) (dryRun options) (downloadDir options)
    (timeout options) (retries options) (limit options)
    (Some (Z.max 1 (Z.min 10 concurrency)))
    (Some (Z.max 0 delay))
    (match batch with Some b => Some (Z.max 1 b) | None => None end)
    (if noBatching then Some false else enableBatching options).

(** * The state of the services and the outside world *)

(** [PooledContext] of [BrowserPool.ts].  A [BrowserContext] object is
    identified by a number that is fresh at its creation. *)
Record PooledContext := mkPooledContext {
  context : nat;
  inUse : bool;
  createdAt : Z;
  lastUsedAt : Z;
  useCount : Z
}.

(** The fields of the [BrowserPool] class; [browser] tells whether the
    field holds a browser or [null]. *)
Record BrowserPoolState := mkBrowserPool {
  browser : bool;
  contextPool : list PooledContext;
  maxPoolSize : Z
}.

(** The counters of [StatsTracker]. *)
Record StatsData := mkStats {
  stats_downloaded : Z;
  stats_failed : Z;
  stats_skipped : Z
}.

(** The two places that wait on a timer. *)
Inductive sleepKind :=
| Backoff
| BetweenBatches.

(** What the program does to the outside world, in the order it does it. *)
Inductive event :=
| EvLaunch
| EvNewContext (c : nat)
| EvCloseContext (c : nat)
| EvCloseBrowser
| EvGetContext
| EvReleaseContext (c : nat)
| EvAttempt (photoId : string) (attempt : Z)
| EvImageExists (photoId : string)
| EvNewPage (c : nat)
| EvExtractMetadata (url : string)
| EvFetchImage (url : string)
| EvSaveImage (photoId : string)
| EvClosePage
| EvSleep (kind : sleepKind) (ms : Z)
| EvBatch (batchNumber totalBatches : Z) (ids : list string)
| EvWarn (msg : string).

(** The services' state: the pool, the counters, the log of events, the
    number of answers taken from the outside world so far, and the number
    of browser contexts created so far. *)
Record World := mkWorld {
  pool : BrowserPoolState;
  stats : StatsData;
  log : list event;
  tick : nat;
  nextContext : nat
}.

Definition setPool (f : BrowserPoolState -> BrowserPoolState) (w : World) : World :=
  mkWorld (f (pool w)) (stats w) (log w) (tick w) (nextContext w).

Definition setStats (f : StatsData -> StatsData) (w : World) : World :=
  mkWorld (pool w) (f (stats w)) (log w) (tick w) (nextContext w).

Definition emit (e : event) : M World unit :=
  modify (fun w => mkWorld (pool w) (stats w) (log w ++ [e]) (tick w) (nextContext w)).

(** What the metadata extraction reads off a page. *)
Record PageMetadata := mkPageMetadata {
  pm_uploadDate : option string;
  pm_availableSizes : option (list string);
  pm_srcset : option string;
  pm_originalWidth : option Z;
  pm_originalHeight : option Z
}.

(** A navigation response: [ok()], [status()] and the length of [body()],
    absent when the body is. *)
Record Response := mkResponse {
  resp_ok : bool;
  resp_status : Z;
  resp_body : answer (option Z)
}.

(** [SavedFileInfo] of the file system service. *)
Record SavedFileInfo := mkSavedFileInfo {
  sf_filepath : string;
  sf_filename : string;
  sf_size : Z
}.

(** The outside world.  The [n]-th answer the program takes is read at
    index [n]: the clock, the browser engine, the file system, the pages,
    and the choice of the task in flight whose promise settles next. *)
Record Env := mkEnv {
  Date_now : nat -> Z;
  chromium_launch : nat -> answer unit;
  browser_newContext : nat -> answer unit;
  context_close : nat -> answer unit;
  context_pages : nat -> nat;
  browser_close : nat -> answer unit;
  context_newPage : nat -> answer unit;
  manager_getPage : nat -> answer unit;
  page_close : nat -> answer unit;
  page_scrape : nat -> string -> answer (option string * PageMetadata);
  page_goto : nat -> string -> answer (option Response);
  fs_pathExists : nat -> string -> answer bool;
  fs_stat : nat -> string -> answer Z;
  fs_saveImageFile : nat -> string -> answer SavedFileInfo;
  path_join : string -> string -> string;
  path_basename : string -> string;
  settles_next : nat -> nat
}.

Definition nextTick : M World nat :=
  fun w => (Return (tick w),
            mkWorld (pool w) (stats w) (log w) (S (tick w)) (nextContext w)).

(** [await] of a promise of the outside world. *)
Definition await {A : Type} (p : nat -> answer A) : M World A :=
  n <- nextTick ;;
  match p n with
  | Ok a => ret a
  | Err e => throw e
  end.

(** A synchronous read of the outside world. *)
Definition ask {A : Type} (p : nat -> A) : M World A :=
  n <- nextTick ;; ret (p n).

(** [await new Promise(resolve => setTimeout(resolve, ms))] *)
Definition sleep (kind : sleepKind) (ms : Z) : M World unit :=
  emit (EvSleep kind ms).

(** * The browser pool ([src/browser/BrowserPool.ts]) *)

Module BrowserPool.

Definition contextLifetime : Z := 300000.
Definition maxContextUses : Z := 100.

(** [constructor(config)] *)
Definition new (config : ConfigOptions) : BrowserPoolState :=
  mkBrowserPool false [] (orNumber (maxConcurrency config) 3).

Definition setContextPool (f : list PooledContext -> list PooledContext) : M World unit :=
  modify (setPool (fun p => mkBrowserPool (browser p) (f (contextPool p)) (maxPoolSize p))).

Definition setBrowser (b : bool) : M World unit :=
  modify (setPool (fun p => mkBrowserPool b (contextPool p) (maxPoolSize p))).

(** The identity of the object [browser.newContext] returns. *)
Definition freshContext : M World nat :=
  fun w => (Return (nextContext w),
            mkWorld (pool w) (stats w) (log w) (tick w) (S (nextContext w))).

(** [contextPool.indexOf(pooledContext)]: the entries are compared as
    objects, that is by the context they were created with. *)
Fixpoint indexOfContext (c : nat) (l : list PooledContext) : option nat :=
  match l with
  | [] => None
  | pc :: l' =>
      if Nat.eqb (context pc) c then Some 0%nat
      else match indexOfContext c l' with
           | Some i => Some (S i)
           | None => None
           end
  end.

(** A write to a field of the pooled object of context [c]. *)
Definition updateContext (c : nat) (f : PooledContext -> PooledContext)
    (l : list PooledContext) : list PooledContext :=
  map (fun pc => if Nat.eqb (context pc) c then f pc else pc) l.

(** [pc => !pc.inUse] *)
Definition available (pc : PooledContext) : bool := negb (inUse pc).

(** [.sort((a, b) => a.lastUsedAt - b.lastUsedAt)], a stable sort: an
    entry is put before the entries that were behind it and are not older
    than it. *)
Fixpoint insertByLastUsed (pc : PooledContext) (l : list PooledContext)
  : list PooledContext :=
  match l with
  | [] => [pc]
  | x :: l' =>
      if lastUsedAt pc <=? lastUsedAt x then pc :: x :: l'
      else x :: insertByLastUsed pc l'
  end.

Definition sortByLastUsed (l : list PooledContext) : list PooledContext :=
  fold_right insertByLastUsed [] l.

Section WithEnv.
Variable env : Env.

(** [createContext] *)
Definition createContext : M World PooledContext :=
  b <- gets (fun w => browser (pool w)) ;;
  if negb b then throw (ErrorObj "Browser not initialized")
  else
    await (browser_newContext env) ;;
    c <- freshContext ;;
    emit (EvNewContext c) ;;
    created <- ask (Date_now env) ;;
    used <- ask (Date_now env) ;;
    let pooledContext := mkPooledContext c false created used 0 in
    setContextPool (fun l => l ++ [pooledContext]) ;;
    ret pooledContext.

(** [replaceContext] *)
Definition replaceContext (pooledContext : PooledContext) : M World unit :=
  l <- gets (fun w => contextPool (pool w)) ;;
  match indexOfContext (context pooledContext) l with
  | None => ret tt
  | Some index =>
      tryCatch
        (emit (EvCloseContext (context pooledContext)) ;;
         await (context_close env))
        (fun _ => ret tt) ;;
      setContextPool (delete index) ;;
      p <- gets pool ;;
      if Z.of_nat (length (contextPool p)) <? maxPoolSize p then
        tryCatch
          (createContext ;; ret tt)
          (fun e =>
             emit (EvWarn ("Failed to create replacement context: "
                           +:+ messageOr "undefined" e)))
      else ret tt
  end.

(** [cleanupStaleContexts] *)
Definition cleanupStaleContexts : M World unit :=
  now <- ask (Date_now env) ;;
  l <- gets (fun w => contextPool (pool w)) ;;
  let staleContexts :=
    List.filter
      (fun pc =>
         negb (inUse pc) &&
         ((contextLifetime <? now - createdAt pc) ||
          (maxContextUses <=? useCount pc)))
      l in
  forEach staleContexts replaceContext.

(** [getContext] *)
Definition getContext : M World nat :=
  emit EvGetContext ;;
  b <- gets (fun w => browser (pool w)) ;;
  if negb b then
    throw (ErrorObj "Browser pool not initialized. Call initialize() first.")
  else
    cleanupStaleContexts ;;
    p <- gets pool ;;
    found <-
      match List.find available (contextPool p) with
      | Some pc => ret (Some pc)
      | None =>
          if Z.of_nat (length (contextPool p)) <? maxPoolSize p then
            pc <- createContext ;; ret (Some pc)
          else ret None
      end ;;
    pooledContext <-
      match found with
      | Some pc => ret pc
      | None =>
          l <- gets (fun w => contextPool (pool w)) ;;
          match sortByLastUsed (List.filter available l) with
          | pc :: _ => ret pc
          | [] =>
              throw (ErrorObj "No browser contexts available and pool is at capacity")
          end
      end ;;
    now <- ask (Date_now env) ;;
    setContextPool
      (updateContext (context pooledContext)
         (fun pc => mkPooledContext (context pc) true (createdAt pc) now
                                    (useCount pc + 1))) ;;
    ret (context pooledContext).

(** [releaseContext] *)
Definition releaseContext (c : nat) : M World unit :=
  emit (EvReleaseContext c) ;;
  l <- gets (fun w => contextPool (pool w)) ;;
  match List.find (fun pc => Nat.eqb (context pc) c) l with
  | None => emit (EvWarn "Attempted to release unknown context")
  | Some pooledContext =>
      pages <- ask (context_pages env) ;;
      forEach (seq 0 pages)
        (fun _ => tryCatch (emit EvClosePage ;; await (page_close env))
                           (fun _ => ret tt)) ;;
      setContextPool
        (updateContext c
           (fun pc => mkPooledContext (context pc) false (createdAt pc)
                                      (lastUsedAt pc) (useCount pc))) ;;
      if maxContextUses <=? useCount pooledContext then
        replaceContext pooledContext
      else ret tt
  end.

(** [initialize] *)
Definition initialize : M World unit :=
  emit EvLaunch ;;
  await (chromium_launch env) ;;
  setBrowser true ;;
  createContext ;;
  ret tt.

(** [cleanup] *)
Definition cleanup : M World unit :=
  tryCatch
    (l <- gets (fun w => contextPool (pool w)) ;;
     forEach l
       (fun pc => tryCatch (emit (EvCloseContext (context pc)) ;;
                            await (context_close env))
                           (fun _ => ret tt)) ;;
     setContextPool (fun _ => []) ;;
     b <- gets (fun w => browser (pool w)) ;;
     if b then
       emit EvCloseBrowser ;;
       await (browser_close env) ;;
       setBrowser false
     else ret tt)
    (fun e =>
       emit (EvWarn ("Warning during browser pool cleanup: "
                     +:+ messageOr "undefined" e))).

(** [getPoolSize] and [getAvailableCount] *)
Definition getPoolSize (w : World) : Z :=
  Z.of_nat (length (contextPool (pool w))).

Definition getAvailableCount (w : World) : Z :=
  Z.of_nat (length (List.filter available (contextPool (pool w)))).

Definition inUseCount (w : World) : Z :=
  Z.of_nat (length (List.filter inUse (contextPool (pool w)))).

(** The public operations, called one after the other; an operation that
    throws leaves the state it had reached. *)
Inductive op :=
| Initialize
| GetContext
| ReleaseContext (c : nat)
| Cleanup.

Definition call (o : op) (w : World) : World :=
  match o with
  | Initialize => snd (initialize w)
  | GetContext => snd (getContext w)
  | ReleaseContext c => snd (releaseContext c w)
  | Cleanup => snd (cleanup w)
  end.

Definition calls (ops : list op) (w : World) : World := fold_left (fun w o => call o w) ops w.

(** [initialize] is only called on a pool that holds no context: before the
    first use, or after [cleanup]. *)
Fixpoint initializedWhenEmpty (ops : list op) (w : World) : bool :=
  match ops with
  | [] => true
  | o :: ops' =>
      match o with
      | Initialize => Nat.eqb (length (contextPool (pool w))) 0
      | _ => true
      end && initializedWhenEmpty ops' (call o w)
  end.

End WithEnv.
(** The pool holds no more contexts than its limit. *)
Definition withinLimit (w : World) : Prop :=
  Z.of_nat (length (contextPool (pool w))) <= maxPoolSize (pool w).

(** The pool after a step holds no more contexts than before, under the
    same limit. *)
Definition noGrowth (w w' : World) : Prop :=
  maxPoolSize (pool w') = maxPoolSize (pool w) /\
  (length (contextPool (pool w')) <= length (contextPool (pool w)))%nat.

(** The pool after a step holds at most one context more than before,
    under the same limit. *)
Definition oneMore (w w' : World) : Prop :=
  maxPoolSize (pool w') = maxPoolSize (pool w) /\
  (length (contextPool (pool w')) <= S (length (contextPool (pool w))))%nat.

End BrowserPool.

(** The services right after their construction. *)
Definition newWorld (config : ConfigOptions) : World :=
  mkWorld (BrowserPool.new config) (mkStats 0 0 0) [] 0 0.

(** * Images and download results ([src/types]) *)

(** The fields of [ImageData] the download services read. *)
Record ImageData := mkImageData {
  image_author : option string;
  vsco_url : option string;
  data_author : option string;
  data_authorUrl : option string;
  data_width : option Z;
  data_height : option Z
}.

(** [ImageEntry = [string, ImageData]] *)
Definition ImageEntry : Type := string * ImageData.

Record DownloadResult := mkDownloadResult {
  success : bool;
  photoId : string;
  filepath : option string;
  filename : option string;
  size : option Z;
  author : option string;
  authorUrl : option string;
  imageUrl : option string;
  width : option Z;
  height : option Z;
  error : option string;
  skipped : option bool;
  isDryRun : option bool;
  uploadDate : option string;
  availableSizes : option (list string);
  srcset : option string;
  originalWidth : option Z;
  originalHeight : option Z
}.

(** [{ success: false, photoId, error, author }] *)
Definition failedResult (photoId message author : string) : DownloadResult :=
  mkDownloadResult false photoId None None None (Some author) None None None None
    (Some message) None None None None None None None.

(** [{ success: true, photoId, filepath, filename, size, skipped: true,
    author }] *)
Definition skippedResult (photoId : string) (filepath : option string)
    (filename : string) (size : Z) (author : string) : DownloadResult :=
  mkDownloadResult true photoId filepath (Some filename) (Some size) (Some author)
    None None None None None (Some true) None None None None None None.

(** [{ success: true, photoId, dryRun: true, author }] *)
Definition dryRunResult (photoId author : string) : DownloadResult :=
  mkDownloadResult true photoId None None None (Some author) None None None None
    None None (Some true) None None None None None.

(** The assignments [if (m.x) result.x = m.x] keep a field when it is
    truthy. *)
Definition keepString (a : option string) : option string :=
  if truthyString a then a else None.

Definition keepNumber (a : option Z) : option Z :=
  if truthyNumber a then a else None.

(** The result of the metadata extraction. *)
Record VscoMetadata := mkVscoMetadata {
  directImageUrl : string;
  vm_uploadDate : option string;
  vm_availableSizes : option (list string);
  vm_srcset : option string;
  vm_originalWidth : option Z;
  vm_originalHeight : option Z
}.

(** The skipped result with the extracted metadata attached, as the
    sequential service builds it. *)
Definition withMetadata (r : DownloadResult) (m : VscoMetadata) : DownloadResult :=
  mkDownloadResult (success r) (photoId r) (filepath r) (filename r) (size r)
    (author r) (authorUrl r) (imageUrl r) (width r) (height r) (error r)
    (skipped r) (isDryRun r)
    (keepString (vm_uploadDate m)) (vm_availableSizes m) (keepString (vm_srcset m))
    (keepNumber (vm_originalWidth m)) (keepNumber (vm_originalHeight m)).

(** [photoId.split('/')] *)
Fixpoint splitSlash (s : string) : list string :=
  match s with
  | EmptyString => [EmptyString]
  | String c s' =>
      if Ascii.eqb c "/"%char then EmptyString :: splitSlash s'
      else match splitSlash s' with
           | [] => [String c EmptyString]
           | h :: t => String c h :: t
           end
  end.

(** [parts[0]] *)
Definition usernameOf (photoId : string) : string :=
  match splitSlash photoId with
  | h :: _ => h
  | [] => EmptyString
  end.

(** The page of the image: [imageData.vsco_url] when there is one, else the
    media page of the user, else the profile of the user. *)
Definition vscoImageUrlOf (photoId : string) (imageData : ImageData) : string :=
  let username := usernameOf photoId in
  let imageId := orString (splitSlash photoId !! 1%nat) photoId in
  if truthyString (vsco_url imageData) then nullish (vsco_url imageData) EmptyString
  else if negb (String.eqb username EmptyString) &&
          negb (String.eqb imageId EmptyString) &&
          negb (String.eqb imageId username)
       then "https://vsco.co/" +:+ username +:+ "/media/" +:+ imageId
       else "https://vsco.co/" +:+ username.

(** * The statistics tracker ([src/stats/StatsTracker.ts]) *)

(** The three operations of the tracker the download services call; they
    are synchronous and act on the counters only. *)
Record StatsTracker := mkStatsTracker {
  incrementDownloaded : StatsData -> answer unit * StatsData;
  incrementFailed : StatsData -> answer unit * StatsData;
  incrementSkipped : StatsData -> answer unit * StatsData
}.

(** The class of the repository. *)
Definition statsTracker : StatsTracker :=
  mkStatsTracker
    (fun s => (Ok tt, mkStats (stats_downloaded s + 1) (stats_failed s) (stats_skipped s)))
    (fun s => (Ok tt, mkStats (stats_downloaded s) (stats_failed s + 1) (stats_skipped s)))
    (fun s => (Ok tt, mkStats (stats_downloaded s) (stats_failed s) (stats_skipped s + 1))).

(** A call of a tracker operation from a service. *)
Definition callStats (f : StatsData -> answer unit * StatsData) : M World unit :=
  fun w =>
    let '(r, s') := f (stats w) in
    (match r with Ok _ => Return tt | Err e => Throw e end,
     setStats (fun _ => s') w).

(** * The file system service ([src/fs/FileSystemService.ts]) *)

Record ImageExistsResult := mkImageExistsResult {
  file_exists : bool;
  file_filepath : option string;
  file_size : option Z
}.

Definition possibleExtensions : list string := [".jpg"; ".jpeg"; ".png"; ".webp"].

Section FileSystemService.
Variable env : Env.
Variable config : ConfigOptions.

Fixpoint imageExistsLoop (downloadDir photoId : string) (extensions : list string)
  : M World ImageExistsResult :=
  match extensions with
  | [] => ret (mkImageExistsResult false None None)
  | ext :: rest =>
      let filepath := path_join env downloadDir (photoId +:+ ext) in
      found <- await (fun n => fs_pathExists env n filepath) ;;
      if (found : bool) then
        fileSize <- await (fun n => fs_stat env n filepath) ;;
        ret (mkImageExistsResult true (Some filepath) (Some fileSize))
      else imageExistsLoop downloadDir photoId rest
  end.

(** [imageExists] *)
Definition imageExists (photoId : string) : M World ImageExistsResult :=
  emit (EvImageExists photoId) ;;
  if truthyString (downloadDir config) then
    imageExistsLoop (nullish (downloadDir config) EmptyString) photoId
      possibleExtensions
  else throw (ErrorObj "Download directory not configured").

End FileSystemService.

(** * What the two download services share *)

Section Pages.
Variable env : Env.

(** [path.basename(existingFile.filepath!)]: the call throws when the path
    is not a string. *)
Definition basenameOf (filepath : option string) : M World string :=
  match filepath with
  | Some p => ret (path_basename env p)
  | None => throw (ErrorObj "The path argument must be of type string")
  end.

(** The two rewrites that make the extracted URL absolute. *)
Definition absoluteUrl (url : string) : string :=
  if String.prefix "//" url then "https:" +:+ url
  else if String.prefix "/" url then "https://vsco.co" +:+ url
  else url.

(** The body of [extractVscoImageMetadata] on a page.  The navigation to
    the page of the image and the search of the document are one answer of
    the outside world: the address found, if any, and the metadata read. *)
Definition extractFromPage (imageUrl username : string) : M World VscoMetadata :=
  tryCatch
    (emit (EvExtractMetadata imageUrl) ;;
     scraped <- await (fun n => page_scrape env n imageUrl) ;;
     let found := fst scraped in
     let metadata := snd scraped in
     if truthyString found then
       ret (mkVscoMetadata (absoluteUrl (nullish found EmptyString))
              (keepString (pm_uploadDate metadata))
              (pm_availableSizes metadata)
              (keepString (pm_srcset metadata))
              (keepNumber (pm_originalWidth metadata))
              (keepNumber (pm_originalHeight metadata)))
     else throw (ErrorObj "Could not extract image URL from VSCO page"))
    (fun error =>
       throw (ErrorObj ("Failed to extract VSCO image URL: "
                        +:+ messageOr "Unknown error" error))).

(** The body of [downloadFromDirectUrl] on a page. *)
Definition downloadFromPage (imageUrl photoId : string) (imageData : ImageData)
    (metadata : VscoMetadata) : M World DownloadResult :=
  tryCatch
    (emit (EvFetchImage imageUrl) ;;
     response <- await (fun n => page_goto env n imageUrl) ;;
     match response with
     | None => throw (ErrorObj "HTTP undefined: Failed to fetch image")
     | Some r =>
         if negb (resp_ok r) then
           throw (ErrorObj ("HTTP " +:+ pretty (resp_status r)
                            +:+ ": Failed to fetch image"))
         else
           imageBuffer <- await (fun _ => resp_body r) ;;
           if truthyNumber imageBuffer then
             emit (EvSaveImage photoId) ;;
             savedFile <- await (fun n => fs_saveImageFile env n photoId) ;;
             ret (mkDownloadResult true photoId
                    (Some (sf_filepath savedFile)) (Some (sf_filename savedFile))
                    (Some (sf_size savedFile))
                    (if truthyString (data_author imageData)
                     then data_author imageData else image_author imageData)
                    (data_authorUrl imageData) (Some imageUrl)
                    (data_width imageData) (data_height imageData)
                    None None None
                    (vm_uploadDate metadata) (vm_availableSizes metadata)
                    (vm_srcset metadata) None None)
           else throw (ErrorObj "Empty image data received")
     end)
    (fun error =>
       throw (ErrorObj ("Failed to download from direct URL: "
                        +:+ messageOr "Unknown error" error))).

End Pages.

(** [lastError?.message || "Unknown error after all retries"] *)
Definition lastErrorMessage (lastError : option jsError) : string :=
  orString
    (match lastError with
     | Some (ErrorObj m) => Some m
     | _ => None
     end)
    "Unknown error after all retries".

(** [array.slice(start, end)] *)
Definition relativeIndex (len i : Z) : Z :=
  if i <? 0 then Z.max (len + i) 0 else Z.min i len.

Definition jsSlice {A : Type} (l : list A) (start stop : Z) : list A :=
  let len := Z.of_nat (length l) in
  let from := relativeIndex len start in
  let to := relativeIndex len stop in
  take (Z.to_nat (to - from)) (drop (Z.to_nat from) l).

(** The values of an array of promises when all are fulfilled. *)
Fixpoint allFulfilled {A : Type} (slots : list (option A)) : option (list A) :=
  match slots with
  | [] => Some []
  | Some a :: rest =>
      match allFulfilled rest with
      | Some l => Some (a :: l)
      | None => None
      end
  | None :: _ => None
  end.

(** * The concurrent download service
      ([src/download/ConcurrentDownloadService.ts]) *)

Module ConcurrentDownloadService.
Section Service.
Variable env : Env.
Variable config : ConfigOptions.
Variable tracker : StatsTracker.

(** [extractVscoImageMetadata(page, imageUrl, username)] *)
Definition extractVscoImageMetadata (imageUrl username : string) : M World VscoMetadata :=
  extractFromPage env imageUrl username.

(** [downloadFromDirectUrl(page, imageUrl, photoId, metadata)] *)
Definition downloadFromDirectUrl (imageUrl photoId : string) (imageData : ImageData)
    (metadata : VscoMetadata) : M World DownloadResult :=
  downloadFromPage env imageUrl photoId imageData metadata.

(** [attemptDownloadWithContext] *)
Definition attemptDownloadWithContext (context : nat) (photoId : string)
    (imageData : ImageData) (attempt : Z) : M World DownloadResult :=
  existingFile <- imageExists env config photoId ;;
  if file_exists existingFile then
    name <- basenameOf env (file_filepath existingFile) ;;
    ret (skippedResult photoId (file_filepath existingFile) name
           (nullish (file_size existingFile) 0)
           (orString (image_author imageData) EmptyString))
  else if dryRun config then
    ret (dryRunResult photoId (orString (image_author imageData) EmptyString))
  else
    let username := usernameOf photoId in
    let vscoImageUrl := vscoImageUrlOf photoId imageData in
    emit (EvNewPage context) ;;
    await (context_newPage env) ;;
    tryFinally
      (vscoMetadata <- extractVscoImageMetadata vscoImageUrl username ;;
       downloadFromDirectUrl (directImageUrl vscoMetadata) photoId imageData
         vscoMetadata)
      (tryCatch (emit EvClosePage ;; await (page_close env)) (fun _ => ret tt)).

(** The [for] loop of [downloadImageWithContext]; [fuel] bounds the number
    of iterations. *)
Fixpoint retryLoop (fuel : nat) (context : nat) (photoId : string)
    (imageData : ImageData) (retries attempt : Z) (lastError : option jsError)
  : M World DownloadResult :=
  if attempt <=? retries then
    match fuel with
    | O => never
    | S fuel' =>
        tried <-
          tryCatch
            (emit (EvAttempt photoId attempt) ;;
             result <- attemptDownloadWithContext context photoId imageData attempt ;;
             ret (inl result))
            (fun error =>
               (if attempt <? retries then sleep Backoff (2 ^ attempt * 1000)
                else ret tt) ;;
               ret (inr error)) ;;
        match tried with
        | inl result => ret result
        | inr error =>
            retryLoop fuel' context photoId imageData retries (attempt + 1)
              (Some error)
        end
    end
  else
    ret (failedResult photoId (lastErrorMessage lastError)
           (orString (image_author imageData) EmptyString)).

(** [downloadImageWithContext] *)
Definition downloadImageWithContext (context : nat) (photoId : string)
    (imageData : ImageData) : M World DownloadResult :=
  let retries := orNumber (retries config) 3 in
  retryLoop (Z.to_nat retries) context photoId imageData retries 1 None.

(** The local variable [context] of [downloadSingleImage] next to the state
    of the services. *)
Definition Frame : Type := option nat * World.

Definition inFrame {A : Type} (m : M World A) : M Frame A :=
  fun f =>
    let '(r, w') := m (snd f) in (r, (fst f, w')).

Definition assignContext (c : nat) : M Frame unit :=
  modify (fun f => (Some c, snd f)).

(** The three branches of [downloadSingleImage] that count the result. *)
Definition countResult (result : DownloadResult) : M Frame unit :=
  if success result && negb (nullish (skipped result) false) then
    inFrame (callStats (incrementDownloaded tracker))
  else if nullish (skipped result) false then
    inFrame (callStats (incrementSkipped tracker))
  else inFrame (callStats (incrementFailed tracker)).

(** The [try] block of [downloadSingleImage]. *)
Definition tryBlock (photoId : string) (imageData : ImageData) : M Frame DownloadResult :=
  context <- inFrame (BrowserPool.getContext env) ;;
  assignContext context ;;
  result <- inFrame (downloadImageWithContext context photoId imageData) ;;
  countResult result ;;
  ret result.

(** The [catch] block of [downloadSingleImage]. *)
Definition catchBlock (photoId : string) (imageData : ImageData) (error : jsError)
  : M Frame DownloadResult :=
  inFrame (callStats (incrementFailed tracker)) ;;
  ret (failedResult photoId (messageOr "Unknown error" error)
         (orString (image_author imageData) EmptyString)).

(** The [finally] block of [downloadSingleImage]. *)
Definition finallyBlock : M Frame unit :=
  context <- gets fst ;;
  match context with
  | Some c =>
      tryCatch
        (inFrame (BrowserPool.releaseContext env c))
        (fun error =>
           inFrame (emit (EvWarn ("Failed to release context: "
                                  +:+ messageOr "undefined" error))))
  | None => ret tt
  end.

(** [downloadSingleImage]; [context] starts as [null]. *)
Definition downloadSingleImage (entry : ImageEntry) (currentIndex totalCount : Z)
  : M World DownloadResult :=
  let photoId := fst entry in
  let imageData := snd entry in
  fun w =>
    let r :=
      tryFinally
        (tryCatch (tryBlock photoId imageData) (catchBlock photoId imageData))
        finallyBlock
        (None, w) in
    (fst r, snd (snd r)).

(** The promises of [processBatch] settling one after the other.  The
    outside world chooses which of the tasks in flight finishes next; its
    body is run at that moment, as a whole, its promise is fulfilled or
    rejected, and the [finally] block of the semaphore hands the slot on.
    The steps of two tasks in flight are therefore not interleaved here:
    what is stated of a batch concerns the order of the slots, the results
    and the exceptions, which do not depend on the interleaving, and not
    how many contexts the tasks hold at the same time.  [slots] holds the
    values of the fulfilled promises by index, [rejection] the first
    rejection. *)
Fixpoint settleLoop (fuel : nat) (batch : list ImageEntry) (startIndex endIndex : Z)
    (s : Semaphore.sched) (slots : list (option DownloadResult))
    (rejection : option jsError)
  : M World (list (option DownloadResult) * option jsError) :=
  match fuel with
  | O => ret (slots, rejection)
  | S fuel' =>
      match Semaphore.running s with
      | [] => ret (slots, rejection)
      | first :: _ =>
          choice <- ask (settles_next env) ;;
          let id := nullish (Semaphore.running s
                               !! (choice mod length (Semaphore.running s))%nat)
                            first in
          match batch !! id with
          | None => ret (slots, rejection)
          | Some entry =>
              fun w =>
                match downloadSingleImage entry (startIndex + Z.of_nat id + 1)
                        endIndex w with
                | (Return r, w') =>
                    settleLoop fuel' batch startIndex endIndex
                      (Semaphore.finish id true s) (<[id := Some r]> slots)
                      rejection w'
                | (Throw e, w') =>
                    settleLoop fuel' batch startIndex endIndex
                      (Semaphore.finish id false s) slots
                      (Some (nullish rejection e)) w'
                | (Pending, w') => (Pending, w')
                end
          end
      end
  end.

(** [processBatch]: the semaphore, one [acquire] per entry in the order of
    the batch, and [Promise.all] over the promises. *)
Definition processBatch (batch : list ImageEntry) (startIndex endIndex : Z)
  : M World (list DownloadResult) :=
  let maxConcurrency := orNumber (maxConcurrency config) 3 in
  let concurrency := Z.min (Z.of_nat (length batch)) maxConcurrency in
  let semaphore := Semaphore.init concurrency in
  let promises :=
    Semaphore.run (map (fun _ => Semaphore.Acquire) batch) semaphore in
  settled <- settleLoop (length batch) batch startIndex endIndex promises
               (replicate (length batch) None) None ;;
  match snd settled with
  | Some e => throw e
  | None =>
      match allFulfilled (fst settled) with
      | Some results => ret results
      | None => never
      end
  end.

(** The [for] loop of [downloadImagesConcurrently]; [fuel] bounds the
    number of iterations. *)
Fixpoint batchLoop (fuel : nat) (imageEntries : list ImageEntry)
    (batchSize delayBetweenBatches i : Z) (results : list DownloadResult)
  : M World (list DownloadResult) :=
  let len := Z.of_nat (length imageEntries) in
  if i <? len then
    match fuel with
    | O => never
    | S fuel' =>
        let batchEnd := Z.min (i + batchSize) len in
        let batch := jsSlice imageEntries i batchEnd in
        let batchNumber := i / batchSize + 1 in
        let totalBatches := - (- len / batchSize) in
        emit (EvBatch batchNumber totalBatches (map fst batch)) ;;
        batchResults <- processBatch batch i batchEnd ;;
        (if (batchEnd <? len) && (0 <? delayBetweenBatches) then
           sleep BetweenBatches delayBetweenBatches
         else ret tt) ;;
        batchLoop fuel' imageEntries batchSize delayBetweenBatches
          (i + batchSize) (results ++ batchResults)
    end
  else ret results.

(** [downloadImagesConcurrently] *)
Definition downloadImagesConcurrently (imageEntries : list ImageEntry)
  : M World (list DownloadResult) :=
  let maxConcurrency := orNumber (maxConcurrency config) 3 in
  let enableBatching := nullish (enableBatching config) true in
  let batchSize := orNumber (batchSize config) maxConcurrency in
  let delayBetweenBatches := orNumber (delayBetweenBatches config) 1000 in
  if negb enableBatching then
    processBatch imageEntries 0 (Z.of_nat (length imageEntries))
  else
    batchLoop (length imageEntries) imageEntries batchSize delayBetweenBatches
      0 [].

End Service.
End ConcurrentDownloadService.

(** * The sequential download service ([src/download/DownloadService.ts]) *)

Module DownloadService.
Section Service.
Variable env : Env.
Variable config : ConfigOptions.
Variable tracker : StatsTracker.

(** [extractVscoImageMetadata(imageUrl, username)] *)
Definition extractVscoImageMetadata (imageUrl username : string) : M World VscoMetadata :=
  await (manager_getPage env) ;;
  extractFromPage env imageUrl username.

(** [downloadFromDirectUrl(imageUrl, photoId, metadata)] *)
Definition downloadFromDirectUrl (imageUrl photoId : string) (imageData : ImageData)
    (metadata : VscoMetadata) : M World DownloadResult :=
  await (manager_getPage env) ;;
  downloadFromPage env imageUrl photoId imageData metadata.

(** [attemptDownload] *)
Definition attemptDownload (photoId : string) (imageData : ImageData) (attempt : Z)
  : M World DownloadResult :=
  existingFile <- imageExists env config photoId ;;
  if file_exists existingFile then
    callStats (incrementSkipped tracker) ;;
    tryCatch
      (let username := usernameOf photoId in
       let vscoImageUrl := vscoImageUrlOf photoId imageData in
       vscoMetadata <- extractVscoImageMetadata vscoImageUrl username ;;
       name <- basenameOf env (file_filepath existingFile) ;;
       ret (withMetadata
              (skippedResult photoId (file_filepath existingFile) name
                 (nullish (file_size existingFile) 0)
                 (orString (image_author imageData) EmptyString))
              vscoMetadata))
      (fun _ =>
         name <- basenameOf env (file_filepath existingFile) ;;
         ret (skippedResult photoId (file_filepath existingFile) name
                (nullish (file_size existingFile) 0)
                (orString (image_author imageData) EmptyString)))
  else if dryRun config then
    callStats (incrementDownloaded tracker) ;;
    ret (dryRunResult photoId (orString (image_author imageData) EmptyString))
  else
    tryCatch
      (let username := usernameOf photoId in
       let vscoImageUrl := vscoImageUrlOf photoId imageData in
       vscoMetadata <- extractVscoImageMetadata vscoImageUrl username ;;
       downloadResult <- downloadFromDirectUrl (directImageUrl vscoMetadata)
                           photoId imageData vscoMetadata ;;
       (if success downloadResult then callStats (incrementDownloaded tracker)
        else ret tt) ;;
       ret downloadResult)
      (fun error => throw error).

(** The [for] loop of [downloadImage]; [fuel] bounds the number of
    iterations.  When the loop is left without a result the failure is
    counted. *)
Fixpoint retryLoop (fuel : nat) (photoId : string) (imageData : ImageData)
    (retries attempt : Z) (lastError : option jsError) : M World DownloadResult :=
  if attempt <=? retries then
    match fuel with
    | O => never
    | S fuel' =>
        tried <-
          tryCatch
            (emit (EvAttempt photoId attempt) ;;
             result <- attemptDownload photoId imageData attempt ;;
             ret (inl result))
            (fun error =>
               (if attempt <? retries then sleep Backoff (2 ^ attempt * 1000)
                else ret tt) ;;
               ret (inr error)) ;;
        match tried with
        | inl result => ret result
        | inr error =>
            retryLoop fuel' photoId imageData retries (attempt + 1) (Some error)
        end
    end
  else
    callStats (incrementFailed tracker) ;;
    ret (failedResult photoId (lastErrorMessage lastError)
           (orString (image_author imageData) EmptyString)).

(** [downloadImage] *)
Definition downloadImage (photoId : string) (imageData : ImageData)
  : M World DownloadResult :=
  let retries := orNumber (retries config) 3 in
  retryLoop (Z.to_nat retries) photoId imageData retries 1 None.




End Service.

(** [DownloadSummary] *)
Record DownloadSummary := mkDownloadSummary {
  successful : Z;
  failed : Z;
  skippedCount : Z;
  totalStorage : Z;
  failedResults : list DownloadResult
}.

(** [getDownloadSummary]; the field [skipped] of the summary is
    [skippedCount] here. *)
Definition getDownloadSummary (results : list DownloadResult) : DownloadSummary :=
  let successful :=
    length (List.filter (fun r => success r && negb (nullish (skipped r) false)) results) in
  let failed := length (List.filter (fun r => negb (success r)) results) in
  let skipped :=
    length (List.filter (fun r => success r && nullish (skipped r) false) results) in
  let totalStorage :=
    fold_left (fun sum r => sum + orNumber (size r) 0)
      (List.filter (fun r => success r && truthyNumber (size r)) results) 0 in
  let failedResults := List.filter (fun r => negb (success r)) results in
  mkDownloadSummary (Z.of_nat successful) (Z.of_nat failed) (Z.of_nat skipped)
    totalStorage failedResults.

End DownloadService.

(** * Observations of computations *)

Module Effects.

(** An observation of the state that the computation leaves as it is. *)
Definition keeps {S X A : Type} (f : S -> X) (m : M S A) : Prop :=
  forall s, f (snd (m s)) = f s.

(** The promise of the computation settles. *)
Definition settles {S A : Type} (m : M S A) : Prop :=
  forall s, fst (m s) <> Pending.

(** The computation returns a value: it neither throws nor hangs. *)
Definition succeeds {S A : Type} (m : M S A) : Prop :=
  forall s, exists a, fst (m s) = Return a.

(** What holds of the value when the computation returns one. *)
Definition returns {S A : Type} (Q : A -> Prop) (m : M S A) : Prop :=
  forall s a, fst (m s) = Return a -> Q a.

(** The events of a log that satisfy a test. *)
Definition logged (keep : event -> bool) (w : World) : list event :=
  List.filter keep (log w).

(** What holds of the outcome and of the final state of a run. *)
Definition wp {S A : Type} (m : M S A) (Q : outcome A -> S -> Prop) (s : S) : Prop :=
  Q (fst (m s)) (snd (m s)).

(** The state after one more answer of the outside world was taken. *)
Definition ticked (w : World) : World :=
  mkWorld (pool w) (stats w) (log w) (S (tick w)) (nextContext w).

(** Kinds of events. *)

Definition isAnyRelease (e : event) : bool :=
  match e with
  | EvReleaseContext _ => true
  | _ => false
  end.

Definition isExtract (e : event) : bool :=
  match e with
  | EvExtractMetadata _ => true
  | _ => false
  end.

(** Work in the browser or on the network for an image: a page opened, a
    page visited, the image fetched or saved. *)
Definition isPageWork (e : event) : bool :=
  match e with
  | EvNewPage _ | EvExtractMetadata _ | EvFetchImage _ | EvSaveImage _ => true
  | _ => false
  end.

Definition isRetryEvent (e : event) : bool :=
  match e with
  | EvAttempt _ _ | EvSleep Backoff _ => true
  | _ => false
  end.

Definition isBatchEvent (e : event) : bool :=
  match e with
  | EvBatch _ _ _ | EvSleep BetweenBatches _ => true
  | _ => false
  end.

(** The events that show the batches at work: the announcement of a
    batch, the call of [getContext] with which each task begins, and the
    pause between two batches. *)
Definition isBatchOrTask (e : event) : bool :=
  match e with
  | EvBatch _ _ _ | EvSleep BetweenBatches _ | EvGetContext => true
  | _ => false
  end.

End Effects.

(** * What the properties are stated with *)

(** A file that is reported as present comes with its path and its size. *)
Definition reported (r : ImageExistsResult) : Prop :=
  file_exists r = true ->
  exists path bytes,
    file_filepath r = Some path /\ file_size r = Some bytes.

(** [n] failed attempts in a row from attempt number [attempt] on, each
    followed by its backoff. *)
Fixpoint backoffTrace (id : string) (n : nat) (attempt : Z) : list event :=
  match n with
  | O => []
  | S n' =>
      EvAttempt id attempt :: EvSleep Backoff (2 ^ attempt * 1000)
        :: backoffTrace id n' (attempt + 1)
  end.

(** Attempt number [attempt] for a photo, as the retry loop makes it from
    the state [w]. *)
Definition attemptFrom (env : Env) (config : ConfigOptions) (c : nat) (id : string)
    (imageData : ImageData) (attempt : Z) (w : World)
  : outcome DownloadResult * World :=
  ConcurrentDownloadService.attemptDownloadWithContext env config c id imageData attempt
    (snd (emit (EvAttempt id attempt) w)).

(** The state after [n] attempts in a row, from attempt number [attempt]
    on, that all threw, each followed by its backoff; there is none when
    one of these attempts did not throw. *)
Fixpoint afterFailures (env : Env) (config : ConfigOptions) (c : nat) (id : string)
    (imageData : ImageData) (n : nat) (attempt : Z) (w : World) : option World :=
  match n with
  | O => Some w
  | S n' =>
      match attemptFrom env config c id imageData attempt w with
      | (Throw _, w') =>
          afterFailures env config c id imageData n' (attempt + 1)
            (snd (sleep Backoff (2 ^ attempt * 1000) w'))
      | _ => None
      end
  end.

(** How the retry loop ends on the outcome [final] of its last attempt:
    with the result of the attempt, or, the attempt having been number
    [retries] and having thrown, with the failed result. *)
Definition endedBy (final : outcome DownloadResult * World) (retries attempt : Z)
    (id : string) (imageData : ImageData) (out : outcome DownloadResult * World)
  : Prop :=
  match final with
  | (Return r, w') => out = (Return r, w')
  | (Throw e, w') =>
      attempt = retries /\
      out = (Return (failedResult id (lastErrorMessage (Some e))
                       (orString (image_author imageData) EmptyString)), w')
  | (Pending, _) => False
  end.

(** The local variable and the selected events of the log. *)
Definition framed (keep : event -> bool) (f : ConcurrentDownloadService.Frame) : option nat * list event :=
  (fst f, Effects.logged keep (snd f)).


(** The promises of a batch and the semaphore agree: every entry has had
    its [acquire] call, the slot of an entry is filled exactly when its
    task has been started and is no longer in flight, a filled slot holds a
    result for the photo of its entry, and the semaphore has room for a
    task when there is one. *)
Record joined (batch : list ImageEntry) (s : Semaphore.sched)
    (slots : list (option DownloadResult)) : Prop := mkJoined {
  joined_wf : Semaphore.wf s;
  joined_calls : length (Semaphore.calls s) = length batch;
  joined_slots : length slots = length batch;
  joined_room : batch = [] \/ 1 <= Semaphore.maxConcurrent (Semaphore.sem s);
  joined_filled : forall i, (i < length batch)%nat ->
    (slots !! i <> Some None <-> i ∈ Semaphore.started s /\ i ∉ Semaphore.running s);
  joined_ids : forall i r entry,
    slots !! i = Some (Some r) -> batch !! i = Some entry -> photoId r = fst entry
}.

(** The consecutive slices of length [b] of a list, the last one possibly
    shorter. *)
Fixpoint slicesFuel {A : Type} (fuel b : nat) (l : list A) : list (list A) :=
  match fuel with
  | O => []
  | S fuel' =>
      match l with
      | [] => []
      | _ :: _ => take b l :: slicesFuel fuel' b (drop b l)
      end
  end.

Definition slices {A : Type} (b : nat) (l : list A) : list (list A) :=
  slicesFuel (length l) b l.

(** The batches announced one after the other, numbered from [number] on,
    with, when [pause] is set, a sleep between two batches and none after
    the last. *)
Fixpoint batchPlan (pause : bool) (delay total number : Z)
    (chunks : list (list string)) : list event :=
  match chunks with
  | [] => []
  | c :: rest =>
      EvBatch number total c ::
      match rest with
      | [] => []
      | _ :: _ =>
          (if pause then [EvSleep BetweenBatches delay] else [])
            ++ batchPlan pause delay total (number + 1) rest
      end
  end.

(** The batches at work one after the other, numbered from [number] on:
    the announcement of a batch, then one call of [getContext] for each of
    its entries, then, when another batch follows, the pause. *)
Fixpoint batchTrace (delay total number : Z) (chunks : list (list ImageEntry))
  : list event :=
  match chunks with
  | [] => []
  | c :: rest =>
      EvBatch number total (map fst c) :: replicate (length c) EvGetContext ++
      match rest with
      | [] => []
      | _ :: _ =>
          EvSleep BetweenBatches delay :: batchTrace delay total (number + 1) rest
      end
  end.

(** The slices processed strictly one after the other: each one is
    announced, handed to [processBatch] with the position of its first
    entry and the position after its last, and followed by the pause when
    another slice follows; the results are appended in that order.
    [start] is the number of entries before the first slice. *)
Fixpoint processSlices (env : Env) (config : ConfigOptions) (tracker : StatsTracker)
    (delay total number start : Z) (chunks : list (list ImageEntry))
  : M World (list DownloadResult) :=
  match chunks with
  | [] => ret []
  | c :: rest =>
      let stop := start + Z.of_nat (length c) in
      emit (EvBatch number total (map fst c)) ;;
      results <- ConcurrentDownloadService.processBatch env config tracker c start stop ;;
      match rest with
      | [] => ret tt
      | _ :: _ => sleep BetweenBatches delay
      end ;;
      more <- processSlices env config tracker delay total (number + 1) stop rest ;;
      ret (results ++ more)
  end.

(** The options of concurrency are not negative, as the command line
    leaves them: a concurrency between 1 and 10 and a batch size of 1 at
    least, or none. *)
Definition concurrencyOk (config : ConfigOptions) : Prop :=
  0 <= nullish (maxConcurrency config) 0 /\
  0 <= nullish (batchSize config) 0.

(** The delay between batches is not negative. *)
Definition delayOk (config : ConfigOptions) : Prop :=
  0 <= nullish (delayBetweenBatches config) 0.


(** * Examples *)

Module Examples.

Definition noMetadata : PageMetadata := mkPageMetadata None None None None None.

(** An outside world in which every call works; [onDisk] tells whether the
    files asked for are there, and [newPage] what opening a page does. *)
Definition world (onDisk : bool) (newPage : answer unit) : Env :=
  mkEnv
    (fun n => Z.of_nat n)
    (fun _ => Ok tt) (fun _ => Ok tt) (fun _ => Ok tt) (fun _ => 0%nat)
    (fun _ => Ok tt)
    (fun _ => newPage) (fun _ => Ok tt) (fun _ => Ok tt)
    (fun _ _ => Ok (Some "//im.vsco.co/x.jpg", noMetadata))
    (fun _ _ => Ok (Some (mkResponse true 200 (Ok (Some 10)))))
    (fun _ _ => Ok onDisk) (fun _ _ => Ok 7)
    (fun _ id => Ok (mkSavedFileInfo ("/d/" +:+ id +:+ ".jpg") (id +:+ ".jpg") 10))
    (fun dir name => dir +:+ "/" +:+ name)
    (fun p => p)
    (fun n => n).

Definition calm : Env := world false (Ok tt).
Definition stocked : Env := world true (Ok tt).
Definition noPages : Env := world false (Err (ErrorObj "Target closed")).

(** An outside world in which no page can be opened at first: the calls
    that are answered before the tenth answer fail. *)
Definition flaky : Env :=
  mkEnv
    (Date_now calm) (chromium_launch calm) (browser_newContext calm)
    (context_close calm) (context_pages calm) (browser_close calm)
    (fun n => if (n <? 10)%nat then Err (ErrorObj "Target closed") else Ok tt)
    (manager_getPage calm) (page_close calm) (page_scrape calm) (page_goto calm)
    (fs_pathExists calm) (fs_stat calm) (fs_saveImageFile calm)
    (path_join calm) (path_basename calm) (settles_next calm).

(** Two workers, batches of two, half a second between batches. *)
Definition options : ConfigOptions :=
  mkConfigOptions false false (Some "/d") (Some 30000) (Some 3) None
    (Some 2) (Some 500) (Some 2) None.

(** The same options for a dry run. *)
Definition rehearsal : ConfigOptions :=
  mkConfigOptions false true (Some "/d") (Some 30000) (Some 3) None
    (Some 2) (Some 500) (Some 2) None.

Definition plain : ImageData := mkImageData None None None None None None.

Definition five : list ImageEntry :=
  [("u/a", plain); ("u/b", plain); ("u/c", plain); ("u/d", plain); ("u/e", plain)].

(** The services once the pool is initialized. *)
Definition ready (env : Env) : World :=
  snd (BrowserPool.initialize env (newWorld options)).

End Examples.

(** * What the further properties of the pool are stated with *)

(** The contexts of the pool that are in use. *)
Definition borrowed (w : World) : list nat :=
  map context (List.filter inUse (contextPool (pool w))).

(** Every context of the pool is there once and was created by the pool. *)
Record distinct (w : World) : Prop := mkDistinct {
  distinct_nodup : NoDup (map context (contextPool (pool w)));
  distinct_known : forall pc, pc ∈ contextPool (pool w) ->
                              (context pc < nextContext w)%nat
}.

(** No context has been handed out more often than [maxContextUses], and
    a context that is available can be handed out once more. *)
Definition usesOk (w : World) : Prop :=
  forall pc, pc ∈ contextPool (pool w) ->
    0 <= useCount pc <= BrowserPool.maxContextUses /\
    (inUse pc = false -> useCount pc < BrowserPool.maxContextUses).

(** From [w] to [w'] the pool was only renewed: the entries of [w'] are
    entries of [w] or new, unused and available ones, and the entries in
    use are all still there. *)
Record renewed (w w' : World) : Prop := mkRenewed {
  renewed_distinct : distinct w';
  renewed_next : (nextContext w <= nextContext w')%nat;
  renewed_new : forall pc, pc ∈ contextPool (pool w') ->
      pc ∈ contextPool (pool w) \/
      (inUse pc = false /\ useCount pc = 0 /\ (nextContext w <= context pc)%nat);
  renewed_kept : forall pc, pc ∈ contextPool (pool w) -> inUse pc = true ->
      pc ∈ contextPool (pool w')
}.

(** The part of the state the pool works on, and the part the download of
    an image leaves alone. *)
Definition poolView (w : World) : BrowserPoolState * nat := (pool w, nextContext w).

Definition servicesView (w : World) : BrowserPoolState * nat * StatsData :=
  (pool w, nextContext w, stats w).

(** From [w] to [w'] the context [c] was handed out: it was not in use,
    and now it is, next to the contexts that were. *)
Record handedOut (w w' : World) (c : nat) : Prop := mkHandedOut {
  handed_distinct : distinct w';
  handed_free : c ∉ borrowed w;
  handed_borrowed : forall x, x ∈ borrowed w' <-> x = c \/ x ∈ borrowed w;
  handed_uses : usesOk w -> usesOk w'
}.

(** From [w] to [w'] the context [c] was given back: it is no longer in
    use, and the other contexts in use still are. *)
Record givenBack (w w' : World) (c : nat) : Prop := mkGivenBack {
  back_distinct : distinct w';
  back_borrowed : forall x, x ∈ borrowed w' <-> x ∈ borrowed w /\ x <> c;
  back_uses : usesOk w -> usesOk w'
}.

(** More kinds of events. *)
Definition isCloseContext (e : event) : bool :=
  match e with
  | EvCloseContext _ => true
  | _ => false
  end.

Definition isClosePage (e : event) : bool :=
  match e with
  | EvClosePage => true
  | _ => false
  end.

Definition isNewPage (e : event) : bool :=
  match e with
  | EvNewPage _ => true
  | _ => false
  end.

Definition isSave (e : event) : bool :=
  match e with
  | EvSaveImage _ => true
  | _ => false
  end.

(** A string without a slash. *)
Fixpoint noSlash (s : string) : bool :=
  match s with
  | EmptyString => true
  | String c s' => negb (Ascii.eqb c "/"%char) && noSlash s'
  end.

(** The counters after a result has been counted, as [downloadSingleImage]
    counts it: a success that was not skipped as downloaded, a skipped
    result as skipped, anything else as failed. *)
Definition counted (r : DownloadResult) (s : StatsData) : StatsData :=
  if success r && negb (nullish (skipped r) false) then
    mkStats (stats_downloaded s + 1) (stats_failed s) (stats_skipped s)
  else if nullish (skipped r) false then
    mkStats (stats_downloaded s) (stats_failed s) (stats_skipped s + 1)
  else mkStats (stats_downloaded s) (stats_failed s + 1) (stats_skipped s).

(** The result counts in the summary for what the tracker counts it: a
    result that did not succeed is not marked as skipped. *)
Definition consistent (r : DownloadResult) : Prop :=
  success r = false -> nullish (skipped r) false = false.


(** The values of the promises of a batch that are fulfilled so far, by
    index. *)
Fixpoint fulfilled {A : Type} (slots : list (option A)) : list A :=
  match slots with
  | [] => []
  | Some a :: rest => a :: fulfilled rest
  | None :: rest => fulfilled rest
  end.

(** From the counters [s0] to the counters [s] the tracker has advanced by
    what the summary counts in the results. *)
Definition advanced (s0 s : StatsData) (results : list DownloadResult) : Prop :=
  let summary := DownloadService.getDownloadSummary results in
  stats_downloaded s = stats_downloaded s0 + DownloadService.successful summary /\
  stats_failed s = stats_failed s0 + DownloadService.failed summary /\
  stats_skipped s = stats_skipped s0 + DownloadService.skippedCount summary.
(** * Facts about the Semaphore *)

Module SemaphoreFacts.
Import Semaphore.

Lemma seq_snoc (a n : nat) : seq a n ++ [(a + n)%nat] = seq a (S n).
Proof. rewrite seq_S. reflexivity. Qed.

Lemma removeId_length id l :
  id ∈ l -> length (removeId id l) = pred (length l).
Proof.
  induction l as [|x l IH]; intros Hin.
  - inversion Hin.
  - simpl. destruct (Nat.eqb_spec x id) as [->|Hne]; [reflexivity|].
    simpl. rewrite IH.
    + destruct l; [|reflexivity].
      apply elem_of_cons in Hin as [->|Hin]; [congruence|inversion Hin].
    + apply elem_of_cons in Hin as [->|Hin]; [congruence|exact Hin].
Qed.

Lemma removeId_subset id l x : x ∈ removeId id l -> x ∈ l.
Proof.
  induction l as [|y l IH]; simpl; [tauto|].
  destruct (Nat.eqb_spec y id) as [->|Hne]; intros Hin.
  - now apply elem_of_cons; right.
  - apply elem_of_cons in Hin as [->|Hin]; apply elem_of_cons; auto.
Qed.

Lemma removeId_nodup id l : NoDup l -> NoDup (removeId id l).
Proof.
  induction 1 as [|x l Hx Hl IH]; simpl; [constructor|].
  destruct (Nat.eqb_spec x id); [exact Hl|].
  constructor; [|exact IH]. intros Hin. apply Hx. eapply removeId_subset, Hin.
Qed.

Lemma removeId_gone id l : NoDup l -> id ∉ removeId id l.
Proof.
  induction 1 as [|x l Hx Hl IH]; simpl; [inversion 1|].
  destruct (Nat.eqb_spec x id) as [->|Hne]; [exact Hx|].
  intros Hin. apply elem_of_cons in Hin as [->|Hin]; [congruence|auto].
Qed.

Lemma inFlight_spec id s : inFlight id s = true <-> id ∈ running s.
Proof.
  unfold inFlight. rewrite existsb_exists. split.
  - intros (x & Hx & Heq). apply Nat.eqb_eq in Heq as ->.
    now apply list_elem_of_In.
  - intros Hin. exists id. split; [now apply list_elem_of_In|apply Nat.eqb_refl].
Qed.

Lemma wf_init k : wf (init k).
Proof.
  constructor; simpl; try reflexivity; try constructor; try congruence;
    intros id Hin; inversion Hin.
Qed.

Lemma wf_fresh s id : wf s -> (length (started s) <= id)%nat -> id ∉ running s.
Proof.
  intros W Hle Hin. apply (wf_running s W) in Hin.
  rewrite (wf_started s W) in Hin. apply elem_of_seq in Hin. lia.
Qed.

Lemma wf_acquire s : wf s -> wf (acquire s).
Proof.
  intros W. unfold acquire. simpl.
  destruct (Z.ltb_spec (currentCount (sem s)) (maxConcurrent (sem s))) as [Hlt|Hge].
  - assert (Hq : queue (sem s) = []).
    { destruct (queue (sem s)) eqn:E; [reflexivity|].
      pose proof (wf_full s W) as F. rewrite E in F.
      assert (maxConcurrent (sem s) <= currentCount (sem s)) by (apply F; congruence).
      lia. }
    pose proof (wf_total s W) as T. rewrite Hq in T. simpl in T.
    rewrite Nat.add_0_r in T.
    constructor; simpl; rewrite ?length_app; simpl.
    + rewrite Nat.add_1_r, <- seq_snoc, <- (wf_calls s W). reflexivity.
    + rewrite Nat.add_1_r, <- seq_snoc, <- (wf_started s W). simpl.
      now rewrite T.
    + now rewrite Hq.
    + rewrite Hq. simpl. lia.
    + rewrite (wf_count s W). lia.
    + apply NoDup_app. split; [apply (wf_nodup s W)|]. split.
      * intros x Hx Hx'. apply list_elem_of_singleton in Hx' as ->.
        apply (wf_fresh s (length (calls s)) W); [lia|exact Hx].
      * apply NoDup_singleton.
    + intros id Hin. apply elem_of_app in Hin as [Hin|Hin];
        apply elem_of_app; [left; now apply (wf_running s W)|now right].
    + rewrite Hq. congruence.
    + intros id Hin. apply elem_of_app. left. now apply (wf_waited s W).
  - constructor; simpl; rewrite ?length_app; simpl.
    + rewrite Nat.add_1_r, <- seq_snoc, <- (wf_calls s W). reflexivity.
    + apply (wf_started s W).
    + rewrite Nat.add_1_r, <- seq_snoc, <- (wf_queue s W).
      pose proof (wf_total s W). now replace (length (started s) + length (queue (sem s)))%nat
        with (length (calls s)) by lia.
    + pose proof (wf_total s W). lia.
    + apply (wf_count s W).
    + apply (wf_nodup s W).
    + apply (wf_running s W).
    + intros _. lia.
    + intros id Hin. apply elem_of_app in Hin as [Hin|Hin]; apply elem_of_app;
        [left; now apply (wf_waited s W)|now right].
Qed.

Lemma wf_finish s id ok : wf s -> id ∈ running s -> wf (finish id ok s).
Proof.
  intros W Hin. unfold finish. simpl.
  pose proof (removeId_length id _ Hin) as Hlen.
  assert (Hpos : (0 < length (running s))%nat).
  { destruct (running s); [inversion Hin|simpl; lia]. }
  destruct (queue (sem s)) as [|next rest] eqn:Hq.
  - constructor; simpl; rewrite ?Hq; simpl.
    + apply (wf_calls s W).
    + apply (wf_started s W).
    + reflexivity.
    + pose proof (wf_total s W) as T. now rewrite Hq in T.
    + rewrite (wf_count s W), Hlen. lia.
    + apply removeId_nodup, (wf_nodup s W).
    + intros x Hx. apply (wf_running s W). eapply removeId_subset, Hx.
    + congruence.
    + apply (wf_waited s W).
  - pose proof (wf_queue s W) as Q. rewrite Hq in Q. simpl in Q.
    injection Q as Hnext Hrest.
    pose proof (wf_total s W) as T. rewrite Hq in T. simpl in T.
    constructor; simpl; rewrite ?length_app; simpl.
    + apply (wf_calls s W).
    + rewrite Nat.add_1_r, <- seq_snoc, <- (wf_started s W). simpl.
      now rewrite <- Hnext.
    + rewrite Nat.add_1_r. exact Hrest.
    + lia.
    + rewrite (wf_count s W), Hlen. lia.
    + apply NoDup_app. split; [apply removeId_nodup, (wf_nodup s W)|]. split.
      * intros x Hx Hx'. apply list_elem_of_singleton in Hx' as ->.
        apply removeId_subset in Hx.
        apply (wf_fresh s next W); [lia|exact Hx].
      * apply NoDup_singleton.
    + intros x Hx. apply elem_of_app in Hx as [Hx|Hx]; apply elem_of_app;
        [left; apply (wf_running s W); eapply removeId_subset, Hx|now right].
    + intros _. pose proof (wf_full s W) as F. rewrite Hq in F.
      assert (maxConcurrent (sem s) <= currentCount (sem s)) by (apply F; congruence).
      lia.
    + apply (wf_waited s W).
Qed.

Lemma wf_step s e : wf s -> wf (step s e).
Proof.
  intros W. destruct e as [|id ok]; simpl.
  - now apply wf_acquire.
  - destruct (inFlight id s) eqn:E; [|exact W].
    apply wf_finish; [exact W|now apply inFlight_spec].
Qed.

Lemma wf_run evs s : wf s -> wf (run evs s).
Proof.
  revert s. induction evs as [|e evs IH]; intros s W; simpl; [exact W|].
  apply IH, wf_step, W.
Qed.

Lemma bounded_step s e : wf s -> bounded s -> bounded (step s e).
Proof.
  unfold bounded. intros W B. destruct e as [|id ok]; simpl.
  - unfold acquire. simpl.
    destruct (Z.ltb_spec (currentCount (sem s)) (maxConcurrent (sem s)));
      simpl; lia.
  - destruct (inFlight id s) eqn:E; [|exact B].
    apply inFlight_spec in E.
    assert (1 <= currentCount (sem s)).
    { rewrite (wf_count s W). destruct (running s); [inversion E|simpl; lia]. }
    unfold finish. simpl. destruct (queue (sem s)); simpl; lia.
Qed.

Lemma bounded_run evs s : wf s -> bounded s -> bounded (run evs s).
Proof.
  revert s. induction evs as [|e evs IH]; intros s W B; simpl; [exact B|].
  apply IH; [apply wf_step, W|apply bounded_step; assumption].
Qed.

Lemma maxConcurrent_step s e : maxConcurrent (sem (step s e)) = maxConcurrent (sem s).
Proof.
  destruct e as [|id ok]; simpl.
  - unfold acquire. simpl.
    destruct (currentCount (sem s) <? maxConcurrent (sem s)); reflexivity.
  - destruct (inFlight id s); [|reflexivity].
    unfold finish. simpl. destruct (queue (sem s)); reflexivity.
Qed.

Lemma maxConcurrent_run evs s : maxConcurrent (sem (run evs s)) = maxConcurrent (sem s).
Proof.
  revert s. induction evs as [|e evs IH]; intros s; simpl; [reflexivity|].
  now rewrite IH, maxConcurrent_step.
Qed.

(** C2.  For a semaphore of capacity [k >= 0] and every sequence of
    [acquire] calls and task completions, successful or not: the count stays
    between 0 and [k]; it is exactly the number of tasks in flight, so a
    slot is held by a running task and by nothing else; and when a task in
    flight settles, with either outcome, it leaves, the semaphore ends up
    in the same state for a rejection as for a success, and either the head
    of the queue is started in its slot or, the queue being empty, the count
    goes down by one. *)
Theorem count_invariant (k : Z) (evs : list action) :
  0 <= k ->
  let s := run evs (init k) in
  0 <= currentCount (sem s) <= k /\
  currentCount (sem s) = Z.of_nat (length (running s)) /\
  forall id ok, id ∈ running s ->
    let s' := step s (Settle id ok) in
    (id ∉ running s') /\
    sem s' = sem (step s (Settle id (negb ok))) /\
    0 <= currentCount (sem s') <= k /\
    match queue (sem s) with
    | [] => currentCount (sem s') = currentCount (sem s) - 1
    | next :: rest =>
        next ∈ running s' /\ queue (sem s') = rest /\
        currentCount (sem s') = currentCount (sem s)
    end.
Proof.
  intros Hk s.
  assert (W : wf s) by apply wf_run, wf_init.
  assert (B : bounded s).
  { apply bounded_run; [apply wf_init|]. unfold bounded. simpl. lia. }
  assert (K : maxConcurrent (sem s) = k) by apply maxConcurrent_run.
  unfold bounded in B. rewrite K in B.
  split; [exact B|]. split; [apply (wf_count s W)|].
  intros id ok Hin s'. subst s'.
  assert (B' : bounded (step s (Settle id ok)))
    by (apply bounded_step; [exact W|unfold bounded; lia]).
  unfold bounded in B'. rewrite maxConcurrent_step, K in B'.
  simpl in *.
  apply inFlight_spec in Hin as Hfl. rewrite Hfl in *.
  split.
  - unfold finish. simpl. destruct (queue (sem s)) as [|next rest] eqn:Hq; simpl.
    + apply removeId_gone, (wf_nodup s W).
    + intros Hx. apply elem_of_app in Hx as [Hx|Hx].
      * revert Hx. apply removeId_gone, (wf_nodup s W).
      * apply list_elem_of_singleton in Hx. subst id.
        apply (wf_fresh s next W); [|exact Hin].
        pose proof (wf_queue s W) as Q. rewrite Hq in Q. simpl in Q.
        injection Q as Hnext _. lia.
  - split; [|split; [exact B'|]].
    + unfold finish. simpl. destruct (queue (sem s)); reflexivity.
    + unfold finish. simpl. destruct (queue (sem s)) as [|next rest]; simpl.
      * reflexivity.
      * split; [apply elem_of_app; right; apply list_elem_of_singleton; reflexivity|].
        split; [reflexivity|lia].
Qed.

Lemma count_invariant_witness :
  0 <= 2 /\
  let s := run [Acquire; Acquire; Acquire; Settle 0 false; Settle 1 true] (init 2) in
  0 <= currentCount (sem s) <= 2 /\
  currentCount (sem s) = Z.of_nat (length (running s)) /\
  forall id ok, id ∈ running s ->
    let s' := step s (Settle id ok) in
    (id ∉ running s') /\
    sem s' = sem (step s (Settle id (negb ok))) /\
    0 <= currentCount (sem s') <= 2 /\
    match queue (sem s) with
    | [] => currentCount (sem s') = currentCount (sem s) - 1
    | next :: rest =>
        next ∈ running s' /\ queue (sem s') = rest /\
        currentCount (sem s') = currentCount (sem s)
    end.
Proof.
  split; [lia|].
  apply (count_invariant 2 [Acquire; Acquire; Acquire; Settle 0 false; Settle 1 true]).
  lia.
Defined.

(** C3.  Slots are granted in the order of the [acquire] calls: when [a] was
    called before [b], both found the semaphore at capacity and were put on
    the queue, and [b]'s task has been started, then [a]'s task was started
    too, and earlier. *)
Theorem fifo_order (k : Z) (evs : list action) (a b ia ib pb : nat) :
  let s := run evs (init k) in
  calls s !! ia = Some a -> calls s !! ib = Some b -> (ia < ib)%nat ->
  a ∈ waited s -> b ∈ waited s ->
  started s !! pb = Some b ->
  exists pa, started s !! pa = Some a /\ (pa < pb)%nat.
Proof.
  intros s Ha Hb Hlt _ _ Hpb.
  assert (W : wf s) by apply wf_run, wf_init.
  rewrite (wf_calls s W) in Ha, Hb. rewrite (wf_started s W) in Hpb.
  apply lookup_seq in Ha as [-> _]. apply lookup_seq in Hb as [-> _].
  apply lookup_seq in Hpb as [Hb Hm]. simpl in *. subst ib.
  exists ia. split; [|exact Hlt].
  rewrite (wf_started s W). apply lookup_seq. simpl. split; [reflexivity|lia].
Qed.

Lemma fifo_order_witness :
  let s := run [Acquire; Acquire; Acquire; Settle 0 true; Settle 1 false] (init 1) in
  (calls s !! 1%nat = Some 1%nat /\ calls s !! 2%nat = Some 2%nat /\ (1 < 2)%nat /\
   1%nat ∈ waited s /\ 2%nat ∈ waited s /\ started s !! 2%nat = Some 2%nat) /\
  exists pa, started s !! pa = Some 1%nat /\ (pa < 2)%nat.
Proof.
  assert (H : let s := run [Acquire; Acquire; Acquire; Settle 0 true; Settle 1 false] (init 1) in
              calls s !! 1%nat = Some 1%nat /\ calls s !! 2%nat = Some 2%nat /\ (1 < 2)%nat /\
              1%nat ∈ waited s /\ 2%nat ∈ waited s /\ started s !! 2%nat = Some 2%nat).
  { simpl. repeat split; try reflexivity; try lia.
    - apply list_elem_of_In. simpl. tauto.
    - apply list_elem_of_In. simpl. tauto. }
  split; [exact H|].
  destruct H as (H1 & H2 & H3 & H4 & H5 & H6).
  exact (fifo_order 1 [Acquire; Acquire; Acquire; Settle 0 true; Settle 1 false]
           1 2 1 2 2 H1 H2 H3 H4 H5 H6).
Defined.

End SemaphoreFacts.

(** * Reasoning about effects *)

Module EffectsFacts.
Import Effects.

Section Keeps.
Context {S X : Type} (f : S -> X).

Lemma keeps_ret {A} (a : A) : keeps f (ret a).
Proof. intros w. reflexivity. Qed.

Lemma keeps_throw {A} e : keeps f (@throw S A e).
Proof. intros w. reflexivity. Qed.

Lemma keeps_never {A} : keeps f (@never S A).
Proof. intros w. reflexivity. Qed.

Lemma keeps_gets {A} (g : S -> A) : keeps f (gets g).
Proof. intros w. reflexivity. Qed.

Lemma keeps_bind {A B} (m : M S A) (k : A -> M S B) :
  keeps f m -> (forall a, keeps f (k a)) -> keeps f (bind m k).
Proof.
  intros Hm Hk w. unfold bind. specialize (Hm w).
  destruct (m w) as [[a|e|] w1]; simpl in *; [|assumption..].
  rewrite Hk. exact Hm.
Qed.

Lemma keeps_tryCatch {A} (m : M S A) (h : jsError -> M S A) :
  keeps f m -> (forall e, keeps f (h e)) -> keeps f (tryCatch m h).
Proof.
  intros Hm Hh w. unfold tryCatch. specialize (Hm w).
  destruct (m w) as [[a|e|] w1]; simpl in *; [assumption| |assumption].
  rewrite Hh. exact Hm.
Qed.

Lemma keeps_tryFinally {A} (m : M S A) (c : M S unit) :
  keeps f m -> keeps f c -> keeps f (tryFinally m c).
Proof.
  intros Hm Hc w. unfold tryFinally. specialize (Hm w).
  destruct (m w) as [[a|e|] w1]; simpl in *; [| |assumption];
    specialize (Hc w1); destruct (c w1) as [[[]|e'|] w2]; simpl in *; congruence.
Qed.

Lemma keeps_forEach {A} (xs : list A) (body : A -> M S unit) :
  (forall x, keeps f (body x)) -> keeps f (forEach xs body).
Proof.
  intros Hb. induction xs as [|x xs IH]; simpl.
  - apply keeps_ret.
  - apply keeps_bind; [apply Hb|intros _; exact IH].
Qed.

Lemma keeps_modify (g : S -> S) :
  (forall w, f (g w) = f w) -> keeps f (modify g).
Proof. intros Hg w. apply Hg. Qed.

End Keeps.

Section Settles.
Context {S : Type}.

Lemma settles_ret {A} (a : A) : settles (@ret S A a).
Proof. intros s. discriminate. Qed.

Lemma settles_throw {A} e : settles (@throw S A e).
Proof. intros s. discriminate. Qed.

Lemma settles_gets {A} (g : S -> A) : settles (gets g).
Proof. intros s. discriminate. Qed.

Lemma settles_modify (g : S -> S) : settles (modify g).
Proof. intros s. discriminate. Qed.

Lemma settles_bind {A B} (m : M S A) (k : A -> M S B) :
  settles m -> (forall a, settles (k a)) -> settles (bind m k).
Proof.
  intros Hm Hk s. unfold bind. specialize (Hm s).
  destruct (m s) as [[a|e|] s1]; simpl in *; [apply Hk|discriminate|congruence].
Qed.

Lemma settles_tryCatch {A} (m : M S A) (h : jsError -> M S A) :
  settles m -> (forall e, settles (h e)) -> settles (tryCatch m h).
Proof.
  intros Hm Hh s. unfold tryCatch. specialize (Hm s).
  destruct (m s) as [[a|e|] s1]; simpl in *; [discriminate|apply Hh|congruence].
Qed.

Lemma settles_tryFinally {A} (m : M S A) (c : M S unit) :
  settles m -> settles c -> settles (tryFinally m c).
Proof.
  intros Hm Hc s. unfold tryFinally. specialize (Hm s).
  destruct (m s) as [[a|e|] s1]; simpl in *; [| |congruence];
    specialize (Hc s1); destruct (c s1) as [[[]|e'|] s2]; simpl in *;
    congruence.
Qed.

Lemma settles_forEach {A} (xs : list A) (body : A -> M S unit) :
  (forall x, settles (body x)) -> settles (forEach xs body).
Proof.
  intros Hb. induction xs as [|x xs IH]; simpl.
  - apply settles_ret.
  - apply settles_bind; [apply Hb|intros _; exact IH].
Qed.

End Settles.

Section Succeeds.
Context {S : Type}.

Lemma succeeds_ret {A} (a : A) : succeeds (@ret S A a).
Proof. intros s. exists a. reflexivity. Qed.

Lemma succeeds_gets {A} (g : S -> A) : succeeds (gets g).
Proof. intros s. exists (g s). reflexivity. Qed.

Lemma succeeds_modify (g : S -> S) : succeeds (modify g).
Proof. intros s. exists tt. reflexivity. Qed.

Lemma succeeds_bind {A B} (m : M S A) (k : A -> M S B) :
  succeeds m -> (forall a, succeeds (k a)) -> succeeds (bind m k).
Proof.
  intros Hm Hk s. unfold bind. destruct (Hm s) as [a Ha].
  destruct (m s) as [r s1]. simpl in Ha. subst r. apply Hk.
Qed.

Lemma succeeds_tryCatch {A} (m : M S A) (h : jsError -> M S A) :
  settles m -> (forall e, succeeds (h e)) -> succeeds (tryCatch m h).
Proof.
  intros Hm Hh s. unfold tryCatch. specialize (Hm s).
  destruct (m s) as [[a|e|] s1]; simpl in *; [eexists; reflexivity|apply Hh|congruence].
Qed.

Lemma succeeds_tryFinally {A} (m : M S A) (c : M S unit) :
  succeeds m -> succeeds c -> succeeds (tryFinally m c).
Proof.
  intros Hm Hc s. unfold tryFinally. destruct (Hm s) as [a Ha].
  destruct (m s) as [r s1]. simpl in Ha. subst r.
  destruct (Hc s1) as [[] Hu]. destruct (c s1) as [r s2]. simpl in Hu. subst r.
  exists a. reflexivity.
Qed.

Lemma succeeds_settles {A} (m : M S A) : succeeds m -> settles m.
Proof. intros Hm s. destruct (Hm s) as [a Ha]. congruence. Qed.

End Succeeds.

Section Returns.
Context {S : Type}.

Lemma returns_ret {A} (Q : A -> Prop) (a : A) : Q a -> returns Q (@ret S A a).
Proof. intros Ha s b Hb. injection Hb as <-. exact Ha. Qed.

Lemma returns_throw {A} (Q : A -> Prop) e : returns Q (@throw S A e).
Proof. intros s b Hb. discriminate. Qed.

Lemma returns_never {A} (Q : A -> Prop) : returns Q (@never S A).
Proof. intros s b Hb. discriminate. Qed.

Lemma returns_bind {A B} (Q : B -> Prop) (m : M S A) (k : A -> M S B) :
  (forall a, returns Q (k a)) -> returns Q (bind m k).
Proof.
  intros Hk s b. unfold bind.
  destruct (m s) as [[a|e|] s1]; simpl; [apply Hk|discriminate..].
Qed.

Lemma returns_tryCatch {A} (Q : A -> Prop) (m : M S A) (h : jsError -> M S A) :
  returns Q m -> (forall e, returns Q (h e)) -> returns Q (tryCatch m h).
Proof.
  intros Hm Hh s b. unfold tryCatch. specialize (Hm s).
  destruct (m s) as [[a|e|] s1]; simpl in *; [apply Hm|apply Hh|discriminate].
Qed.

Lemma returns_tryFinally {A} (Q : A -> Prop) (m : M S A) (c : M S unit) :
  returns Q m -> returns Q (tryFinally m c).
Proof.
  intros Hm s b. unfold tryFinally. specialize (Hm s).
  destruct (m s) as [[a|e|] s1]; simpl in *; [| |discriminate];
    destruct (c s1) as [[[]|e'|] s2]; simpl; try discriminate.
  apply Hm.
Qed.

End Returns.

(** The primitive effects on the state of the services. *)

Lemma settles_emit e : settles (emit e).
Proof. intros w. discriminate. Qed.

Lemma settles_nextTick : settles nextTick.
Proof. intros w. discriminate. Qed.

Lemma settles_await {A} (p : nat -> answer A) : settles (await p).
Proof.
  apply settles_bind; [apply settles_nextTick|].
  intros n. destruct (p n); [apply settles_ret|apply settles_throw].
Qed.

Lemma settles_ask {A} (p : nat -> A) : settles (ask p).
Proof. apply settles_bind; [apply settles_nextTick|intros n; apply settles_ret]. Qed.

Lemma settles_callStats g : settles (callStats g).
Proof.
  intros w. unfold callStats. destruct (g (stats w)) as [[[]|e] s']; discriminate.
Qed.

Section Logged.
Variable keep : event -> bool.

Lemma logged_emit e w :
  logged keep (snd (emit e w)) = logged keep w ++ (if keep e then [e] else []).
Proof.
  unfold logged, emit, modify. simpl. rewrite List.filter_app. simpl.
  destruct (keep e); reflexivity.
Qed.

Lemma keeps_emit e : keep e = false -> keeps (logged keep) (emit e).
Proof.
  intros He w. rewrite logged_emit, He. apply app_nil_r.
Qed.

Lemma keeps_nextTick : keeps (logged keep) nextTick.
Proof. intros w. reflexivity. Qed.

Lemma keeps_await {A} (p : nat -> answer A) : keeps (logged keep) (await p).
Proof.
  apply keeps_bind; [apply keeps_nextTick|].
  intros n. destruct (p n); [apply keeps_ret|apply keeps_throw].
Qed.

Lemma keeps_ask {A} (p : nat -> A) : keeps (logged keep) (ask p).
Proof. apply keeps_bind; [apply keeps_nextTick|intros n; apply keeps_ret]. Qed.

Lemma keeps_callStats g : keeps (logged keep) (callStats g).
Proof.
  intros w. unfold callStats. destruct (g (stats w)) as [r s']. reflexivity.
Qed.

Lemma keeps_setContextPool g : keeps (logged keep) (BrowserPool.setContextPool g).
Proof. intros w. reflexivity. Qed.

Lemma keeps_setBrowser b : keeps (logged keep) (BrowserPool.setBrowser b).
Proof. intros w. reflexivity. Qed.

Lemma keeps_freshContext : keeps (logged keep) BrowserPool.freshContext.
Proof. intros w. reflexivity. Qed.

End Logged.

(** ** Weakest preconditions *)

Section Wp.
Context {S : Type}.

Lemma wp_ret {A} (a : A) (Q : outcome A -> S -> Prop) s :
  Q (Return a) s -> wp (ret a) Q s.
Proof. exact id. Qed.

Lemma wp_throw {A} e (Q : outcome A -> S -> Prop) s :
  Q (Throw e) s -> wp (throw e) Q s.
Proof. exact id. Qed.

Lemma wp_never {A} (Q : outcome A -> S -> Prop) s :
  Q Pending s -> wp never Q s.
Proof. exact id. Qed.

Lemma wp_gets {A} (g : S -> A) (Q : outcome A -> S -> Prop) s :
  Q (Return (g s)) s -> wp (gets g) Q s.
Proof. exact id. Qed.

Lemma wp_modify (g : S -> S) (Q : outcome unit -> S -> Prop) s :
  Q (Return tt) (g s) -> wp (modify g) Q s.
Proof. exact id. Qed.

Lemma wp_bind {A B} (m : M S A) (k : A -> M S B) (Q : outcome B -> S -> Prop) s :
  wp m (fun r s' =>
          match r with
          | Return a => wp (k a) Q s'
          | Throw e => Q (Throw e) s'
          | Pending => Q Pending s'
          end) s ->
  wp (bind m k) Q s.
Proof.
  unfold wp, bind. destruct (m s) as [[a|e|] s1]; simpl; exact id.
Qed.

Lemma wp_tryCatch {A} (m : M S A) (h : jsError -> M S A) (Q : outcome A -> S -> Prop) s :
  wp m (fun r s' =>
          match r with
          | Return a => Q (Return a) s'
          | Throw e => wp (h e) Q s'
          | Pending => Q Pending s'
          end) s ->
  wp (tryCatch m h) Q s.
Proof.
  unfold wp, tryCatch. destruct (m s) as [[a|e|] s1]; simpl; exact id.
Qed.

Lemma wp_tryFinally {A} (m : M S A) (c : M S unit) (Q : outcome A -> S -> Prop) s :
  wp m (fun r s' =>
          match r with
          | Pending => Q Pending s'
          | _ =>
              wp c (fun rc s'' =>
                      match rc with
                      | Return _ => Q r s''
                      | Throw e => Q (Throw e) s''
                      | Pending => Q Pending s''
                      end) s'
          end) s ->
  wp (tryFinally m c) Q s.
Proof.
  unfold wp, tryFinally. destruct (m s) as [[a|e|] s1]; simpl; [| |exact id];
    destruct (c s1) as [[[]|e'|] s2]; simpl; exact id.
Qed.

(** A computation that settles and keeps an observation ends in a state
    with that observation. *)
Lemma wp_keeps {A X} (f : S -> X) (m : M S A) (Q : outcome A -> S -> Prop) s :
  keeps f m -> settles m ->
  (forall r s', r <> Pending -> f s' = f s -> Q r s') ->
  wp m Q s.
Proof. intros K T H. apply H; [apply T|apply K]. Qed.

Lemma wp_mono {A} (m : M S A) (Q Q' : outcome A -> S -> Prop) s :
  wp m Q s -> (forall r s', Q r s' -> Q' r s') -> wp m Q' s.
Proof. unfold wp. intros H HQ. apply HQ, H. Qed.

(** A loop whose steps each stay within a preorder on states stays within
    it. *)
Lemma wp_forEach {A} (R : S -> S -> Prop) (xs : list A) (body : A -> M S unit) s :
  (forall s, R s s) -> (forall s1 s2 s3, R s1 s2 -> R s2 s3 -> R s1 s3) ->
  (forall x s, wp (body x) (fun _ s' => R s s') s) ->
  wp (forEach xs body) (fun _ s' => R s s') s.
Proof.
  intros Hrefl Htrans Hbody. revert s.
  induction xs as [|x xs IH]; intros s; simpl.
  - apply wp_ret, Hrefl.
  - apply wp_bind. eapply wp_mono; [apply Hbody|].
    intros r s' HR. destruct r; [|exact HR..].
    eapply wp_mono; [apply IH|]. simpl. intros _ s'' HR'. eapply Htrans; eassumption.
Qed.

End Wp.

Lemma wp_emit e (Q : outcome unit -> World -> Prop) w :
  Q (Return tt) (mkWorld (pool w) (stats w) (log w ++ [e]) (tick w) (nextContext w)) ->
  wp (emit e) Q w.
Proof. exact id. Qed.

Lemma wp_await {A} (p : nat -> answer A) (Q : outcome A -> World -> Prop) w :
  match p (tick w) with
  | Ok a => Q (Return a) (ticked w)
  | Err e => Q (Throw e) (ticked w)
  end ->
  wp (await p) Q w.
Proof.
  unfold wp, await, bind, nextTick. simpl. destruct (p (tick w)); exact id.
Qed.

Lemma wp_ask {A} (p : nat -> A) (Q : outcome A -> World -> Prop) w :
  Q (Return (p (tick w))) (ticked w) -> wp (ask p) Q w.
Proof. exact id. Qed.

Lemma wp_callStats g (Q : outcome unit -> World -> Prop) w :
  Q (match fst (g (stats w)) with Ok _ => Return tt | Err e => Throw e end)
    (setStats (fun _ => snd (g (stats w))) w) ->
  wp (callStats g) Q w.
Proof.
  unfold wp, callStats. destruct (g (stats w)) as [r s']. exact id.
Qed.

(** ** Laws of the monad *)

Lemma bind_assoc {S A B C} (m : M S A) (k : A -> M S B) (h : B -> M S C) s :
  bind (bind m k) h s = bind m (fun a => bind (k a) h) s.
Proof. unfold bind. destruct (m s) as [[a|e|] s']; reflexivity. Qed.

Lemma bind_ext {S A B} (m : M S A) (k k' : A -> M S B) s :
  (forall a s', k a s' = k' a s') -> bind m k s = bind m k' s.
Proof. intros H. unfold bind. destruct (m s) as [[a|e|] s']; auto. Qed.

(** ** Computations that add to the log *)

Section Appends.
Context {S : Type} (obs : S -> list event) (l : list event).

Lemma appends_bind {A B} (m : M S A) (k : A -> M S B) :
  (forall s, obs (snd (m s)) = obs s ++ l) -> (forall a, keeps obs (k a)) ->
  forall s, obs (snd (bind m k s)) = obs s ++ l.
Proof.
  intros Hm Hk s. specialize (Hm s). unfold bind.
  destruct (m s) as [[a|e|] s1]; simpl in *; [|exact Hm..].
  rewrite (Hk a s1). exact Hm.
Qed.

Lemma appends_tryCatch {A} (m : M S A) (h : jsError -> M S A) :
  (forall s, obs (snd (m s)) = obs s ++ l) -> (forall e, keeps obs (h e)) ->
  forall s, obs (snd (tryCatch m h s)) = obs s ++ l.
Proof.
  intros Hm Hh s. specialize (Hm s). unfold tryCatch.
  destruct (m s) as [[a|e|] s1]; simpl in *; [exact Hm| |exact Hm].
  rewrite (Hh e s1). exact Hm.
Qed.

Lemma appends_tryFinally {A} (m : M S A) (c : M S unit) :
  (forall s, obs (snd (m s)) = obs s ++ l) -> keeps obs c ->
  forall s, obs (snd (tryFinally m c s)) = obs s ++ l.
Proof.
  intros Hm Hc s. specialize (Hm s). unfold tryFinally.
  destruct (m s) as [[a|e|] s1]; simpl in *; [| |exact Hm];
    specialize (Hc s1); destruct (c s1) as [[[]|e'|] s2]; simpl in *; congruence.
Qed.

End Appends.

(** The rule of the construct at the head of the computation. *)
Ltac wp_step :=
  first
    [ apply wp_bind | apply wp_ret | apply wp_throw | apply wp_never
    | apply wp_gets | apply wp_emit | apply wp_await | apply wp_ask
    | apply wp_callStats
    | apply wp_tryCatch | apply wp_tryFinally | apply wp_modify ].

(** Proofs by the structure of a computation that it keeps the selected
    events of the log, that it settles, or that it returns values of some
    kind: the rule of the construct at the head, or a case analysis of what
    the computation branches on. *)
Ltac keeps_tac :=
  repeat first
    [ apply keeps_ret | apply keeps_throw | apply keeps_never | apply keeps_gets
    | apply keeps_await | apply keeps_ask | apply keeps_callStats
    | apply keeps_setContextPool | apply keeps_setBrowser
    | apply keeps_freshContext | apply keeps_nextTick
    | apply keeps_emit; reflexivity
    | apply keeps_bind | apply keeps_tryCatch | apply keeps_tryFinally
    | apply keeps_forEach
    | match goal with
      | |- forall _, _ => intro
      | |- keeps _ (match ?x with _ => _ end) => destruct x
      | H : keeps _ ?m |- keeps _ ?m => exact H
      | H : forall a, keeps _ (?m a) |- keeps _ (?m _) => apply H
      end ].

Ltac settles_tac :=
  repeat first
    [ apply settles_ret | apply settles_throw | apply settles_gets
    | apply settles_modify | apply settles_emit | apply settles_await
    | apply settles_ask | apply settles_callStats | apply settles_nextTick
    | apply settles_bind | apply settles_tryCatch | apply settles_tryFinally
    | apply settles_forEach
    | match goal with
      | |- forall _, _ => intro
      | |- settles (match ?x with _ => _ end) => destruct x
      | H : settles ?m |- settles ?m => exact H
      | H : forall a, settles (?m a) |- settles (?m _) => apply H
      end ].

End EffectsFacts.

(** * Facts about the browser pool *)

Module BrowserPoolFacts.
Import Effects EffectsFacts BrowserPool.

Section WithEnv.
Variable env : Env.

(** ** The pool settles and logs no event of the download services *)

Lemma settles_createContext : settles (createContext env).
Proof. unfold createContext, setContextPool, freshContext. settles_tac. Qed.

Lemma settles_replaceContext pc : settles (replaceContext env pc).
Proof.
  unfold replaceContext, setContextPool. settles_tac.
Qed.

Lemma settles_cleanupStaleContexts : settles (cleanupStaleContexts env).
Proof. unfold cleanupStaleContexts. settles_tac. Qed.

Lemma settles_getContext : settles (getContext env).
Proof.
  unfold getContext, setContextPool. settles_tac.
Qed.

Lemma settles_releaseContext c : settles (releaseContext env c).
Proof.
  unfold releaseContext, setContextPool. settles_tac.
Qed.

Section PoolLog.
Variable keep : event -> bool.
Hypothesis keep_newContext : forall c, keep (EvNewContext c) = false.
Hypothesis keep_closeContext : forall c, keep (EvCloseContext c) = false.
Hypothesis keep_warn : forall m, keep (EvWarn m) = false.
Hypothesis keep_closePage : keep EvClosePage = false.
Hypothesis keep_getContext : keep EvGetContext = false.

Lemma keeps_createContext : keeps (logged keep) (createContext env).
Proof. unfold createContext. keeps_tac. apply keeps_emit; auto. Qed.

Lemma keeps_replaceContext pc : keeps (logged keep) (replaceContext env pc).
Proof. unfold replaceContext. keeps_tac; apply keeps_emit; auto. Qed.

Lemma keeps_cleanupStaleContexts : keeps (logged keep) (cleanupStaleContexts env).
Proof. unfold cleanupStaleContexts. keeps_tac; apply keeps_emit; auto. Qed.

Lemma keeps_getContext : keeps (logged keep) (getContext env).
Proof.
  unfold getContext. keeps_tac; apply keeps_emit; auto.
Qed.

(** [releaseContext] logs its call and nothing else that is selected. *)
Lemma logged_releaseContext c w :
  logged keep (snd (releaseContext env c w)) =
  logged keep w ++ (if keep (EvReleaseContext c) then [EvReleaseContext c] else []).
Proof.
  unfold releaseContext. unfold bind at 1.
  destruct (emit (EvReleaseContext c) w) as [[[]|e|] w1] eqn:E; try discriminate.
  assert (Hw1 : logged keep w1 = logged keep w ++
            (if keep (EvReleaseContext c) then [EvReleaseContext c] else [])).
  { rewrite <- logged_emit. now rewrite E. }
  rewrite <- Hw1.
  match goal with |- logged keep (snd (?m w1)) = _ => assert (K : keeps (logged keep) m) end.
  { keeps_tac; apply keeps_emit; auto. }
  apply K.
Qed.

End PoolLog.

(** ** The size of the pool *)

Lemma noGrowth_refl w : noGrowth w w.
Proof. split; [reflexivity|lia]. Qed.

Lemma noGrowth_trans w1 w2 w3 : noGrowth w1 w2 -> noGrowth w2 w3 -> noGrowth w1 w3.
Proof. intros [H1 H2] [H3 H4]. split; [congruence|lia]. Qed.

Lemma noGrowth_withinLimit w w' : noGrowth w w' -> withinLimit w -> withinLimit w'.
Proof. unfold withinLimit. intros [H1 H2] B. rewrite H1. lia. Qed.

Lemma createContext_oneMore w :
  wp (createContext env) (fun _ w' => oneMore w w') w.
Proof.
  unfold createContext, oneMore.
  apply wp_bind, wp_gets. destruct (negb (browser (pool w))).
  { apply wp_throw. split; [reflexivity|lia]. }
  apply wp_bind, wp_await. destruct (browser_newContext env (tick w)); simpl.
  2: { split; [reflexivity|lia]. }
  repeat (wp_step; simpl). rewrite length_app. simpl. split; [reflexivity|lia].
Qed.

Lemma indexOfContext_lt c l i : indexOfContext c l = Some i -> (i < length l)%nat.
Proof.
  revert i. induction l as [|pc l IH]; intros i; simpl; [discriminate|].
  destruct (Nat.eqb (context pc) c).
  - intros [= <-]. lia.
  - destruct (indexOfContext c l) as [j|]; [|discriminate].
    intros [= <-]. specialize (IH j eq_refl). lia.
Qed.

Lemma replaceContext_noGrowth pc w :
  wp (replaceContext env pc) (fun _ w' => noGrowth w w') w.
Proof.
  unfold replaceContext. apply wp_bind, wp_gets.
  destruct (indexOfContext (context pc) (contextPool (pool w))) as [index|] eqn:I;
    [|apply wp_ret, noGrowth_refl].
  apply indexOfContext_lt in I.
  assert (L : (length (delete index (contextPool (pool w))) = length (contextPool (pool w)) - 1)%nat).
  { rewrite length_delete; [reflexivity|]. apply lookup_lt_is_Some_2, I. }
  apply wp_bind, wp_tryCatch, wp_bind, wp_emit, wp_await.
  set (w1 := ticked _).
  assert (P1 : pool w1 = pool w) by reflexivity.
  assert (K : wp (setContextPool (delete index) ;;
                  p <- gets pool ;;
                  if Z.of_nat (length (contextPool p)) <? maxPoolSize p
                  then tryCatch (createContext env ;; ret tt)
                         (fun e => emit (EvWarn ("Failed to create replacement context: "
                                                 +:+ messageOr "undefined" e)))
                  else ret tt)%js
                 (fun (_ : outcome unit) w' => noGrowth w w') w1).
  { apply wp_bind. unfold setContextPool. apply wp_modify.
    apply wp_bind, wp_gets. subst w1. simpl.
    destruct (Z.ltb_spec (Z.of_nat (length (delete index (contextPool (pool w)))))
                (maxPoolSize (pool w))) as [Hlt|Hge].
    - apply wp_tryCatch, wp_bind.
      eapply wp_mono; [apply createContext_oneMore|].
      unfold oneMore, noGrowth. simpl. intros r w' [H1 H2].
      destruct r; repeat (wp_step; simpl); split; try assumption; lia.
    - apply wp_ret. unfold noGrowth. simpl. split; [reflexivity|lia]. }
  destruct (context_close env (tick _)); [exact K|]. apply wp_ret. exact K.
Qed.


Lemma cleanupStaleContexts_noGrowth w :
  wp (cleanupStaleContexts env) (fun _ w' => noGrowth w w') w.
Proof.
  unfold cleanupStaleContexts. apply wp_bind, wp_ask, wp_bind, wp_gets.
  eapply wp_mono.
  - apply (wp_forEach noGrowth); [apply noGrowth_refl|apply noGrowth_trans|].
    intros pc w'. apply replaceContext_noGrowth.
  - simpl. intros _ w' H. exact H.
Qed.

Lemma length_updateContext c f l : length (updateContext c f l) = length l.
Proof. unfold updateContext. apply length_map. Qed.

Lemma getContext_withinLimit w :
  withinLimit w ->
  wp (getContext env)
     (fun _ w' => withinLimit w' /\ maxPoolSize (pool w') = maxPoolSize (pool w)) w.
Proof.
  intros B. unfold getContext.
  apply wp_bind, wp_emit, wp_bind, wp_gets. simpl.
  destruct (negb (browser (pool w))); [apply wp_throw; split; [exact B|reflexivity]|].
  apply wp_bind. eapply wp_mono; [apply cleanupStaleContexts_noGrowth|].
  intros r w1 NG. simpl in NG.
  assert (B1 : withinLimit w1) by (eapply noGrowth_withinLimit; [exact NG|exact B]).
  destruct NG as [M1 _]. simpl in M1.
  destruct r; [|split; assumption..].
  apply wp_bind, wp_gets, wp_bind.
  assert (Tail : forall found w2,
            withinLimit w2 -> maxPoolSize (pool w2) = maxPoolSize (pool w) ->
            wp (pooledContext <-
                  match found with
                  | Some pc => ret pc
                  | None =>
                      l <- gets (fun w => contextPool (pool w)) ;;
                      match sortByLastUsed (List.filter available l) with
                      | pc :: _ => ret pc
                      | [] => throw (ErrorObj "No browser contexts available and pool is at capacity")
                      end
                  end ;;
                now <- ask (Date_now env) ;;
                setContextPool
                  (updateContext (context pooledContext)
                     (fun pc => mkPooledContext (context pc) true (createdAt pc) now
                                                (useCount pc + 1))) ;;
                ret (context pooledContext))%js
               (fun _ w' => withinLimit w' /\ maxPoolSize (pool w') = maxPoolSize (pool w)) w2).
  { intros found w2 B2 M2.
    assert (Fin : forall pc, wp (now <- ask (Date_now env) ;;
                setContextPool
                  (updateContext (context pc)
                     (fun pc => mkPooledContext (context pc) true (createdAt pc) now
                                                (useCount pc + 1))) ;;
                ret (context pc))%js
               (fun _ w' => withinLimit w' /\ maxPoolSize (pool w') = maxPoolSize (pool w)) w2).
    { intros pc. apply wp_bind, wp_ask, wp_bind. unfold setContextPool.
      apply wp_modify, wp_ret. unfold withinLimit in *. simpl.
      rewrite length_updateContext. split; assumption. }
    apply wp_bind. destruct found as [pc|].
    - apply wp_ret. apply Fin.
    - apply wp_bind, wp_gets.
      destruct (sortByLastUsed _) as [|pc ?].
      + apply wp_throw. split; assumption.
      + apply wp_ret. apply Fin. }
  destruct (List.find available (contextPool (pool w1))) as [pc|].
  - apply wp_ret. apply (Tail (Some pc)); assumption.
  - destruct (Z.ltb_spec (Z.of_nat (length (contextPool (pool w1)))) (maxPoolSize (pool w1)))
      as [Hlt|Hge].
    + apply wp_bind. eapply wp_mono; [apply createContext_oneMore|].
      intros r w2 [M2 L2]. simpl in *.
      assert (B2 : withinLimit w2) by (unfold withinLimit; rewrite M2; lia).
      destruct r; [|split; congruence..].
      apply wp_ret. apply (Tail (Some a0)); [exact B2|congruence].
    + apply wp_ret. apply (Tail None); assumption.
Qed.


Lemma closePages_keeps_pool (xs : list nat) w :
  wp (forEach xs (fun _ => tryCatch (emit EvClosePage ;; await (page_close env))
                                    (fun _ => ret tt)))
     (fun r w' => r = Return tt /\ pool w' = pool w) w.
Proof.
  revert w. induction xs as [|x xs IH]; intros w; simpl.
  - apply wp_ret. split; reflexivity.
  - apply wp_bind, wp_tryCatch, wp_bind, wp_emit, wp_await.
    destruct (page_close env _); [|apply wp_ret];
      (eapply wp_mono; [apply IH|]); simpl; intros r w' [-> Hp]; split;
      try reflexivity; exact Hp.
Qed.

Lemma releaseContext_noGrowth c w :
  wp (releaseContext env c) (fun _ w' => noGrowth w w') w.
Proof.
  unfold releaseContext. apply wp_bind, wp_emit, wp_bind, wp_gets. simpl.
  destruct (List.find _ _) as [pooled|].
  2: { apply wp_emit. split; [reflexivity|simpl; lia]. }
  apply wp_bind, wp_ask, wp_bind.
  eapply wp_mono; [apply closePages_keeps_pool|].
  simpl. intros r w1 [-> P1].
  apply wp_bind. unfold setContextPool. apply wp_modify.
  set (w2 := setPool _ w1).
  assert (N2 : noGrowth w w2).
  { unfold noGrowth. subst w2. simpl. rewrite length_updateContext, P1. simpl.
    split; [reflexivity|lia]. }
  destruct (maxContextUses <=? useCount pooled).
  - eapply wp_mono; [apply replaceContext_noGrowth|].
    simpl. intros _ w3 N3. eapply noGrowth_trans; eassumption.
  - apply wp_ret. exact N2.
Qed.

Lemma initialize_oneMore w :
  wp (initialize env) (fun _ w' => oneMore w w') w.
Proof.
  unfold initialize. apply wp_bind, wp_emit, wp_bind, wp_await.
  destruct (chromium_launch env _).
  2: { split; [reflexivity|simpl; lia]. }
  apply wp_bind. unfold setBrowser. apply wp_modify, wp_bind.
  eapply wp_mono; [apply createContext_oneMore|].
  simpl. intros r w1 H. destruct r; [apply wp_ret|..]; exact H.
Qed.

Lemma closeContexts_keeps_pool (l : list PooledContext) w :
  wp (forEach l (fun pc => tryCatch (emit (EvCloseContext (context pc)) ;;
                                     await (context_close env))
                                    (fun _ => ret tt)))
     (fun r w' => r = Return tt /\ pool w' = pool w) w.
Proof.
  revert w. induction l as [|x xs IH]; intros w; simpl.
  - apply wp_ret. split; reflexivity.
  - apply wp_bind, wp_tryCatch, wp_bind, wp_emit, wp_await.
    destruct (context_close env _); [|apply wp_ret];
      (eapply wp_mono; [apply IH|]); simpl; intros r w' [-> Hp]; split;
      try reflexivity; exact Hp.
Qed.

Lemma cleanup_empties w :
  wp (cleanup env)
     (fun _ w' => maxPoolSize (pool w') = maxPoolSize (pool w) /\
                  contextPool (pool w') = []) w.
Proof.
  unfold cleanup. apply wp_tryCatch, wp_bind, wp_gets, wp_bind.
  eapply wp_mono; [apply closeContexts_keeps_pool|].
  simpl. intros r w1 [-> P1].
  apply wp_bind. unfold setContextPool, setBrowser. apply wp_modify.
  apply wp_bind, wp_gets. simpl. rewrite P1.
  destruct (browser (pool w)).
  - apply wp_bind, wp_emit, wp_bind, wp_await.
    destruct (browser_close env _); repeat (wp_step; simpl); rewrite ?P1;
      split; reflexivity.
  - apply wp_ret. simpl. rewrite P1. split; reflexivity.
Qed.

(** Every operation leaves the limit as it is; [getContext],
    [releaseContext] and [cleanup] keep the pool within it, and so does
    [initialize] on a pool that holds no context. *)
Lemma call_withinLimit o w :
  1 <= maxPoolSize (pool w) -> withinLimit w ->
  (o = Initialize -> contextPool (pool w) = []) ->
  withinLimit (call env o w) /\ maxPoolSize (pool (call env o w)) = maxPoolSize (pool w).
Proof.
  intros M B E. destruct o as [| |c|]; simpl.
  - pose proof (initialize_oneMore w) as [H1 H2]. simpl in *.
    rewrite (E eq_refl) in H2. simpl in H2.
    split; [|exact H1]. unfold withinLimit. rewrite H1. lia.
  - apply (getContext_withinLimit w B).
  - pose proof (releaseContext_noGrowth c w) as H. simpl in H.
    split; [eapply noGrowth_withinLimit; eassumption|apply H].
  - pose proof (cleanup_empties w) as [H1 H2]. simpl in *.
    split; [|exact H1]. unfold withinLimit. rewrite H1, H2. simpl. lia.
Qed.

Lemma call_withinLimit_later o w :
  withinLimit w -> o <> Initialize -> withinLimit (call env o w).
Proof.
  intros B Ho. destruct o as [| |c|]; simpl; [contradiction| | |].
  - apply (getContext_withinLimit w B).
  - pose proof (releaseContext_noGrowth c w) as H. simpl in H.
    eapply noGrowth_withinLimit; eassumption.
  - pose proof (cleanup_empties w) as [H1 H2]. simpl in *.
    unfold withinLimit in *. rewrite H1, H2. simpl. lia.
Qed.

Lemma calls_withinLimit ops w :
  1 <= maxPoolSize (pool w) -> withinLimit w ->
  initializedWhenEmpty env ops w = true ->
  withinLimit (calls env ops w) /\ maxPoolSize (pool (calls env ops w)) = maxPoolSize (pool w).
Proof.
  revert w. induction ops as [|o ops IH]; intros w M B E; simpl in *.
  - split; [exact B|reflexivity].
  - apply andb_true_iff in E as [E1 E2].
    destruct (call_withinLimit o w M B) as [B' M'].
    { intros ->. apply Nat.eqb_eq in E1. now destruct (contextPool (pool w)). }
    destruct (IH (call env o w)) as [B'' M'']; [lia|exact B'|exact E2|].
    split; [exact B''|congruence].
Qed.

Lemma inUseCount_le w : inUseCount w <= getPoolSize w.
Proof.
  unfold inUseCount, getPoolSize.
  pose proof (List.filter_length_le inUse (contextPool (pool w))). lia.
Qed.


End WithEnv.
End BrowserPoolFacts.

(** * Facts about a download attempt and its retries *)

Module DownloadFacts.
Import Effects EffectsFacts ConcurrentDownloadService.

Section WithEnv.
Variable env : Env.
Variable config : ConfigOptions.

(** ** The file system service *)

Lemma settles_imageExistsLoop dir photoId exts :
  settles (imageExistsLoop env dir photoId exts).
Proof. induction exts as [|ext rest IH]; simpl; settles_tac. Qed.

Lemma settles_imageExists photoId : settles (imageExists env config photoId).
Proof. unfold imageExists. settles_tac. Qed.

Lemma returns_imageExistsLoop dir photoId exts :
  returns reported (imageExistsLoop env dir photoId exts).
Proof.
  induction exts as [|ext rest IH]; simpl.
  - apply returns_ret. intros H. discriminate.
  - apply returns_bind. intros [|]; [|exact IH].
    apply returns_bind. intros fileSize. apply returns_ret.
    intros _. eexists _, _. split; reflexivity.
Qed.

Lemma returns_imageExists photoId : returns reported (imageExists env config photoId).
Proof.
  unfold imageExists. apply returns_bind. intros _.
  destruct (truthyString _); [apply returns_imageExistsLoop|apply returns_throw].
Qed.

Section Log.
Variable keep : event -> bool.

Lemma keeps_imageExistsLoop dir photoId exts :
  keeps (logged keep) (imageExistsLoop env dir photoId exts).
Proof. induction exts as [|ext rest IH]; simpl; keeps_tac. Qed.

Lemma keeps_imageExists photoId :
  keep (EvImageExists photoId) = false ->
  keeps (logged keep) (imageExists env config photoId).
Proof.
  intros H. unfold imageExists. keeps_tac;
    first [apply keeps_imageExistsLoop|apply keeps_emit; exact H].
Qed.

End Log.

(** ** A single attempt *)

Lemma settles_attemptDownloadWithContext c photoId imageData attempt :
  settles (attemptDownloadWithContext env config c photoId imageData attempt).
Proof.
  unfold attemptDownloadWithContext. apply settles_bind; [apply settles_imageExists|].
  unfold basenameOf, extractVscoImageMetadata, downloadFromDirectUrl,
    extractFromPage, downloadFromPage. settles_tac.
Qed.


Section AttemptLog.
Variable keep : event -> bool.
Hypothesis keep_imageExists : forall p, keep (EvImageExists p) = false.
Hypothesis keep_closePage : keep EvClosePage = false.
Hypothesis keep_newPage : forall c, keep (EvNewPage c) = false.
Hypothesis keep_extract : forall u, keep (EvExtractMetadata u) = false.
Hypothesis keep_fetch : forall u, keep (EvFetchImage u) = false.
Hypothesis keep_save : forall p, keep (EvSaveImage p) = false.

Lemma keeps_attemptDownloadWithContext c photoId imageData attempt :
  keeps (logged keep)
    (attemptDownloadWithContext env config c photoId imageData attempt).
Proof.
  unfold attemptDownloadWithContext.
  apply keeps_bind; [apply keeps_imageExists, keep_imageExists|].
  unfold basenameOf, extractVscoImageMetadata, downloadFromDirectUrl,
    extractFromPage, downloadFromPage. keeps_tac; apply keeps_emit; auto.
Qed.

End AttemptLog.

(** Every result of an attempt is a result for the photo of the attempt. *)
Lemma returns_attemptDownloadWithContext c id imageData attempt :
  returns (fun r => photoId r = id)
    (attemptDownloadWithContext env config c id imageData attempt).
Proof.
  unfold attemptDownloadWithContext. apply returns_bind. intros existing.
  destruct (file_exists existing).
  { apply returns_bind. intros name. apply returns_ret. reflexivity. }
  destruct (dryRun config); [apply returns_ret; reflexivity|].
  apply returns_bind. intros _. apply returns_bind. intros _.
  apply returns_tryFinally, returns_bind. intros metadata.
  unfold downloadFromDirectUrl, downloadFromPage.
  apply returns_tryCatch; [|intros e; apply returns_throw].
  apply returns_bind. intros _. apply returns_bind. intros [r|]; [|apply returns_throw].
  destruct (negb (resp_ok r)); [apply returns_throw|].
  apply returns_bind. intros buffer. destruct (truthyNumber buffer); [|apply returns_throw].
  apply returns_bind. intros _. apply returns_bind. intros saved.
  apply returns_ret. reflexivity.
Qed.


(** The extraction of the metadata visits the page once. *)
Lemma logged_extractFromPage url username w :
  wp (extractFromPage env url username)
     (fun _ w' => logged isExtract w' = logged isExtract w ++ [EvExtractMetadata url]) w.
Proof.
  unfold extractFromPage. apply wp_tryCatch, wp_bind, wp_emit.
  match goal with
  | |- wp _ _ ?w1 => apply (wp_keeps (logged isExtract) _ _ w1)
  end.
  - keeps_tac.
  - settles_tac.
  - intros r w' _ Hk. unfold logged in *. simpl in Hk.
    rewrite List.filter_app in Hk. simpl in Hk.
    destruct r; [exact Hk|apply wp_throw; exact Hk|exact Hk].
Qed.

(** C9.  When the file system service reports the file of the photo as
    present, the single attempt of the concurrent service returns, in the
    state the check left, a successful, skipped result with the path and
    the size of that file; no page is opened or visited and nothing is
    fetched or saved. *)
Theorem skip_existing_file (c : nat) (id : string) (imageData : ImageData)
    (attempt : Z) (w w1 : World) (existing : ImageExistsResult) :
  imageExists env config id w = (Return existing, w1) ->
  file_exists existing = true ->
  exists r path bytes,
    attemptDownloadWithContext env config c id imageData attempt w = (Return r, w1) /\
    file_filepath existing = Some path /\ file_size existing = Some bytes /\
    success r = true /\ skipped r = Some true /\ photoId r = id /\
    filepath r = Some path /\ size r = Some bytes /\
    logged isPageWork w1 = logged isPageWork w.
Proof.
  intros Hex Hfile.
  destruct (returns_imageExists id w existing) as (path & bytes & Hp & Hb);
    [now rewrite Hex|exact Hfile|].
  eexists _, path, bytes. split.
  - unfold attemptDownloadWithContext. unfold bind at 1. rewrite Hex, Hfile.
    unfold basenameOf. rewrite Hp, Hb. reflexivity.
  - repeat split; try assumption; try reflexivity.
    pose proof (keeps_imageExists isPageWork id eq_refl w) as K.
    now rewrite Hex in K.
Qed.

(** C5, on the code.  On a photo whose file is reported as present the
    attempt of the concurrent service returns the skipped result without
    any metadata and without visiting the page of the photo, while the
    attempt of the sequential service, on the same photo and in the same
    state, visits that page to extract the metadata as soon as its page is
    available. *)
Theorem skip_without_metadata (c : nat) (id : string) (imageData : ImageData)
    (attempt : Z) (w w1 : World) (existing : ImageExistsResult) :
  imageExists env config id w = (Return existing, w1) ->
  file_exists existing = true ->
  manager_getPage env (tick w1) = Ok tt ->
  (exists r,
     attemptDownloadWithContext env config c id imageData attempt w = (Return r, w1) /\
     skipped r = Some true /\
     uploadDate r = None /\ availableSizes r = None /\ srcset r = None /\
     logged isExtract w1 = logged isExtract w) /\
  logged isExtract
    (snd (DownloadService.attemptDownload env config statsTracker id imageData attempt w)) =
  logged isExtract w ++ [EvExtractMetadata (vscoImageUrlOf id imageData)].
Proof.
  intros Hex Hfile Hpage.
  destruct (returns_imageExists id w existing) as (path & bytes & Hp & Hb);
    [now rewrite Hex|exact Hfile|].
  assert (K : logged isExtract w1 = logged isExtract w).
  { pose proof (keeps_imageExists isExtract id eq_refl w) as K.
    now rewrite Hex in K. }
  split.
  - eexists. split.
    + unfold attemptDownloadWithContext. unfold bind at 1. rewrite Hex, Hfile.
      unfold basenameOf. rewrite Hp. reflexivity.
    + repeat split; try reflexivity. exact K.
  - unfold DownloadService.attemptDownload. unfold bind at 1. rewrite Hex, Hfile.
    rewrite <- K.
    set (url := vscoImageUrlOf id imageData).
    match goal with
    | |- logged _ (snd (?m w1)) = ?l =>
        change (wp m (fun _ w' => logged isExtract w' = l) w1)
    end.
    apply wp_bind, wp_callStats. simpl.
    apply wp_tryCatch, wp_bind.
    unfold DownloadService.extractVscoImageMetadata.
    apply wp_bind, wp_await. simpl. rewrite Hpage.
    eapply wp_mono; [apply (logged_extractFromPage url (usernameOf id))|].
    simpl. intros r w3 H3. unfold basenameOf. rewrite Hp.
    destruct r; repeat (wp_step; simpl); exact H3.
Qed.


(** ** The retry loop *)

Lemma retryLoop_step fuel c id imageData r attempt lastError w :
  attempt <= r ->
  retryLoop env config (S fuel) c id imageData r attempt lastError w =
  match attemptDownloadWithContext env config c id imageData attempt
          (snd (emit (EvAttempt id attempt) w)) with
  | (Return res, w2) => (Return res, w2)
  | (Throw e, w2) =>
      retryLoop env config fuel c id imageData r (attempt + 1) (Some e)
        (if attempt <? r then snd (sleep Backoff (2 ^ attempt * 1000) w2) else w2)
  | (Pending, w2) => (Pending, w2)
  end.
Proof.
  intros Hle. simpl. destruct (Z.leb_spec attempt r) as [_|]; [|lia].
  unfold bind at 1. unfold tryCatch. unfold bind at 1. simpl.
  unfold bind at 1.
  destruct (attemptDownloadWithContext env config c id imageData attempt _)
    as [[res|e|] w2]; simpl; try reflexivity.
  destruct (attempt <? r); reflexivity.
Qed.

Lemma retryLoop_done fuel c id imageData r attempt lastError w :
  r < attempt ->
  retryLoop env config fuel c id imageData r attempt lastError w =
  (Return (failedResult id (lastErrorMessage lastError)
             (orString (image_author imageData) EmptyString)), w).
Proof.
  intros Hlt. destruct fuel; simpl; destruct (Z.leb_spec attempt r); try lia; reflexivity.
Qed.

Lemma logged_retry_attempt c id imageData attempt w :
  logged isRetryEvent
    (snd (attemptDownloadWithContext env config c id imageData attempt
            (snd (emit (EvAttempt id attempt) w)))) =
  logged isRetryEvent w ++ [EvAttempt id attempt].
Proof.
  rewrite keeps_attemptDownloadWithContext by reflexivity.
  apply (logged_emit isRetryEvent).
Qed.

Lemma retryLoop_run fuel c id imageData r attempt lastError w :
  1 <= attempt <= r -> Z.of_nat fuel = r - attempt + 1 ->
  exists (n : nat) (wl : World),
    attempt + Z.of_nat n <= r /\
    afterFailures env config c id imageData n attempt w = Some wl /\
    logged isRetryEvent (snd (retryLoop env config fuel c id imageData r attempt lastError w)) =
      logged isRetryEvent w ++ backoffTrace id n attempt
        ++ [EvAttempt id (attempt + Z.of_nat n)] /\
    endedBy (attemptFrom env config c id imageData (attempt + Z.of_nat n) wl)
            r (attempt + Z.of_nat n) id imageData
            (retryLoop env config fuel c id imageData r attempt lastError w).
Proof.
  revert attempt lastError w.
  induction fuel as [|fuel IH]; intros attempt lastError w Ha Hf; [lia|].
  rewrite retryLoop_step by lia.
  pose proof (logged_retry_attempt c id imageData attempt w) as Hlog.
  pose proof (settles_attemptDownloadWithContext c id imageData attempt
                (snd (emit (EvAttempt id attempt) w))) as Hset.
  fold (attemptFrom env config c id imageData attempt w) in *.
  destruct (attemptFrom env config c id imageData attempt w) as [[res|e|] w2] eqn:Hatt;
    simpl in Hlog, Hset; [| |congruence].
  - exists 0%nat, w.
    rewrite Z.add_0_r. split; [lia|]. split; [reflexivity|]. split.
    + simpl. exact Hlog.
    + rewrite Hatt. reflexivity.
  - destruct (Z.ltb_spec attempt r) as [Hlt|Hge].
    + destruct (IH (attempt + 1) (Some e) (snd (sleep Backoff (2 ^ attempt * 1000) w2)))
        as (n & wl & Hn & Hf' & Hl & He); [lia|lia|].
      exists (S n), wl.
      replace (attempt + Z.of_nat (S n)) with (attempt + 1 + Z.of_nat n) by lia.
      split; [lia|]. split; [simpl; rewrite Hatt; exact Hf'|]. split; [|exact He].
      rewrite Hl. unfold sleep. rewrite (logged_emit isRetryEvent). simpl.
      rewrite Hlog.
      rewrite <- !app_assoc. reflexivity.
    + assert (attempt = r) by lia. subst attempt.
      rewrite retryLoop_done by lia.
      exists 0%nat, w.
      rewrite Z.add_0_r. split; [lia|]. split; [reflexivity|]. split.
      * simpl. exact Hlog.
      * rewrite Hatt. split; reflexivity.
Qed.


Lemma returns_bind_with {S A B} (P : A -> Prop) (Q : B -> Prop)
    (m : M S A) (k : A -> M S B) :
  returns P m -> (forall a, P a -> returns Q (k a)) -> returns Q (bind m k).
Proof.
  intros Hm Hk s b. unfold bind. specialize (Hm s).
  destruct (m s) as [[a|e|] s1]; simpl in *; [|discriminate..].
  apply Hk, Hm. reflexivity.
Qed.

Lemma returns_retryLoop fuel c id imageData r attempt lastError :
  returns (fun res => photoId res = id)
    (retryLoop env config fuel c id imageData r attempt lastError).
Proof.
  revert attempt lastError.
  induction fuel as [|fuel IH]; intros attempt lastError; simpl;
    destruct (attempt <=? r); try apply returns_never;
    try (apply returns_ret; reflexivity).
  apply (returns_bind_with
           (fun tried => match tried with
                         | inl res => photoId res = id
                         | inr _ => True
                         end)).
  - apply returns_tryCatch.
    + apply returns_bind. intros _.
      apply (returns_bind_with (fun res => photoId res = id));
        [apply returns_attemptDownloadWithContext|].
      intros res Hres. apply returns_ret. exact Hres.
    + intros e. apply returns_bind. intros _. apply returns_ret. exact I.
  - intros [res|e] H; [apply returns_ret; exact H|apply IH].
Qed.

Lemma succeeds_retryLoop fuel c id imageData r attempt lastError :
  r - attempt + 1 <= Z.of_nat fuel ->
  succeeds (retryLoop env config fuel c id imageData r attempt lastError).
Proof.
  revert attempt lastError.
  induction fuel as [|fuel IH]; intros attempt lastError Hf; simpl;
    destruct (Z.leb_spec attempt r); try lia; try apply succeeds_ret.
  apply succeeds_bind.
  - apply succeeds_tryCatch.
    + apply settles_bind; [apply settles_emit|intros _].
      apply settles_bind; [apply settles_attemptDownloadWithContext|].
      intros res. apply settles_ret.
    + intros e. apply succeeds_bind; [|intros _; apply succeeds_ret].
      destruct (attempt <? r); [apply succeeds_modify|apply succeeds_ret].
  - intros [res|e]; [apply succeeds_ret|apply IH; lia].
Qed.

Lemma succeeds_downloadImageWithContext c id imageData :
  succeeds (downloadImageWithContext env config c id imageData).
Proof. unfold downloadImageWithContext. apply succeeds_retryLoop. lia. Qed.

Lemma returns_downloadImageWithContext c id imageData :
  returns (fun res => photoId res = id)
    (downloadImageWithContext env config c id imageData).
Proof. apply returns_retryLoop. Qed.

Section DownloadLog.
Variable keep : event -> bool.
Hypothesis keep_imageExists : forall p, keep (EvImageExists p) = false.
Hypothesis keep_closePage : keep EvClosePage = false.
Hypothesis keep_newPage : forall c, keep (EvNewPage c) = false.
Hypothesis keep_extract : forall u, keep (EvExtractMetadata u) = false.
Hypothesis keep_fetch : forall u, keep (EvFetchImage u) = false.
Hypothesis keep_save : forall p, keep (EvSaveImage p) = false.
Hypothesis keep_attempt : forall p a, keep (EvAttempt p a) = false.
Hypothesis keep_backoff : forall ms, keep (EvSleep Backoff ms) = false.

Lemma keeps_retryLoop fuel c id imageData r attempt lastError :
  keeps (logged keep) (retryLoop env config fuel c id imageData r attempt lastError).
Proof.
  revert attempt lastError.
  induction fuel as [|fuel IH]; intros attempt lastError; simpl;
    destruct (attempt <=? r); try apply keeps_never; try apply keeps_ret.
  apply keeps_bind.
  - apply keeps_tryCatch.
    + apply keeps_bind; [apply keeps_emit, keep_attempt|intros _].
      apply keeps_bind; [apply keeps_attemptDownloadWithContext; assumption|].
      intros res. apply keeps_ret.
    + intros e. apply keeps_bind; [|intros _; apply keeps_ret].
      destruct (attempt <? r); [apply keeps_emit, keep_backoff|apply keeps_ret].
  - intros [res|e]; [apply keeps_ret|apply IH].
Qed.

Lemma keeps_downloadImageWithContext c id imageData :
  keeps (logged keep) (downloadImageWithContext env config c id imageData).
Proof. apply keeps_retryLoop. Qed.

End DownloadLog.

Lemma validateConfig_retries :
  validateConfig config = Return tt -> 1 <= orNumber (retries config) 3.
Proof.
  unfold validateConfig, orNumber, truthyNumber, nullish.
  destruct (timeout config) as [t|]; destruct (retries config) as [r|]; simpl;
    repeat match goal with
           | |- context [?a =? ?b] => destruct (Z.eqb_spec a b); simpl
           | |- context [?a <=? ?b] => destruct (Z.leb_spec a b); simpl
           | |- context [?a <? ?b] => destruct (Z.ltb_spec a b); simpl
           end; intros; try discriminate; lia.
Qed.

Lemma lastErrorMessage_message m :
  m <> EmptyString -> lastErrorMessage (Some (ErrorObj m)) = m.
Proof.
  intros Hm. unfold lastErrorMessage, orString.
  destruct (String.eqb_spec m EmptyString); [contradiction|reflexivity].
Qed.

(** C4.  With [retries] the number the loop reads (the configured one, 3
    when it is absent or 0), [downloadImageWithContext] never throws and
    never hangs.  It makes some number [attempts] of attempts, between 1
    and [retries], numbered from 1.  Every attempt before the last threw
    and was followed by a sleep of [2^attempt * 1000] ms: [wl] is the
    state these failed attempts and their sleeps lead to.  The last
    attempt is made from [wl], and the call ends in the state that attempt
    leaves: with the result the attempt returned, so that the first
    attempt that returns ends the loop at once, or, the attempt being
    number [retries] and having thrown, with a failed result for the
    photo that carries the message of that last error (a fixed text when
    the thrown value has no message or an empty one).  When every attempt
    throws there are exactly [retries] attempts and the result is the
    failed one. *)
Theorem retry_with_backoff (c : nat) (id : string) (imageData : ImageData) (w : World) :
  validateConfig config = Return tt ->
  let r := orNumber (retries config) 3 in
  let out := downloadImageWithContext env config c id imageData w in
  exists (attempts : nat) (res : DownloadResult) (wl : World),
    1 <= Z.of_nat attempts <= r /\
    fst out = Return res /\
    afterFailures env config c id imageData (attempts - 1) 1 w = Some wl /\
    logged isRetryEvent (snd out) =
      logged isRetryEvent w ++ backoffTrace id (attempts - 1) 1
        ++ [EvAttempt id (Z.of_nat attempts)] /\
    (attemptFrom env config c id imageData (Z.of_nat attempts) wl
       = (Return res, snd out) \/
     exists e,
       attemptFrom env config c id imageData (Z.of_nat attempts) wl
         = (Throw e, snd out) /\
       Z.of_nat attempts = r /\
       res = failedResult id (lastErrorMessage (Some e))
               (orString (image_author imageData) EmptyString) /\
       (forall m, e = ErrorObj m -> m <> EmptyString -> error res = Some m)) /\
    ((forall a w', exists e,
         fst (attemptDownloadWithContext env config c id imageData a w') = Throw e) ->
     Z.of_nat attempts = r /\ success res = false).
Proof.
  intros Hv r out. pose proof (validateConfig_retries Hv) as Hr. fold r in Hr.
  destruct (retryLoop_run (Z.to_nat r) c id imageData r 1 None w)
    as (n & wl & Hn & Hfail & Hlog & Hend); [lia|lia|].
  change (retryLoop env config (Z.to_nat r) c id imageData r 1 None w) with out in *.
  clearbody out.
  exists (S n), (match fst out with Return res => res | _ => dryRunResult id id end), wl.
  replace (Z.of_nat (S n)) with (1 + Z.of_nat n) by lia.
  replace (S n - 1)%nat with n by lia.
  split; [lia|].
  unfold endedBy in Hend.
  destruct (attemptFrom env config c id imageData (1 + Z.of_nat n) wl)
    as [[res|e|] w'] eqn:Hatt; [| |contradiction].
  - subst out. simpl in *. split; [reflexivity|]. split; [exact Hfail|].
    split; [exact Hlog|].
    split; [left; reflexivity|].
    intros Hall. unfold attemptFrom in Hatt.
    destruct (Hall (1 + Z.of_nat n) (snd (emit (EvAttempt id (1 + Z.of_nat n)) wl)))
      as [e He].
    rewrite Hatt in He. discriminate.
  - destruct Hend as [Hlast Hout]. subst out. simpl in *.
    split; [reflexivity|]. split; [exact Hfail|]. split; [exact Hlog|].
    split.
    + right. exists e. repeat split; try assumption.
      intros m -> Hm. simpl. now rewrite lastErrorMessage_message.
    + intros _. split; [exact Hlast|reflexivity].
Qed.

End WithEnv.
End DownloadFacts.

(** * Facts about the task of one image *)

Module TaskFacts.
Import Effects EffectsFacts ConcurrentDownloadService BrowserPoolFacts DownloadFacts.

Section WithEnv.
Variable env : Env.
Variable config : ConfigOptions.

(** ** Computations in the frame of [downloadSingleImage] *)

Lemma wp_inFrame {A} (m : M World A) (Q : outcome A -> Frame -> Prop) (f : Frame) :
  wp m (fun r w' => Q r (fst f, w')) (snd f) -> wp (inFrame m) Q f.
Proof.
  unfold wp, inFrame. destruct (m (snd f)) as [r w']. exact id.
Qed.

Lemma settles_inFrame {A} (m : M World A) : settles m -> settles (inFrame m).
Proof.
  intros Hm f. unfold inFrame. specialize (Hm (snd f)).
  destruct (m (snd f)) as [r w']. exact Hm.
Qed.

Lemma succeeds_inFrame {A} (m : M World A) : succeeds m -> succeeds (inFrame m).
Proof.
  intros Hm f. unfold inFrame. destruct (Hm (snd f)) as [a Ha].
  destruct (m (snd f)) as [r w']. exists a. exact Ha.
Qed.

Lemma keeps_inFrame {A} keep (m : M World A) :
  keeps (logged keep) m -> keeps (framed keep) (inFrame m).
Proof.
  intros Hm f. unfold inFrame, framed. specialize (Hm (snd f)).
  destruct (m (snd f)) as [r w']. simpl in *. now rewrite Hm.
Qed.

Section Tracker.
Variable tracker : StatsTracker.

Lemma settles_countResult result : settles (countResult tracker result).
Proof.
  unfold countResult.
  destruct (_ && _); [|destruct (nullish _ _)];
    apply settles_inFrame, settles_callStats.
Qed.

Lemma keeps_countResult keep result : keeps (framed keep) (countResult tracker result).
Proof.
  unfold countResult.
  destruct (_ && _); [|destruct (nullish _ _)];
    apply keeps_inFrame, keeps_callStats.
Qed.

Lemma settles_catchBlock id imageData e : settles (catchBlock tracker id imageData e).
Proof.
  unfold catchBlock. apply settles_bind; [|intros _; apply settles_ret].
  apply settles_inFrame, settles_callStats.
Qed.

Lemma keeps_catchBlock keep id imageData e :
  keeps (framed keep) (catchBlock tracker id imageData e).
Proof.
  unfold catchBlock. apply keeps_bind; [|intros _; apply keeps_ret].
  apply keeps_inFrame, keeps_callStats.
Qed.

(** The [finally] block returns, after one call of [releaseContext] on the
    context the local variable holds, and none when it holds [null]. *)
Lemma wp_finallyBlock (f : Frame) :
  wp (finallyBlock env)
     (fun r f' =>
        r = Return tt /\
        logged isAnyRelease (snd f') =
          logged isAnyRelease (snd f) ++
          match fst f with
          | Some c => [EvReleaseContext c]
          | None => []
          end) f.
Proof.
  unfold finallyBlock. apply wp_bind, wp_gets. destruct (fst f) as [c|].
  - apply wp_tryCatch, wp_inFrame.
    pose proof (logged_releaseContext env isAnyRelease
                  (fun _ => eq_refl) (fun _ => eq_refl) (fun _ => eq_refl) eq_refl
                  c (snd f)) as Hlog.
    pose proof (settles_releaseContext env c (snd f)) as Hset.
    unfold wp. destruct (BrowserPool.releaseContext env c (snd f)) as [[[]|e|] w'];
      simpl in *; [split; [reflexivity|exact Hlog]| |congruence].
    split; [reflexivity|]. unfold logged in *. simpl.
    rewrite List.filter_app. simpl. rewrite app_nil_r. exact Hlog.
  - apply wp_ret. split; [reflexivity|]. now rewrite app_nil_r.
Qed.


Lemma settles_tryBlock id imageData : settles (tryBlock env config tracker id imageData).
Proof.
  unfold tryBlock.
  apply settles_bind; [apply settles_inFrame, settles_getContext|intros c].
  apply settles_bind; [apply settles_modify|intros _].
  apply settles_bind;
    [apply settles_inFrame, succeeds_settles, succeeds_downloadImageWithContext|].
  intros result. apply settles_bind; [apply settles_countResult|].
  intros _. apply settles_ret.
Qed.

(** What is left of the [try] block once the context is assigned. *)
Lemma keeps_afterAssign c id imageData :
  keeps (framed isAnyRelease)
    (result <- inFrame (downloadImageWithContext env config c id imageData) ;;
     countResult tracker result ;; ret result).
Proof.
  apply keeps_bind.
  - apply keeps_inFrame, keeps_downloadImageWithContext; reflexivity.
  - intros result. apply keeps_bind; [apply keeps_countResult|].
    intros _. apply keeps_ret.
Qed.

Lemma settles_afterAssign c id imageData :
  settles
    (result <- inFrame (downloadImageWithContext env config c id imageData) ;;
     countResult tracker result ;; ret result).
Proof.
  apply settles_bind;
    [apply settles_inFrame, succeeds_settles, succeeds_downloadImageWithContext|].
  intros result. apply settles_bind; [apply settles_countResult|].
  intros _. apply settles_ret.
Qed.

(** The end of a task: whatever the blocks before it produced, the
    [finally] block runs and the outcome stands. *)
Lemma wp_then_finally (r : outcome DownloadResult) (f : Frame) (l : list event) :
  r <> Pending ->
  logged isAnyRelease (snd f) ++
    match fst f with
    | Some c => [EvReleaseContext c]
    | None => []
    end = l ->
  wp (finallyBlock env)
     (fun rc f' =>
        match rc with
        | Return _ => r <> Pending /\ logged isAnyRelease (snd f') = l
        | Throw e => Throw (A:=DownloadResult) e <> Pending /\
                     logged isAnyRelease (snd f') = l
        | Pending => Pending (A:=DownloadResult) <> Pending /\
                     logged isAnyRelease (snd f') = l
        end) f.
Proof.
  intros Hr Hl. eapply wp_mono; [apply wp_finallyBlock|].
  simpl. intros rc f' [-> Hlog]. split; [exact Hr|]. now rewrite Hlog.
Qed.

Lemma wp_task id imageData w :
  wp (tryFinally
        (tryCatch (tryBlock env config tracker id imageData)
                  (catchBlock tracker id imageData))
        (finallyBlock env))
     (fun r f' =>
        r <> Pending /\
        logged isAnyRelease (snd f') =
          logged isAnyRelease w ++
          match fst (BrowserPool.getContext env w) with
          | Return c => [EvReleaseContext c]
          | _ => []
          end)
     (None, w).
Proof.
  apply wp_tryFinally, wp_tryCatch. unfold tryBlock.
  apply wp_bind, wp_inFrame. simpl.
  pose proof (keeps_getContext env isAnyRelease
                (fun _ => eq_refl) (fun _ => eq_refl) (fun _ => eq_refl) eq_refl w)
    as Hk.
  pose proof (settles_getContext env w) as Hs.
  unfold wp at 1.
  destruct (BrowserPool.getContext env w) as [[c|e|] w1]; simpl in *;
    [| |congruence].
  - apply wp_bind. unfold assignContext. apply wp_modify. simpl.
    apply (wp_keeps (framed isAnyRelease));
      [apply keeps_afterAssign|apply settles_afterAssign|].
    intros r f1 Hr Hf1. unfold framed in Hf1. simpl in Hf1.
    injection Hf1 as Hc Hl1.
    destruct r as [a|e|]; [| |congruence].
    + apply wp_then_finally; [discriminate|]. rewrite Hc, Hl1, Hk. reflexivity.
    + apply (wp_keeps (framed isAnyRelease));
        [apply keeps_catchBlock|apply settles_catchBlock|].
      intros r f2 Hr2 Hf2. unfold framed in Hf2. injection Hf2 as Hc2 Hl2.
      destruct r as [a|e'|]; [| |congruence];
        (apply wp_then_finally; [discriminate|]);
        rewrite Hc2, Hc, Hl2, Hl1, Hk; reflexivity.
  - apply (wp_keeps (framed isAnyRelease));
      [apply keeps_catchBlock|apply settles_catchBlock|].
    intros r f2 Hr2 Hf2. unfold framed in Hf2. simpl in Hf2.
    injection Hf2 as Hc2 Hl2.
    destruct r as [a|e'|]; [| |congruence];
      (apply wp_then_finally; [discriminate|]);
      rewrite Hc2, Hl2, Hk; reflexivity.
Qed.

(** C6.  In every run of [downloadSingleImage] the task produces its
    result or its exception, and by then [releaseContext] has been called
    exactly once, on the context [getContext] returned, when it returned
    one, and not at all when it threw; this holds for every tracker of
    statistics, also one whose operations throw, and whatever the attempts
    of the download do. *)
Theorem context_released_once (entry : ImageEntry) (currentIndex totalCount : Z)
    (w : World) :
  let out := downloadSingleImage env config tracker entry currentIndex totalCount w in
  fst out <> Pending /\
  logged isAnyRelease (snd out) =
    logged isAnyRelease w ++
    match fst (BrowserPool.getContext env w) with
    | Return c => [EvReleaseContext c]
    | _ => []
    end.
Proof.
  exact (wp_task (fst entry) (snd entry) w).
Qed.


(** Every result of a task is a result for the photo of its entry. *)
Lemma returns_inFrame {A} (Q : A -> Prop) (m : M World A) :
  returns Q m -> returns Q (inFrame m).
Proof.
  intros Hm f a. unfold inFrame. specialize (Hm (snd f) a).
  destruct (m (snd f)) as [r w']. exact Hm.
Qed.

Lemma returns_downloadSingleImage entry currentIndex totalCount :
  returns (fun r => photoId r = fst entry)
    (downloadSingleImage env config tracker entry currentIndex totalCount).
Proof.
  intros w a. unfold downloadSingleImage. simpl.
  match goal with
  | |- fst (?t ?f) = _ -> _ =>
      assert (K : returns (fun r => photoId r = fst entry) t); [|apply (K f a)]
  end.
  apply returns_tryFinally, returns_tryCatch.
  - unfold tryBlock. apply returns_bind. intros c. apply returns_bind. intros _.
    apply (returns_bind_with (fun r => photoId r = fst entry)).
    + apply returns_inFrame, returns_downloadImageWithContext.
    + intros r Hr. apply returns_bind. intros _. apply returns_ret. exact Hr.
  - intros e. unfold catchBlock. apply returns_bind. intros _.
    apply returns_ret. reflexivity.
Qed.

(** A task logs nothing but the events of the pool and of the attempts. *)
Section TaskLog.
Variable keep : event -> bool.
Hypothesis keep_newContext : forall c, keep (EvNewContext c) = false.
Hypothesis keep_closeContext : forall c, keep (EvCloseContext c) = false.
Hypothesis keep_warn : forall m, keep (EvWarn m) = false.
Hypothesis keep_getContext : keep EvGetContext = false.
Hypothesis keep_release : forall c, keep (EvReleaseContext c) = false.
Hypothesis keep_imageExists : forall p, keep (EvImageExists p) = false.
Hypothesis keep_closePage : keep EvClosePage = false.
Hypothesis keep_newPage : forall c, keep (EvNewPage c) = false.
Hypothesis keep_extract : forall u, keep (EvExtractMetadata u) = false.
Hypothesis keep_fetch : forall u, keep (EvFetchImage u) = false.
Hypothesis keep_save : forall p, keep (EvSaveImage p) = false.
Hypothesis keep_attempt : forall p a, keep (EvAttempt p a) = false.
Hypothesis keep_backoff : forall ms, keep (EvSleep Backoff ms) = false.

Lemma keeps_releaseContext c : keeps (logged keep) (BrowserPool.releaseContext env c).
Proof.
  intros w. rewrite logged_releaseContext by assumption.
  rewrite keep_release. apply app_nil_r.
Qed.

Lemma keeps_frame_log {A} (m : M Frame A) :
  keeps (framed keep) m -> keeps (fun f : Frame => logged keep (snd f)) m.
Proof.
  intros Hm f. specialize (Hm f). unfold framed in Hm. now injection Hm.
Qed.

Lemma keeps_downloadSingleImage entry currentIndex totalCount :
  keeps (logged keep)
    (downloadSingleImage env config tracker entry currentIndex totalCount).
Proof.
  intros w. unfold downloadSingleImage. simpl.
  match goal with
  | |- logged keep (snd (snd (?t _))) = _ =>
      assert (K : keeps (fun fr : Frame => logged keep (snd fr)) t)
  end.
  { apply keeps_tryFinally; [apply keeps_tryCatch|].
    - unfold tryBlock. apply keeps_bind;
        [apply keeps_frame_log, keeps_inFrame, keeps_getContext; assumption|intros c].
      apply keeps_bind.
      { intros f. reflexivity. }
      intros _. apply keeps_bind;
        [apply keeps_frame_log, keeps_inFrame, keeps_downloadImageWithContext;
         assumption|].
      intros r. apply keeps_bind; [apply keeps_frame_log, keeps_countResult|].
      intros _. apply keeps_ret.
    - intros e. apply keeps_frame_log, keeps_catchBlock.
    - unfold finallyBlock. apply keeps_bind; [apply keeps_gets|].
      intros [c|]; [|apply keeps_ret].
      apply keeps_tryCatch;
        [apply keeps_frame_log, keeps_inFrame, keeps_releaseContext|].
      intros e. apply keeps_frame_log, keeps_inFrame, keeps_emit, keep_warn. }
  apply (K (None, w)).
Qed.

End TaskLog.

End Tracker.

(** ** Tasks with the tracker of the repository *)

Lemma succeeds_statsTracker_failed :
  succeeds (callStats (incrementFailed statsTracker)).
Proof. intros w. exists tt. reflexivity. Qed.

Lemma succeeds_finallyBlock : succeeds (finallyBlock env).
Proof.
  intros f. pose proof (wp_finallyBlock f) as [H _]. exists tt. exact H.
Qed.

Lemma succeeds_downloadSingleImage entry currentIndex totalCount :
  succeeds (downloadSingleImage env config statsTracker entry currentIndex totalCount).
Proof.
  intros w. unfold downloadSingleImage. simpl.
  match goal with
  | |- exists a, fst (?t ?f) = _ => assert (K : succeeds t)
  end.
  { apply succeeds_tryFinally; [|apply succeeds_finallyBlock].
    apply succeeds_tryCatch; [apply settles_tryBlock|].
    intros e. unfold catchBlock. apply succeeds_bind; [|intros _; apply succeeds_ret].
    apply succeeds_inFrame, succeeds_statsTracker_failed. }
  apply K.
Qed.

(** An exception of [getContext] ends in the [catch] block. *)
Lemma downloadSingleImage_no_context entry currentIndex totalCount w e :
  fst (BrowserPool.getContext env w) = Throw e ->
  fst (downloadSingleImage env config statsTracker entry currentIndex totalCount w) =
  Return (failedResult (fst entry) (messageOr "Unknown error" e)
            (orString (image_author (snd entry)) EmptyString)).
Proof.
  intros Hg. unfold downloadSingleImage. simpl.
  unfold tryFinally, tryCatch, tryBlock. unfold bind at 1. unfold inFrame at 1. simpl.
  destruct (BrowserPool.getContext env w) as [r w1]. simpl in Hg. subst r.
  reflexivity.
Qed.

(** The two exceptions of [getContext]. *)
Lemma getContext_uninitialized w :
  browser (pool w) = false ->
  fst (BrowserPool.getContext env w) =
  Throw (ErrorObj "Browser pool not initialized. Call initialize() first.").
Proof.
  intros Hb. unfold BrowserPool.getContext, bind, emit, modify, gets. simpl.
  rewrite Hb. reflexivity.
Qed.

Lemma filter_none {A} (f : A -> bool) (l : list A) :
  (forall x, In x l -> f x = false) -> List.filter f l = [].
Proof.
  induction l as [|x l IH]; intros H; simpl; [reflexivity|].
  rewrite (H x) by (left; reflexivity). apply IH. intros y Hy. apply H. now right.
Qed.

Lemma find_none {A} (f : A -> bool) (l : list A) :
  (forall x, In x l -> f x = false) -> List.find f l = None.
Proof.
  induction l as [|x l IH]; intros H; simpl; [reflexivity|].
  rewrite (H x) by (left; reflexivity). apply IH. intros y Hy. apply H. now right.
Qed.

Lemma getContext_exhausted w :
  browser (pool w) = true ->
  (forall pc, In pc (contextPool (pool w)) -> inUse pc = true) ->
  maxPoolSize (pool w) <= Z.of_nat (length (contextPool (pool w))) ->
  fst (BrowserPool.getContext env w) =
  Throw (ErrorObj "No browser contexts available and pool is at capacity").
Proof.
  intros Hb Hall Hfull.
  assert (Havail : forall pc, In pc (contextPool (pool w)) ->
                              BrowserPool.available pc = false).
  { intros pc Hpc. unfold BrowserPool.available. now rewrite (Hall pc Hpc). }
  unfold BrowserPool.getContext, BrowserPool.cleanupStaleContexts.
  unfold bind, emit, modify, gets, ask, nextTick, ret. simpl. rewrite Hb. simpl.
  rewrite filter_none.
  2: { intros pc Hpc. now rewrite (Hall pc Hpc). }
  simpl. rewrite find_none by exact Havail.
  destruct (Z.ltb_spec (Z.of_nat (length (contextPool (pool w)))) (maxPoolSize (pool w)));
    [lia|].
  simpl. rewrite filter_none by exact Havail. reflexivity.
Qed.

(** ** A task begins with one call of [getContext] *)

Lemma task_getContext w :
  logged isBatchOrTask (snd (BrowserPool.getContext env w)) =
  logged isBatchOrTask w ++ [EvGetContext].
Proof.
  unfold BrowserPool.getContext. unfold bind at 1.
  destruct (emit EvGetContext w) as [[[]|e|] w1] eqn:E; try discriminate.
  assert (Hw1 : logged isBatchOrTask w1 = logged isBatchOrTask w ++ [EvGetContext]).
  { pose proof (logged_emit isBatchOrTask EvGetContext w) as H. rewrite E in H. exact H. }
  rewrite <- Hw1.
  match goal with
  | |- logged _ (snd (?m w1)) = _ => assert (K : keeps (logged isBatchOrTask) m)
  end.
  { keeps_tac; apply keeps_emit; auto. }
  apply K.
Qed.

Lemma task_log tracker entry currentIndex totalCount w :
  logged isBatchOrTask
    (snd (downloadSingleImage env config tracker entry currentIndex totalCount w)) =
  logged isBatchOrTask w ++ [EvGetContext].
Proof.
  unfold downloadSingleImage. simpl.
  match goal with
  | |- logged _ (snd (snd (?t _))) = _ =>
      assert (K : forall fr : Frame,
                 logged isBatchOrTask (snd (snd (t fr))) =
                 logged isBatchOrTask (snd fr) ++ [EvGetContext])
  end.
  { apply (appends_tryFinally (fun fr : Frame => logged isBatchOrTask (snd fr))).
    - apply (appends_tryCatch (fun fr : Frame => logged isBatchOrTask (snd fr))).
      + unfold tryBlock.
        apply (appends_bind (fun fr : Frame => logged isBatchOrTask (snd fr))).
        * intros fr. unfold inFrame.
          pose proof (task_getContext (snd fr)) as H.
          destruct (BrowserPool.getContext env (snd fr)) as [r w']. exact H.
        * intros c. apply keeps_bind; [intros f; reflexivity|].
          intros _. apply keeps_bind;
            [apply keeps_frame_log, keeps_inFrame, keeps_downloadImageWithContext;
             reflexivity|].
          intros r. apply keeps_bind; [apply keeps_frame_log, keeps_countResult|].
          intros _. apply keeps_ret.
      + intros e. apply keeps_frame_log, keeps_catchBlock.
    - unfold finallyBlock. apply keeps_bind; [apply keeps_gets|].
      intros [c|]; [|apply keeps_ret].
      apply keeps_tryCatch;
        [apply keeps_frame_log, keeps_inFrame, keeps_releaseContext; reflexivity|].
      intros e. apply keeps_frame_log, keeps_inFrame, keeps_emit. reflexivity. }
  apply (K (None, w)).
Qed.

End WithEnv.
End TaskFacts.

(** * Facts about batches *)

Module BatchFacts.
Import Effects EffectsFacts ConcurrentDownloadService SemaphoreFacts DownloadFacts TaskFacts.
Import Semaphore.

(** ** The semaphore of a batch *)

Lemma finish_calls id ok s : calls (finish id ok s) = calls s.
Proof. unfold finish. simpl. destruct (queue (sem s)); reflexivity. Qed.

Lemma finish_maxConcurrent id ok s :
  maxConcurrent (sem (finish id ok s)) = maxConcurrent (sem s).
Proof. unfold finish. simpl. destruct (queue (sem s)); reflexivity. Qed.

Lemma finish_started id ok s :
  started (finish id ok s) =
  started s ++ match queue (sem s) with [] => [] | next :: _ => [next] end.
Proof. unfold finish. simpl. destruct (queue (sem s)); simpl; [now rewrite app_nil_r|reflexivity]. Qed.

Lemma finish_running id ok s :
  running (finish id ok s) =
  removeId id (running s) ++ match queue (sem s) with [] => [] | next :: _ => [next] end.
Proof. unfold finish. simpl. destruct (queue (sem s)); simpl; [now rewrite app_nil_r|reflexivity]. Qed.

Lemma finish_queue id ok s : queue (sem (finish id ok s)) = tail (queue (sem s)).
Proof. unfold finish. simpl. destruct (queue (sem s)); reflexivity. Qed.

Lemma finish_measure id ok s :
  id ∈ running s ->
  S (length (running (finish id ok s)) + length (queue (sem (finish id ok s)))) =
  (length (running s) + length (queue (sem s)))%nat.
Proof.
  intros Hin. rewrite finish_running, finish_queue, length_app, removeId_length by exact Hin.
  assert (0 < length (running s))%nat by (destruct (running s); [inversion Hin|simpl; lia]).
  destruct (queue (sem s)); simpl; lia.
Qed.

Lemma removeId_other id x l : x <> id -> x ∈ l -> x ∈ removeId id l.
Proof.
  intros Hne. induction l as [|y l IH]; simpl; [tauto|].
  intros Hin. destruct (Nat.eqb_spec y id) as [->|Hy].
  - apply elem_of_cons in Hin as [->|Hin]; [contradiction|exact Hin].
  - apply elem_of_cons in Hin as [->|Hin]; apply elem_of_cons; auto.
Qed.

(** After the [acquire] calls of [processBatch] and before any task
    settles, the tasks in flight are the tasks started. *)
Lemma acquires_running (n : nat) s :
  running s = started s ->
  running (run (replicate n Acquire) s) = started (run (replicate n Acquire) s).
Proof.
  revert s. induction n as [|n IH]; intros s H; simpl; [exact H|].
  apply IH. unfold acquire. simpl.
  destruct (currentCount (sem s) <? maxConcurrent (sem s)); simpl; [now rewrite H|exact H].
Qed.

Lemma acquires_calls (n : nat) s :
  length (calls (run (replicate n Acquire) s)) = (length (calls s) + n)%nat.
Proof.
  revert s. induction n as [|n IH]; intros s; simpl; [lia|].
  rewrite IH. unfold acquire. simpl.
  destruct (currentCount (sem s) <? maxConcurrent (sem s)); simpl;
    rewrite length_app; simpl; lia.
Qed.

Lemma map_const_replicate {A B} (b : B) (l : list A) :
  map (fun _ => b) l = replicate (length l) b.
Proof. induction l as [|x l IH]; simpl; [reflexivity|now rewrite IH]. Qed.


(** ** The promises of a batch *)

Lemma started_lt batch s slots i :
  joined batch s slots -> i ∈ started s -> (i < length batch)%nat.
Proof.
  intros J Hi. pose proof (joined_wf _ _ _ J) as W.
  rewrite (wf_started s W) in Hi. apply elem_of_seq in Hi.
  pose proof (wf_total s W). pose proof (joined_calls _ _ _ J). lia.
Qed.

Lemma head_of_queue s next rest :
  wf s -> queue (sem s) = next :: rest -> next = length (started s).
Proof.
  intros W Hq. pose proof (wf_queue s W) as Q. rewrite Hq in Q. simpl in Q.
  now injection Q.
Qed.

Lemma joined_finish batch s slots id r entry :
  joined batch s slots -> id ∈ running s ->
  batch !! id = Some entry -> photoId r = fst entry ->
  joined batch (finish id true s) (<[id := Some r]> slots).
Proof.
  intros J Hin Hentry Hid. pose proof (joined_wf _ _ _ J) as W.
  assert (Hlt : (id < length batch)%nat) by (eapply lookup_lt_Some; eassumption).
  assert (Hstarted : id ∈ started s) by (apply (wf_running s W), Hin).
  constructor.
  - apply wf_finish; assumption.
  - rewrite finish_calls. apply (joined_calls _ _ _ J).
  - rewrite length_insert. apply (joined_slots _ _ _ J).
  - rewrite finish_maxConcurrent. apply (joined_room _ _ _ J).
  - intros i Hi. rewrite finish_started, finish_running.
    destruct (decide (i = id)) as [->|Hne].
    + rewrite list_lookup_insert_eq by (rewrite (joined_slots _ _ _ J); exact Hlt).
      split; [intros _|intros _; discriminate]. split.
      * apply elem_of_app. now left.
      * intros Hx. apply elem_of_app in Hx as [Hx|Hx].
        { revert Hx. apply removeId_gone, (wf_nodup s W). }
        destruct (queue (sem s)) as [|next rest] eqn:Hq; [inversion Hx|].
        apply list_elem_of_singleton in Hx. subst id.
        apply (wf_fresh s next W); [|exact Hin].
        rewrite (head_of_queue s next rest W Hq). lia.
    + rewrite list_lookup_insert_ne by congruence.
      rewrite (joined_filled _ _ _ J i Hi). split.
      * intros [Hs Hr]. split; [apply elem_of_app; now left|].
        intros Hx. apply elem_of_app in Hx as [Hx|Hx].
        { apply Hr. eapply removeId_subset, Hx. }
        destruct (queue (sem s)) as [|next rest] eqn:Hq; [inversion Hx|].
        apply list_elem_of_singleton in Hx. subst i.
        rewrite (wf_started s W) in Hs. apply elem_of_seq in Hs.
        rewrite (head_of_queue s next rest W Hq) in Hs. lia.
      * intros [Hs Hr].
        assert (Hs' : i ∈ started s).
        { apply elem_of_app in Hs as [Hs|Hs]; [exact Hs|].
          exfalso. apply Hr. apply elem_of_app. now right. }
        split; [exact Hs'|].
        intros Hx. apply Hr. apply elem_of_app. left.
        apply removeId_other; assumption.
  - intros i r' entry' Hslot Hentry'.
    destruct (decide (i = id)) as [->|Hne].
    + rewrite list_lookup_insert_eq in Hslot
        by (rewrite (joined_slots _ _ _ J); exact Hlt).
      injection Hslot as <-. rewrite Hentry in Hentry'. injection Hentry' as <-.
      exact Hid.
    + rewrite list_lookup_insert_ne in Hslot by congruence.
      eapply (joined_ids _ _ _ J); eassumption.
Qed.

(** With no task in flight nothing waits either, and every slot is
    filled. *)
Lemma joined_idle batch s slots :
  joined batch s slots -> running s = [] ->
  forall i, (i < length batch)%nat -> exists r, slots !! i = Some (Some r).
Proof.
  intros J Hrun i Hi. pose proof (joined_wf _ _ _ J) as W.
  assert (Hq : queue (sem s) = []).
  { destruct (queue (sem s)) eqn:Hq; [reflexivity|exfalso].
    pose proof (wf_full s W) as F. rewrite Hq in F.
    assert (maxConcurrent (sem s) <= currentCount (sem s)) by (apply F; congruence).
    rewrite (wf_count s W), Hrun in H. simpl in H.
    destruct (joined_room _ _ _ J) as [->|Hroom]; [simpl in Hi; lia|lia]. }
  assert (Hfilled : slots !! i <> Some None).
  { apply (joined_filled _ _ _ J i Hi). rewrite Hrun. split; [|inversion 1].
    rewrite (wf_started s W). apply elem_of_seq.
    pose proof (wf_total s W) as T. rewrite Hq in T. simpl in T.
    pose proof (joined_calls _ _ _ J). lia. }
  destruct (slots !! i) as [[r|]|] eqn:E.
  - now exists r.
  - congruence.
  - apply lookup_ge_None in E. rewrite (joined_slots _ _ _ J) in E. lia.
Qed.

Section WithEnv.
Variable env : Env.
Variable config : ConfigOptions.

Lemma settleLoop_step (tracker : StatsTracker) fuel batch startIndex endIndex s
    slots rejection w first rest :
  running s = first :: rest ->
  settleLoop env config tracker (S fuel) batch startIndex endIndex s slots rejection w =
  let id := nullish (running s !! (settles_next env (tick w) mod length (running s))%nat)
                    first in
  match batch !! id with
  | None => (Return (slots, rejection), ticked w)
  | Some entry =>
      match downloadSingleImage env config tracker entry
              (startIndex + Z.of_nat id + 1) endIndex (ticked w) with
      | (Return r, w') =>
          settleLoop env config tracker fuel batch startIndex endIndex
            (finish id true s) (<[id := Some r]> slots) rejection w'
      | (Throw e, w') =>
          settleLoop env config tracker fuel batch startIndex endIndex
            (finish id false s) slots (Some (nullish rejection e)) w'
      | (Pending, w') => (Pending, w')
      end
  end.
Proof.
  intros Hrun. cbn [settleLoop]. rewrite Hrun. unfold bind at 1.
  cbn [ask bind nextTick ret fst snd]. rewrite <- Hrun.
  destruct (batch !! _); reflexivity.
Qed.

Lemma settleLoop_run fuel batch startIndex endIndex s slots w :
  joined batch s slots ->
  (length (running s) + length (queue (sem s)) <= fuel)%nat ->
  exists slots' w',
    settleLoop env config statsTracker fuel batch startIndex endIndex s slots None w
      = (Return (slots', None), w') /\
    length slots' = length batch /\
    (forall i, (i < length batch)%nat -> exists r, slots' !! i = Some (Some r)) /\
    (forall i r entry, slots' !! i = Some (Some r) -> batch !! i = Some entry ->
                       photoId r = fst entry).
Proof.
  revert s slots w. induction fuel as [|fuel IH]; intros s slots w J Hfuel.
  - exists slots, w. split; [reflexivity|]. split; [apply (joined_slots _ _ _ J)|].
    split; [|apply (joined_ids _ _ _ J)].
    apply (joined_idle _ _ _ J). destruct (running s); [reflexivity|simpl in Hfuel; lia].
  - destruct (running s) as [|first rest] eqn:Hrun.
    + exists slots, w. split; [simpl; now rewrite Hrun|].
      split; [apply (joined_slots _ _ _ J)|].
      split; [|apply (joined_ids _ _ _ J)]. apply (joined_idle _ _ _ J Hrun).
    + rewrite (settleLoop_step statsTracker fuel batch startIndex endIndex s slots
                 None w first rest Hrun).
      set (id := nullish (running s !! (settles_next env (tick w) mod length (running s))%nat)
                         first).
      assert (Hin : id ∈ running s).
      { subst id.
        destruct (running s !! (settles_next env (tick w) mod length (running s))%nat)
          as [x|] eqn:E; simpl.
        - eapply list_elem_of_lookup_2, E.
        - rewrite Hrun. apply elem_of_cons. now left. }
      assert (Hlt : (id < length batch)%nat).
      { eapply started_lt; [exact J|]. apply (wf_running s (joined_wf _ _ _ J)), Hin. }
      destruct (lookup_lt_is_Some_2 batch id Hlt) as [entry Hentry].
      cbv zeta. rewrite Hentry.
      destruct (succeeds_downloadSingleImage env config entry
                  (startIndex + Z.of_nat id + 1) endIndex (ticked w)) as [r Hr].
      pose proof (returns_downloadSingleImage env config statsTracker entry
                    (startIndex + Z.of_nat id + 1) endIndex (ticked w) r Hr) as Hid.
      destruct (downloadSingleImage env config statsTracker entry
                  (startIndex + Z.of_nat id + 1) endIndex (ticked w)) as [o w1].
      simpl in Hr. subst o.
      apply IH.
      * eapply joined_finish; eassumption.
      * pose proof (finish_measure id true s Hin) as Hm. rewrite Hrun in Hm.
        simpl in Hm, Hfuel. lia.
Qed.


Lemma allFulfilled_filled {A} (slots : list (option A)) :
  (forall i, (i < length slots)%nat -> exists r, slots !! i = Some (Some r)) ->
  exists results, allFulfilled slots = Some results /\ slots = map Some results.
Proof.
  induction slots as [|slot slots IH]; intros H; simpl.
  - exists []. split; reflexivity.
  - destruct (H 0%nat) as [r Hr]; [simpl; lia|]. simpl in Hr. injection Hr as ->.
    destruct IH as (results & Hall & Hmap).
    { intros i Hi. apply (H (S i)). simpl. lia. }
    exists (r :: results). rewrite Hall, Hmap at 1. split; reflexivity.
Qed.

Lemma joined_initially batch (k : Z) :
  (batch = [] \/ 1 <= k) ->
  joined batch (run (map (fun _ => Acquire) batch) (init k))
         (replicate (length batch) None).
Proof.
  intros Hroom. rewrite map_const_replicate.
  set (s := run _ _).
  assert (W : wf s) by apply wf_run, wf_init.
  assert (R : running s = started s) by (apply acquires_running; reflexivity).
  constructor.
  - exact W.
  - unfold s. rewrite acquires_calls. reflexivity.
  - apply length_replicate.
  - unfold s. rewrite maxConcurrent_run. exact Hroom.
  - intros i Hi. rewrite lookup_replicate_2 by exact Hi. rewrite R. split.
    + congruence.
    + intros [H1 H2]. contradiction.
  - intros i r entry Hslot. apply lookup_replicate in Hslot as [Hslot _]. discriminate.
Qed.

(** A batch with room for a task ends with one result per entry, each for
    the photo of its entry, in the order of the entries, whatever the order
    in which the tasks finish. *)
Lemma processBatch_run batch startIndex endIndex w :
  1 <= orNumber (maxConcurrency config) 3 ->
  exists results w',
    processBatch env config statsTracker batch startIndex endIndex w
      = (Return results, w') /\
    map photoId results = map fst batch.
Proof.
  intros Hmax. unfold processBatch.
  set (k := Z.min _ _).
  assert (J : joined batch (run (map (fun _ => Acquire) batch) (init k))
                (replicate (length batch) None)).
  { apply joined_initially. destruct batch; [now left|right].
    subst k. simpl length. lia. }
  destruct (settleLoop_run (length batch) batch startIndex endIndex _ _ w J)
    as (slots & w' & Hloop & Hlen & Hfilled & Hids).
  { pose proof (joined_wf _ _ _ J) as W.
    pose proof (wf_total _ W) as T. pose proof (joined_calls _ _ _ J) as C.
    revert T C. rewrite map_const_replicate.
    rewrite (acquires_running (length batch) (init k) eq_refl). lia. }
  destruct (allFulfilled_filled slots) as (results & Hall & Hmap).
  { intros i Hi. apply Hfilled. lia. }
  exists results, w'. unfold bind. rewrite Hloop. simpl. rewrite Hall. split; [reflexivity|].
  apply list_eq. intros i. rewrite !list_lookup_fmap. unfold ImageEntry in *.
  destruct (batch !! i) as [entry|] eqn:Hentry; simpl.
  - destruct (Hfilled i) as [r Hr]; [eapply lookup_lt_Some; eassumption|].
    assert (Hri : results !! i = Some r).
    { rewrite Hmap, list_lookup_fmap in Hr.
      destruct (results !! i); simpl in Hr; congruence. }
    rewrite Hri, ?Hentry. simpl. f_equal. eapply Hids; eassumption.
  - assert (length results = length batch).
    { rewrite <- Hlen, Hmap. now rewrite length_map. }
    rewrite ?Hentry. apply lookup_ge_None in Hentry.
    rewrite (lookup_ge_None_2 results i) by lia. reflexivity.
Qed.


(** ** The tasks of a batch in the log *)

Lemma joined_quiet batch s slots :
  joined batch s slots -> running s = [] -> queue (sem s) = [].
Proof.
  intros J R. pose proof (joined_wf _ _ _ J) as W.
  destruct (queue (sem s)) as [|x q] eqn:Q; [reflexivity|exfalso].
  assert (Hne : queue (sem s) <> []) by (rewrite Q; discriminate).
  pose proof (wf_full s W Hne) as F. rewrite (wf_count s W), R in F. simpl in F.
  destruct (joined_room _ _ _ J) as [->|Hroom]; [|lia].
  pose proof (joined_calls _ _ _ J) as C. pose proof (wf_total s W) as T.
  rewrite Q in T. simpl in *. lia.
Qed.

Lemma settleLoop_log fuel batch startIndex endIndex s slots w :
  joined batch s slots ->
  (length (running s) + length (queue (sem s)) <= fuel)%nat ->
  logged isBatchOrTask
    (snd (settleLoop env config statsTracker fuel batch startIndex endIndex s slots
            None w)) =
  logged isBatchOrTask w ++
  replicate (length (running s) + length (queue (sem s))) EvGetContext.
Proof.
  revert s slots w. induction fuel as [|fuel IH]; intros s slots w J Hfuel.
  - replace (length (running s) + length (queue (sem s)))%nat with 0%nat by lia.
    simpl. now rewrite app_nil_r.
  - destruct (running s) as [|first rest] eqn:Hrun.
    + rewrite (joined_quiet _ _ _ J Hrun). simpl. rewrite Hrun. simpl.
      now rewrite app_nil_r.
    + rewrite (settleLoop_step statsTracker fuel batch startIndex endIndex
                 s slots None w first rest Hrun).
      set (id := nullish (running s !! (settles_next env (tick w) mod length (running s))%nat)
                         first).
      assert (Hin : id ∈ running s).
      { subst id.
        destruct (running s !! (settles_next env (tick w) mod length (running s))%nat)
          as [x|] eqn:E; simpl.
        - eapply list_elem_of_lookup_2, E.
        - rewrite Hrun. apply elem_of_cons. now left. }
      assert (Hlt : (id < length batch)%nat).
      { eapply started_lt; [exact J|]. apply (wf_running s (joined_wf _ _ _ J)), Hin. }
      destruct (lookup_lt_is_Some_2 batch id Hlt) as [entry Hentry].
      cbv zeta. rewrite Hentry.
      destruct (succeeds_downloadSingleImage env config entry
                  (startIndex + Z.of_nat id + 1) endIndex (ticked w)) as [r Hr].
      pose proof (returns_downloadSingleImage env config statsTracker entry
                    (startIndex + Z.of_nat id + 1) endIndex (ticked w) r Hr) as Hid.
      pose proof (task_log env config statsTracker entry (startIndex + Z.of_nat id + 1) endIndex
                    (ticked w)) as Hlog.
      destruct (downloadSingleImage env config statsTracker entry
                  (startIndex + Z.of_nat id + 1) endIndex (ticked w)) as [o w1].
      simpl in Hr, Hlog. subst o.
      pose proof (finish_measure id true s Hin) as Hm. rewrite Hrun in Hm.
      rewrite IH.
      * rewrite Hlog. change (logged isBatchOrTask (ticked w)) with (logged isBatchOrTask w).
        rewrite <- Hm. simpl. rewrite <- app_assoc. reflexivity.
      * eapply joined_finish; eassumption.
      * simpl in Hm, Hfuel. lia.
Qed.

Lemma processBatch_log batch startIndex endIndex w :
  1 <= orNumber (maxConcurrency config) 3 ->
  logged isBatchOrTask
    (snd (processBatch env config statsTracker batch startIndex endIndex w)) =
  logged isBatchOrTask w ++ replicate (length batch) EvGetContext.
Proof.
  intros Hmax. unfold processBatch.
  set (k := Z.min _ _).
  assert (J : joined batch (run (map (fun _ => Acquire) batch) (init k))
                (replicate (length batch) None)).
  { apply joined_initially. destruct batch; [now left|right].
    subst k. simpl length. lia. }
  assert (Hn : (length (running (run (map (fun _ => Acquire) batch) (init k))) +
                length (queue (sem (run (map (fun _ => Acquire) batch) (init k)))))%nat
               = length batch).
  { pose proof (joined_wf _ _ _ J) as W.
    pose proof (wf_total _ W) as T. pose proof (joined_calls _ _ _ J) as C.
    revert T C. rewrite map_const_replicate.
    rewrite (acquires_running (length batch) (init k) eq_refl). lia. }
  pose proof (settleLoop_log (length batch) batch startIndex endIndex _ _ w J) as Hlog.
  rewrite Hn in Hlog. specialize (Hlog (Nat.le_refl _)).
  unfold bind.
  destruct (settleLoop env config statsTracker (length batch) batch startIndex endIndex
              (run (map (fun _ => Acquire) batch) (init k))
              (replicate (length batch) None) None w) as [[[slots rej]|e|] w1];
    simpl in *; try exact Hlog.
  destruct rej; [exact Hlog|]. destruct (allFulfilled slots); exact Hlog.
Qed.

(** Whatever the capacity of the semaphore, no promise of a batch is
    rejected. *)
Lemma settleLoop_no_rejection fuel batch startIndex endIndex s slots w :
  exists slots' w',
    settleLoop env config statsTracker fuel batch startIndex endIndex s slots None w
      = (Return (slots', None), w').
Proof.
  revert s slots w. induction fuel as [|fuel IH]; intros s slots w.
  - eexists _, _. reflexivity.
  - destruct (running s) as [|first rest] eqn:Hrun.
    + eexists _, _. simpl. rewrite Hrun. reflexivity.
    + rewrite (settleLoop_step statsTracker fuel batch startIndex endIndex s slots
                 None w first rest Hrun).
      cbv zeta. destruct (batch !! _) as [entry|]; [|eexists _, _; reflexivity].
      match goal with
      | |- context [downloadSingleImage env config statsTracker entry ?i ?n ?w0] =>
          destruct (succeeds_downloadSingleImage env config entry i n w0) as [r Hr];
          destruct (downloadSingleImage env config statsTracker entry i n w0) as [o w1]
      end.
      simpl in Hr. subst o. apply IH.
Qed.

Lemma processBatch_never_throws batch startIndex endIndex w e :
  fst (processBatch env config statsTracker batch startIndex endIndex w) <> Throw e.
Proof.
  unfold processBatch.
  destruct (settleLoop_no_rejection (length batch) batch startIndex endIndex
              (run (map (fun _ => Acquire) batch)
                 (init (Z.min (Z.of_nat (length batch))
                               (orNumber (maxConcurrency config) 3))))
              (replicate (length batch) None) w) as (slots & w' & Hloop).
  unfold bind. rewrite Hloop. simpl.
  destruct (allFulfilled slots); discriminate.
Qed.

Section BatchLog.
Variable keep : event -> bool.
Hypothesis keep_newContext : forall c, keep (EvNewContext c) = false.
Hypothesis keep_closeContext : forall c, keep (EvCloseContext c) = false.
Hypothesis keep_warn : forall m, keep (EvWarn m) = false.
Hypothesis keep_getContext : keep EvGetContext = false.
Hypothesis keep_release : forall c, keep (EvReleaseContext c) = false.
Hypothesis keep_imageExists : forall p, keep (EvImageExists p) = false.
Hypothesis keep_closePage : keep EvClosePage = false.
Hypothesis keep_newPage : forall c, keep (EvNewPage c) = false.
Hypothesis keep_extract : forall u, keep (EvExtractMetadata u) = false.
Hypothesis keep_fetch : forall u, keep (EvFetchImage u) = false.
Hypothesis keep_save : forall p, keep (EvSaveImage p) = false.
Hypothesis keep_attempt : forall p a, keep (EvAttempt p a) = false.
Hypothesis keep_backoff : forall ms, keep (EvSleep Backoff ms) = false.

Lemma keeps_settleLoop tracker fuel batch startIndex endIndex s slots rejection :
  keeps (logged keep)
    (settleLoop env config tracker fuel batch startIndex endIndex s slots rejection).
Proof.
  revert s slots rejection. induction fuel as [|fuel IH]; intros s slots rejection w.
  - reflexivity.
  - destruct (running s) as [|first rest] eqn:Hrun.
    + simpl. rewrite Hrun. reflexivity.
    + rewrite (settleLoop_step tracker fuel batch startIndex endIndex s slots
                 rejection w first rest Hrun).
      cbv zeta. destruct (batch !! _) as [entry|]; [|reflexivity].
      match goal with
      | |- context [downloadSingleImage env config tracker entry ?i ?n ?w0] =>
          pose proof (keeps_downloadSingleImage env config tracker keep
                        keep_newContext keep_closeContext keep_warn keep_getContext
                        keep_release keep_imageExists keep_closePage keep_newPage
                        keep_extract keep_fetch keep_save keep_attempt keep_backoff
                        entry i n w0) as Hk;
          destruct (downloadSingleImage env config tracker entry i n w0) as [o w1]
      end.
      simpl in Hk. change (logged keep (ticked w)) with (logged keep w) in Hk.
      destruct o; [rewrite IH; exact Hk|rewrite IH; exact Hk|exact Hk].
Qed.

Lemma keeps_processBatch tracker batch startIndex endIndex :
  keeps (logged keep) (processBatch env config tracker batch startIndex endIndex).
Proof.
  unfold processBatch. apply keeps_bind; [apply keeps_settleLoop|].
  intros settled. destruct (snd settled); [apply keeps_throw|].
  destruct (allFulfilled _); [apply keeps_ret|apply keeps_never].
Qed.

End BatchLog.


End WithEnv.

(** ** Slices *)

Lemma slicesFuel_enough {A} (b fuel1 fuel2 : nat) (l : list A) :
  (1 <= b)%nat -> (length l <= fuel1)%nat -> (length l <= fuel2)%nat ->
  slicesFuel fuel1 b l = slicesFuel fuel2 b l.
Proof.
  intros Hb. revert fuel2 l.
  induction fuel1 as [|fuel1 IH]; intros fuel2 l H1 H2.
  - destruct l; [|simpl in H1; lia]. destruct fuel2; reflexivity.
  - destruct l as [|x l]; [destruct fuel2; reflexivity|].
    destruct fuel2 as [|fuel2]; [simpl in H2; lia|].
    cbn [slicesFuel]. f_equal.
    assert (Hd : (length (drop b (x :: l)) <= length l)%nat)
      by (rewrite length_drop; simpl; lia).
    simpl in H1, H2. apply IH; lia.
Qed.

Lemma slices_nil {A} (b : nat) : slices b (@nil A) = [].
Proof. reflexivity. Qed.

Lemma slices_unfold {A} (b : nat) (l : list A) :
  (1 <= b)%nat -> l <> [] -> slices b l = take b l :: slices b (drop b l).
Proof.
  intros Hb Hl. destruct l as [|x l]; [contradiction|].
  unfold slices. cbn [slicesFuel length]. f_equal.
  apply slicesFuel_enough; [exact Hb| |lia].
  rewrite length_drop. simpl. lia.
Qed.

(** There are [ceil (n / b)] slices. *)
Lemma length_slices {A} (b : nat) (l : list A) :
  (1 <= b)%nat ->
  Z.of_nat (length (slices b l)) = - (- Z.of_nat (length l) / Z.of_nat b).
Proof.
  intros Hb. remember (length l) as n eqn:Hn. revert l Hn.
  induction n as [n IH] using lt_wf_ind. intros l Hn.
  destruct l as [|x l].
  - subst n. reflexivity.
  - rewrite slices_unfold by (try exact Hb; discriminate). cbn [length].
    rewrite Nat2Z.inj_succ.
    assert (Hlt : (length (drop b (x :: l)) < n)%nat).
    { rewrite length_drop, Hn. simpl. lia. }
    rewrite (IH (length (drop b (x :: l))) Hlt (drop b (x :: l)) eq_refl).
    rewrite length_drop, Hn. cbn [length].
    destruct (le_lt_dec (S (length l)) b) as [Hle|Hgt].
    + replace (S (length l) - b)%nat with 0%nat by lia.
      change (Z.of_nat 0) with 0. rewrite Z.opp_0, Z.div_0_l by lia.
      assert (- Z.of_nat (S (length l)) / Z.of_nat b = -1) as ->; [|lia].
      symmetry. apply (Z.div_unique _ _ _ (Z.of_nat b - Z.of_nat (S (length l)))); lia.
    + rewrite Nat2Z.inj_sub by lia.
      replace (- (Z.of_nat (S (length l)) - Z.of_nat b))
        with (- Z.of_nat (S (length l)) + 1 * Z.of_nat b) by lia.
      rewrite Z.div_add by lia. lia.
Qed.

Lemma concat_slices {A} (b : nat) (l : list A) :
  (1 <= b)%nat -> concat (slices b l) = l.
Proof.
  intros Hb. remember (length l) as n eqn:Hn. revert l Hn.
  induction n as [n IH] using lt_wf_ind. intros l Hn.
  destruct l as [|x l]; [reflexivity|].
  rewrite slices_unfold by (try exact Hb; discriminate). cbn [concat].
  assert (Hlt : (length (drop b (x :: l)) < n)%nat).
  { rewrite length_drop, Hn. simpl. lia. }
  rewrite (IH _ Hlt (drop b (x :: l)) eq_refl). apply take_drop.
Qed.

(** ** The loop over the batches *)

Lemma jsSlice_batch {A} (l : list A) (i b : Z) :
  0 <= i < Z.of_nat (length l) -> 1 <= b ->
  jsSlice l i (Z.min (i + b) (Z.of_nat (length l))) =
  take (Z.to_nat b) (drop (Z.to_nat i) l).
Proof.
  intros Hi Hb. unfold jsSlice, relativeIndex.
  destruct (Z.ltb_spec i 0); [lia|].
  destruct (Z.ltb_spec (Z.min (i + b) (Z.of_nat (length l))) 0); [lia|].
  rewrite (Z.min_l i) by lia.
  rewrite (Z.min_l (Z.min _ _)) by lia.
  destruct (Z.le_gt_cases (i + b) (Z.of_nat (length l))) as [Hle|Hgt].
  - rewrite Z.min_l by lia. f_equal. lia.
  - rewrite Z.min_r by lia.
    rewrite !take_ge; try reflexivity; rewrite length_drop; lia.
Qed.

Section Batches.
Variable env : Env.
Variable config : ConfigOptions.

Lemma batchLoop_step tracker fuel items b d i acc :
  i < Z.of_nat (length items) ->
  batchLoop env config tracker (S fuel) items b d i acc =
  (let len := Z.of_nat (length items) in
   let batchEnd := Z.min (i + b) len in
   let batch := jsSlice items i batchEnd in
   emit (EvBatch (i / b + 1) (- (- len / b)) (map fst batch)) ;;
   batchResults <- processBatch env config tracker batch i batchEnd ;;
   (if (batchEnd <? len) && (0 <? d) then sleep BetweenBatches d else ret tt) ;;
   batchLoop env config tracker fuel items b d (i + b) (acc ++ batchResults)).
Proof.
  intros Hi. cbn [batchLoop]. destruct (Z.ltb_spec i (Z.of_nat (length items))); [|lia].
  reflexivity.
Qed.

Lemma batchLoop_done tracker fuel items b d i acc w :
  Z.of_nat (length items) <= i ->
  batchLoop env config tracker fuel items b d i acc w = (Return acc, w).
Proof.
  intros Hi. destruct fuel; cbn [batchLoop];
    destruct (Z.ltb_spec i (Z.of_nat (length items))); try lia; reflexivity.
Qed.

Lemma batchLoop_run fuel items b d i acc w :
  1 <= orNumber (maxConcurrency config) 3 -> 1 <= b -> 0 <= i ->
  Z.of_nat (length items) - i <= Z.of_nat fuel ->
  exists results w',
    batchLoop env config statsTracker fuel items b d i acc w
      = (Return (acc ++ results), w') /\
    map photoId results = map fst (drop (Z.to_nat i) items) /\
    logged isBatchEvent w' =
      logged isBatchEvent w ++
      batchPlan (0 <? d) d (- (- Z.of_nat (length items) / b)) (i / b + 1)
        (slices (Z.to_nat b) (map fst (drop (Z.to_nat i) items))).
Proof.
  intros Hmax Hb. revert i acc w.
  induction fuel as [|fuel IH]; intros i acc w Hi Hfuel.
  - exists [], w. rewrite batchLoop_done by lia. rewrite app_nil_r.
    rewrite drop_ge by lia. split; [reflexivity|]. split; [reflexivity|].
    simpl. now rewrite app_nil_r.
  - destruct (Z.le_gt_cases (Z.of_nat (length items)) i) as [Hge|Hlt].
    { exists [], w. rewrite batchLoop_done by lia. rewrite app_nil_r.
      rewrite drop_ge by lia. split; [reflexivity|]. split; [reflexivity|].
      simpl. now rewrite app_nil_r. }
    rewrite batchLoop_step by lia. cbv zeta.
    rewrite jsSlice_batch by lia.
    set (batch := take (Z.to_nat b) (drop (Z.to_nat i) items)).
    set (total := - (- Z.of_nat (length items) / b)).
    set (ids := map fst (drop (Z.to_nat i) items)).
    assert (Hids : ids <> []).
    { subst ids. intros H. apply (f_equal length) in H.
      rewrite length_map, length_drop in H. simpl in H.
      unfold ImageEntry in *. lia. }
    assert (Hbatch : map fst batch = take (Z.to_nat b) ids).
    { subst batch ids. unfold ImageEntry. now rewrite <- fmap_take. }
    assert (Hrest : map fst (drop (Z.to_nat (i + b)) items) = drop (Z.to_nat b) ids).
    { subst ids. unfold ImageEntry. rewrite <- fmap_drop, drop_drop. do 2 f_equal. lia. }
    unfold bind at 1. cbn [emit modify fst snd].
    set (w1 := mkWorld _ _ _ _ _).
    destruct (processBatch_run env config batch i
                (Z.min (i + b) (Z.of_nat (length items))) w1 Hmax)
      as (batchResults & w2 & Hrun & Hres).
    unfold bind at 1. rewrite Hrun.
    assert (Hlog2 : logged isBatchEvent w2 =
                    logged isBatchEvent w ++ [EvBatch (i / b + 1) total (map fst batch)]).
    { pose proof (keeps_processBatch env config isBatchEvent
                    (fun _ => eq_refl) (fun _ => eq_refl) (fun _ => eq_refl) eq_refl
                    (fun _ => eq_refl) (fun _ => eq_refl) eq_refl (fun _ => eq_refl)
                    (fun _ => eq_refl) (fun _ => eq_refl) (fun _ => eq_refl)
                    (fun _ _ => eq_refl) (fun _ => eq_refl)
                    statsTracker batch i (Z.min (i + b) (Z.of_nat (length items))) w1) as K.
      rewrite Hrun in K. simpl in K. rewrite K. subst w1. unfold logged. simpl.
      rewrite List.filter_app. reflexivity. }
    rewrite (slices_unfold (Z.to_nat b) ids) by (try lia; exact Hids).
    destruct (Z.ltb_spec (Z.min (i + b) (Z.of_nat (length items)))
                (Z.of_nat (length items))) as [Hmore|Hlast].
    + cbn [andb]. unfold bind at 1.
      set (w3 := snd ((if 0 <? d then sleep BetweenBatches d else ret tt) w2)).
      assert (Hlog3 : logged isBatchEvent w3 =
                      logged isBatchEvent w2 ++
                      (if 0 <? d then [EvSleep BetweenBatches d] else [])).
      { subst w3. destruct (0 <? d).
        - unfold sleep. apply (logged_emit isBatchEvent).
        - simpl. now rewrite app_nil_r. }
      assert (Hret : (if 0 <? d then sleep BetweenBatches d else ret tt) w2
                     = (Return tt, w3)).
      { subst w3. destruct (0 <? d); reflexivity. }
      rewrite Hret. clearbody w3.
      destruct (IH (i + b) (acc ++ batchResults) w3) as (results & w' & Hloop & Hr & Hl);
        [lia|lia|].
      exists (batchResults ++ results), w'. rewrite Hloop.
      split; [now rewrite app_assoc|]. split.
      * rewrite map_app, Hres, Hr, Hbatch, Hrest. apply take_drop.
      * rewrite Hl, Hlog3, Hlog2. rewrite Hrest, Hbatch.
        replace ((i + b) / b + 1) with (i / b + 1 + 1)
          by (replace (i + b) with (i + 1 * b) by lia; rewrite Z.div_add by lia; lia).
        assert (Hne : drop (Z.to_nat b) ids <> []).
        { intros Hx. apply (f_equal length) in Hx. subst ids.
          rewrite length_drop, length_map, length_drop in Hx. simpl in Hx.
          unfold ImageEntry in *. lia. }
        rewrite (slices_unfold (Z.to_nat b) (drop (Z.to_nat b) ids)) at 2
          by (try lia; exact Hne).
        cbn [batchPlan].
        rewrite (slices_unfold (Z.to_nat b) (drop (Z.to_nat b) ids))
          by (try lia; exact Hne).
        rewrite <- !app_assoc. reflexivity.
    + cbn [andb]. unfold bind at 1. cbn [ret fst snd].
      destruct (IH (i + b) (acc ++ batchResults) w2) as (results & w' & Hloop & Hr & Hl);
        [lia|lia|].
      exists (batchResults ++ results), w'. rewrite Hloop.
      split; [now rewrite app_assoc|]. split.
      * rewrite map_app, Hres, Hr, Hbatch, Hrest. apply take_drop.
      * rewrite Hl, Hlog2, Hrest, Hbatch.
        assert (Hnil : drop (Z.to_nat b) ids = []).
        { apply drop_ge. subst ids. rewrite length_map, length_drop.
          unfold ImageEntry in *. lia. }
        rewrite Hnil, slices_nil. simpl. now rewrite app_nil_r.
Qed.

Lemma bind_ret_app {S} (m : M S (list DownloadResult)) (acc rs : list DownloadResult) (s : S) :
  (x <- (more <- m ;; ret (rs ++ more)) ;; ret (acc ++ x)) s =
  (x <- m ;; ret ((acc ++ rs) ++ x)) s.
Proof.
  unfold bind. destruct (m s) as [[a|e|] s']; simpl; try reflexivity.
  unfold ret. now rewrite app_assoc.
Qed.

(** The loop over the positions is the loop over the slices. *)
Lemma batchLoop_slices tracker fuel items b d i acc w :
  1 <= b -> 0 < d -> 0 <= i ->
  Z.of_nat (length items) - i <= Z.of_nat fuel ->
  batchLoop env config tracker fuel items b d i acc w =
  (x <- processSlices env config tracker d (- (- Z.of_nat (length items) / b)) (i / b + 1) i
          (slices (Z.to_nat b) (drop (Z.to_nat i) items)) ;;
   ret (acc ++ x)) w.
Proof.
  intros Hb Hd. revert i acc w.
  induction fuel as [|fuel IH]; intros i acc w Hi Hfuel.
  - rewrite batchLoop_done by lia. rewrite drop_ge by lia. rewrite slices_nil.
    simpl. unfold bind, ret. simpl. now rewrite app_nil_r.
  - destruct (Z.le_gt_cases (Z.of_nat (length items)) i) as [Hge|Hlt].
    { rewrite batchLoop_done by lia. rewrite drop_ge by lia. rewrite slices_nil.
      simpl. unfold bind, ret. simpl. now rewrite app_nil_r. }
    rewrite batchLoop_step by lia. cbv zeta.
    rewrite jsSlice_batch by lia.
    set (rest := drop (Z.to_nat i) items).
    assert (Hne : rest <> []).
    { subst rest. intros H. apply (f_equal length) in H.
      rewrite length_drop in H. simpl in H. unfold ImageEntry in *. lia. }
    rewrite (slices_unfold (Z.to_nat b) rest) by (try lia; exact Hne).
    set (batch := take (Z.to_nat b) rest).
    assert (Hstop : Z.min (i + b) (Z.of_nat (length items)) = i + Z.of_nat (length batch)).
    { subst batch rest. rewrite length_take, length_drop. unfold ImageEntry in *. lia. }
    assert (Hrest : drop (Z.to_nat b) rest = drop (Z.to_nat (i + b)) items).
    { subst rest. rewrite drop_drop. f_equal. lia. }
    cbn [processSlices]. cbv zeta. rewrite Hrest, <- Hstop.
    rewrite bind_assoc. apply bind_ext. intros _ w1.
    rewrite bind_assoc. apply bind_ext. intros rs w2.
    rewrite bind_assoc.
    destruct (Z.ltb_spec (Z.min (i + b) (Z.of_nat (length items)))
                (Z.of_nat (length items))) as [Hmore|Hlast].
    + assert (Hd' : (0 <? d) = true) by (apply Z.ltb_lt; exact Hd).
      rewrite Hd'. cbn [andb].
      assert (Hne' : drop (Z.to_nat (i + b)) items <> []).
      { intros Hx. apply (f_equal length) in Hx. rewrite length_drop in Hx.
        simpl in Hx. unfold ImageEntry in *. lia. }
      rewrite (slices_unfold (Z.to_nat b) (drop (Z.to_nat (i + b)) items)) at 1
        by (try lia; exact Hne').
      apply bind_ext. intros _ w3.
      rewrite IH by lia.
      replace (Z.min (i + b) (Z.of_nat (length items))) with (i + b) by lia.
      replace ((i + b) / b + 1) with (i / b + 1 + 1)
        by (replace (i + b) with (i + 1 * b) by lia; rewrite Z.div_add by lia; lia).
      symmetry. apply bind_ret_app.
    + cbn [andb].
      assert (Hnil : drop (Z.to_nat (i + b)) items = []).
      { apply drop_ge. unfold ImageEntry in *. lia. }
      rewrite Hnil, slices_nil.
      apply bind_ext. intros _ w3.
      rewrite batchLoop_done by lia.
      cbn [processSlices]. unfold bind, ret. simpl. now rewrite app_nil_r.
Qed.

Lemma processSlices_log d total number start chunks w :
  1 <= orNumber (maxConcurrency config) 3 ->
  logged isBatchOrTask
    (snd (processSlices env config statsTracker d total number start chunks w)) =
  logged isBatchOrTask w ++ batchTrace d total number chunks.
Proof.
  intros Hmax. revert number start w.
  induction chunks as [|c rest IH]; intros number start w.
  - simpl. now rewrite app_nil_r.
  - cbn [processSlices batchTrace]. cbv zeta.
    unfold bind at 1. cbn [emit modify fst snd].
    set (w1 := mkWorld _ _ _ _ _).
    assert (L1 : logged isBatchOrTask w1 =
                 logged isBatchOrTask w ++ [EvBatch number total (map fst c)]).
    { unfold w1, logged. simpl. rewrite List.filter_app. reflexivity. }
    destruct (processBatch_run env config c start (start + Z.of_nat (length c)) w1 Hmax)
      as (rs & w2 & Hrun & _).
    pose proof (processBatch_log env config c start (start + Z.of_nat (length c)) w1 Hmax) as L2.
    unfold bind at 1. rewrite Hrun in *. simpl in L2.
    destruct rest as [|c' rest'].
    + unfold bind at 1. cbn [ret fst snd processSlices bind].
      rewrite L2, L1. rewrite <- app_assoc. simpl. now rewrite app_nil_r.
    + unfold bind at 1. cbn [sleep emit modify fst snd].
      set (w3 := mkWorld _ _ _ _ _).
      assert (L3 : logged isBatchOrTask w3 =
                   logged isBatchOrTask w2 ++ [EvSleep BetweenBatches d]).
      { unfold w3, logged. simpl. rewrite List.filter_app. reflexivity. }
      specialize (IH (number + 1) (start + Z.of_nat (length c)) w3).
      unfold bind.
      destruct (processSlices env config statsTracker d total (number + 1)
                  (start + Z.of_nat (length c)) (c' :: rest') w3) as [[more|e|] w4];
        simpl in *; rewrite IH, L3, L2, L1; rewrite <- !app_assoc; reflexivity.
Qed.

Lemma slicesFuel_map {A B} (f : A -> B) (fuel b : nat) (l : list A) :
  map (map f) (slicesFuel fuel b l) = slicesFuel fuel b (map f l).
Proof.
  revert l. induction fuel as [|fuel IH]; intros l; simpl; [reflexivity|].
  destruct l as [|x l]; simpl; [reflexivity|].
  rewrite IH. f_equal.
  - change (f x :: map f l) with (map f (x :: l)). now rewrite <- fmap_take.
  - f_equal. change (f x :: map f l) with (map f (x :: l)). now rewrite <- fmap_drop.
Qed.

Lemma slices_map {A B} (f : A -> B) (b : nat) (l : list A) :
  map (map f) (slices b l) = slices b (map f l).
Proof. unfold slices. rewrite slicesFuel_map, length_map. reflexivity. Qed.

Lemma concurrencyOk_max :
  concurrencyOk config -> 1 <= orNumber (maxConcurrency config) 3.
Proof.
  unfold concurrencyOk, orNumber, nullish. intros [H _].
  destruct (maxConcurrency config) as [v|]; [|lia].
  destruct (Z.eqb_spec v 0); lia.
Qed.

Lemma concurrencyOk_batchSize :
  concurrencyOk config ->
  1 <= orNumber (batchSize config) (orNumber (maxConcurrency config) 3).
Proof.
  intros H. pose proof (concurrencyOk_max H) as Hmax.
  destruct H as [_ H]. unfold orNumber at 1. unfold nullish in H.
  destruct (batchSize config) as [v|]; [|exact Hmax].
  destruct (Z.eqb_spec v 0); lia.
Qed.

Lemma delayOk_delay :
  delayOk config -> 0 < orNumber (delayBetweenBatches config) 1000.
Proof.
  unfold delayOk, orNumber, nullish.
  destruct (delayBetweenBatches config) as [v|]; [|lia].
  destruct (Z.eqb_spec v 0); lia.
Qed.

Lemma downloadImagesConcurrently_run items w :
  concurrencyOk config ->
  exists results w',
    downloadImagesConcurrently env config statsTracker items w = (Return results, w') /\
    map photoId results = map fst items.
Proof.
  intros Hok. unfold downloadImagesConcurrently.
  destruct (negb (nullish (enableBatching config) true)).
  - apply processBatch_run, concurrencyOk_max, Hok.
  - destruct (batchLoop_run (length items) items
                (orNumber (batchSize config) (orNumber (maxConcurrency config) 3))
                (orNumber (delayBetweenBatches config) 1000) 0 [] w)
      as (results & w' & Hloop & Hids & _);
      [apply concurrencyOk_max, Hok|apply concurrencyOk_batchSize, Hok|lia|lia|].
    exists results, w'. split; [exact Hloop|exact Hids].
Qed.

(** C1.  With options of concurrency that are not negative,
    [downloadImagesConcurrently] returns, with batching and without, a list
    of results as long as the list of entries whose [i]-th element is a
    result for the photo of the [i]-th entry, whatever the order in which
    the outside world lets the tasks finish. *)
Theorem results_follow_input (items : list ImageEntry) (w : World) :
  concurrencyOk config ->
  exists results w',
    downloadImagesConcurrently env config statsTracker items w = (Return results, w') /\
    length results = length items /\
    forall i entry, items !! i = Some entry ->
      exists r, results !! i = Some r /\ photoId r = fst entry.
Proof.
  intros Hok.
  destruct (downloadImagesConcurrently_run items w Hok) as (results & w' & Hrun & Hids).
  exists results, w'. split; [exact Hrun|]. split.
  - apply (f_equal length) in Hids. now rewrite !length_map in Hids.
  - intros i entry Hentry.
    assert (Hi : map fst items !! i = Some (fst entry))
      by (rewrite list_lookup_fmap; unfold ImageEntry in *; now rewrite Hentry).
    rewrite <- Hids, list_lookup_fmap in Hi.
    destruct (results !! i) as [r|]; [|discriminate].
    exists r. split; [reflexivity|]. simpl in Hi. congruence.
Qed.

(** C10.  With batching enabled, options of concurrency and a delay that
    are not negative, [batchSize] and [delayBetweenBatches] being the
    numbers the function reads (a delay of 0 is read as 1000 ms): the
    batches announced are the consecutive slices of length [batchSize] of
    the entries, in order and numbered from 1, there are
    [ceil (n / batchSize)] of them, a sleep of [delayBetweenBatches] ms
    follows every batch but the last, and the results returned are those of
    the slices in that order.  The slices are processed strictly one after
    the other: the call returns the results and ends in the state that
    [processBatch] on the first slice, the pause, [processBatch] on the
    second slice, and so on, lead to; and in the log the announcement of
    a batch is followed by one call of [getContext] for each entry of that
    batch, the one with which its task begins, before the pause and the
    announcement of the next batch. *)
Theorem batches_in_order (items : list ImageEntry) (w : World) :
  nullish (enableBatching config) true = true ->
  concurrencyOk config -> delayOk config ->
  let batchSize := orNumber (batchSize config) (orNumber (maxConcurrency config) 3) in
  let delay := orNumber (delayBetweenBatches config) 1000 in
  let batches := slices (Z.to_nat batchSize) (map fst items) in
  let entries := slices (Z.to_nat batchSize) items in
  exists results w',
    downloadImagesConcurrently env config statsTracker items w = (Return results, w') /\
    map photoId results = concat batches /\
    Z.of_nat (length batches) = - (- Z.of_nat (length items) / batchSize) /\
    logged isBatchEvent w' =
      logged isBatchEvent w ++
      batchPlan true delay (Z.of_nat (length batches)) 1 batches /\
    map (map fst) entries = batches /\
    processSlices env config statsTracker delay (Z.of_nat (length batches)) 1 0 entries w
      = (Return results, w') /\
    logged isBatchOrTask w' =
      logged isBatchOrTask w ++
      batchTrace delay (Z.of_nat (length batches)) 1 entries.
Proof.
  intros Hbatching Hok Hdelay b d batches entries.
  pose proof (concurrencyOk_batchSize Hok) as Hb. fold b in Hb.
  pose proof (delayOk_delay Hdelay) as Hd. fold d in Hd.
  pose proof (concurrencyOk_max Hok) as Hmax.
  unfold downloadImagesConcurrently. rewrite Hbatching. cbn [negb]. fold b d.
  destruct (batchLoop_run (length items) items b d 0 [] w)
    as (results & w' & Hloop & Hids & Hlog); [exact Hmax|exact Hb|lia|lia|].
  assert (Hcount : Z.of_nat (length batches) = - (- Z.of_nat (length items) / b)).
  { subst batches. rewrite length_slices by lia. rewrite length_map.
    rewrite Z2Nat.id by lia. reflexivity. }
  assert (Hslices : processSlices env config statsTracker d (Z.of_nat (length batches))
                      1 0 entries w = (Return results, w')).
  { pose proof (batchLoop_slices statsTracker (length items) items b d 0 [] w Hb Hd)
      as Heq.
    rewrite Hloop in Heq. rewrite Z.div_0_l in Heq by lia.
    change (Z.to_nat 0) with 0%nat in Heq. rewrite drop_0 in Heq.
    rewrite <- Hcount in Heq. fold entries in Heq.
    specialize (Heq ltac:(lia) ltac:(lia)). unfold bind in Heq.
    destruct (processSlices env config statsTracker d (Z.of_nat (length batches))
                (0 + 1) 0 entries w) as [[x|e|] w''] eqn:E; try discriminate.
    simpl in Heq. unfold ret in Heq. injection Heq as -> ->.
    change (0 + 1) with 1 in E. exact E. }
  exists results, w'. split; [exact Hloop|]. split.
  { rewrite Hids. simpl. subst batches. symmetry. apply concat_slices. lia. }
  split; [exact Hcount|]. split.
  { rewrite Hlog, Hcount. simpl drop. rewrite Z.div_0_l by lia.
    destruct (Z.ltb_spec 0 d); [reflexivity|lia]. }
  split; [apply slices_map|]. split; [exact Hslices|].
  pose proof (processSlices_log d (Z.of_nat (length batches)) 1 0 entries w Hmax) as L.
  rewrite Hslices in L. exact L.
Qed.

(** C7.  [processBatch] never throws: with the tracker of the repository
    every task returns a result, an exception of [getContext], such as the
    one of a pool that is exhausted or the one of a pool that is not
    initialized, ends up as the message of a failed result for the photo,
    and no promise of the batch is rejected; when the concurrency is 1 at
    least the batch returns one result per entry. *)
Theorem failures_become_results (batch : list ImageEntry) (startIndex endIndex : Z)
    (w : World) :
  (forall e, fst (processBatch env config statsTracker batch startIndex endIndex w)
             <> Throw e) /\
  (forall entry i n w0, exists r,
      fst (downloadSingleImage env config statsTracker entry i n w0) = Return r) /\
  (forall entry i n w0 e,
      fst (BrowserPool.getContext env w0) = Throw e ->
      exists r,
        fst (downloadSingleImage env config statsTracker entry i n w0) = Return r /\
        success r = false /\ photoId r = fst entry /\
        error r = Some (messageOr "Unknown error" e)) /\
  (forall w0,
      browser (pool w0) = true ->
      (forall pc, In pc (contextPool (pool w0)) -> inUse pc = true) ->
      maxPoolSize (pool w0) <= Z.of_nat (length (contextPool (pool w0))) ->
      fst (BrowserPool.getContext env w0) =
      Throw (ErrorObj "No browser contexts available and pool is at capacity")) /\
  (forall w0,
      browser (pool w0) = false ->
      fst (BrowserPool.getContext env w0) =
      Throw (ErrorObj "Browser pool not initialized. Call initialize() first.")) /\
  (1 <= orNumber (maxConcurrency config) 3 ->
   exists results,
     fst (processBatch env config statsTracker batch startIndex endIndex w)
       = Return results /\
     length results = length batch).
Proof.
  split; [intros e; apply processBatch_never_throws|].
  split; [intros entry i n w0; apply succeeds_downloadSingleImage|].
  split.
  { intros entry i n w0 e Hg. eexists. split.
    - apply downloadSingleImage_no_context, Hg.
    - repeat split. }
  split; [intros w0; apply getContext_exhausted|].
  split; [intros w0; apply getContext_uninitialized|].
  intros Hmax.
  destruct (processBatch_run env config batch startIndex endIndex w Hmax)
    as (results & w' & Hrun & Hids).
  exists results. rewrite Hrun. split; [reflexivity|].
  apply (f_equal length) in Hids. now rewrite !length_map in Hids.
Qed.

End Batches.

End BatchFacts.
(** * The pool stays within its limit *)

Module PoolLimit.
Import Effects EffectsFacts BrowserPool BrowserPoolFacts.

(** C8, as the code has it.  When the configured concurrency is not
    negative and the public operations of a pool are called one after the
    other, [initialize] only on a pool that holds no context, the pool
    never holds more contexts than [maxPoolSize], and so never more
    contexts in use; and from any state within the limit [getContext],
    [releaseContext] and [cleanup], with the contexts they create and
    replace, stay within it. *)
Theorem pool_within_limit (env : Env) (config : ConfigOptions) (ops : list op) :
  0 <= nullish (maxConcurrency config) 0 ->
  initializedWhenEmpty env ops (newWorld config) = true ->
  let w := calls env ops (newWorld config) in
  getPoolSize w <= maxPoolSize (pool w) /\
  inUseCount w <= maxPoolSize (pool w) /\
  forall w0 o, withinLimit w0 -> o <> Initialize -> withinLimit (call env o w0).
Proof.
  intros Hmax Hinit w.
  assert (M : 1 <= maxPoolSize (pool (newWorld config))).
  { simpl. unfold orNumber, nullish in *.
    destruct (maxConcurrency config) as [v|]; [|lia].
    destruct (Z.eqb_spec v 0); lia. }
  assert (B : withinLimit (newWorld config)) by (unfold withinLimit; simpl in *; lia).
  destruct (calls_withinLimit env ops (newWorld config) M B Hinit) as [Bw Mw].
  fold w in Bw, Mw. unfold withinLimit in Bw.
  split; [exact Bw|]. split.
  - pose proof (inUseCount_le w). unfold getPoolSize in *. lia.
  - intros w0 o B0 Ho. apply (call_withinLimit_later env o w0 B0 Ho).
Qed.

Lemma pool_within_limit_witness :
  0 <= nullish (maxConcurrency Examples.options) 0 /\
  initializedWhenEmpty Examples.calm
    [Initialize; GetContext; GetContext; ReleaseContext 0; GetContext; Cleanup;
     Initialize; GetContext]
    (newWorld Examples.options) = true /\
  let w := calls Examples.calm
             [Initialize; GetContext; GetContext; ReleaseContext 0; GetContext;
              Cleanup; Initialize; GetContext]
             (newWorld Examples.options) in
  getPoolSize w <= maxPoolSize (pool w) /\
  inUseCount w <= maxPoolSize (pool w) /\
  forall w0 o, withinLimit w0 -> o <> Initialize ->
               withinLimit (call Examples.calm o w0).
Proof.
  assert (H1 : 0 <= nullish (maxConcurrency Examples.options) 0) by (simpl; lia).
  assert (H2 : initializedWhenEmpty Examples.calm
                 [Initialize; GetContext; GetContext; ReleaseContext 0; GetContext;
                  Cleanup; Initialize; GetContext]
                 (newWorld Examples.options) = true) by reflexivity.
  split; [exact H1|]. split; [exact H2|].
  exact (pool_within_limit Examples.calm Examples.options _ H1 H2).
Defined.

(** C8, as stated, fails: [initialize] creates a context without looking
    at the limit, so calling it again on a pool of limit 2 that already
    holds contexts leaves 3 contexts in the pool. *)
Lemma pool_beyond_limit :
  let w := calls Examples.calm [Initialize; Initialize; Initialize]
             (newWorld Examples.options) in
  maxPoolSize (pool w) = 2 /\ getPoolSize w = 3 /\
  ~ getPoolSize w <= maxPoolSize (pool w).
Proof.
  simpl. split; [reflexivity|]. split; [reflexivity|]. intros H. vm_compute in H.
  apply H. reflexivity.
Qed.

End PoolLimit.

(** * The claims on concrete inputs *)

Module Witnesses.
Import Effects ConcurrentDownloadService.

(** The options the command line builds are within the bounds the
    theorems ask for. *)
Lemma buildDownloaderOptions_ok concurrency batch delay noBatching options :
  let built := buildDownloaderOptions concurrency batch delay noBatching options in
  concurrencyOk built /\ delayOk built.
Proof.
  unfold concurrencyOk, delayOk, buildDownloaderOptions, nullish. simpl.
  destruct batch; simpl; lia.
Qed.

Lemma results_follow_input_witness :
  concurrencyOk Examples.options /\
  exists results w',
    downloadImagesConcurrently Examples.calm Examples.options statsTracker
      Examples.five (Examples.ready Examples.calm) = (Return results, w') /\
    length results = length Examples.five /\
    forall i entry, Examples.five !! i = Some entry ->
      exists r, results !! i = Some r /\ photoId r = fst entry.
Proof.
  assert (H : concurrencyOk Examples.options) by (split; simpl; lia).
  split; [exact H|].
  exact (BatchFacts.results_follow_input Examples.calm Examples.options
           Examples.five (Examples.ready Examples.calm) H).
Defined.

Lemma retry_with_backoff_witness :
  validateConfig Examples.options = Return tt /\
  let r := orNumber (retries Examples.options) 3 in
  let out := downloadImageWithContext Examples.noPages Examples.options 0 "u/a"
               Examples.plain (Examples.ready Examples.noPages) in
  exists (attempts : nat) (res : DownloadResult) (wl : World),
    1 <= Z.of_nat attempts <= r /\
    fst out = Return res /\
    afterFailures Examples.noPages Examples.options 0 "u/a" Examples.plain
      (attempts - 1) 1 (Examples.ready Examples.noPages) = Some wl /\
    logged isRetryEvent (snd out) =
      logged isRetryEvent (Examples.ready Examples.noPages)
        ++ backoffTrace "u/a" (attempts - 1) 1
        ++ [EvAttempt "u/a" (Z.of_nat attempts)] /\
    (attemptFrom Examples.noPages Examples.options 0 "u/a" Examples.plain
       (Z.of_nat attempts) wl = (Return res, snd out) \/
     exists e,
       attemptFrom Examples.noPages Examples.options 0 "u/a" Examples.plain
         (Z.of_nat attempts) wl = (Throw e, snd out) /\
       Z.of_nat attempts = r /\
       res = failedResult "u/a" (lastErrorMessage (Some e))
               (orString (image_author Examples.plain) EmptyString) /\
       (forall m, e = ErrorObj m -> m <> EmptyString -> error res = Some m)) /\
    ((forall a w', exists e,
         fst (attemptDownloadWithContext Examples.noPages Examples.options 0 "u/a"
                Examples.plain a w') = Throw e) ->
     Z.of_nat attempts = r /\ success res = false).
Proof.
  split; [reflexivity|].
  exact (DownloadFacts.retry_with_backoff Examples.noPages Examples.options 0 "u/a"
           Examples.plain (Examples.ready Examples.noPages) eq_refl).
Defined.

(** The file of the photo as the file system service reports it in the
    example. *)
Definition found : ImageExistsResult :=
  mkImageExistsResult true (Some "/d/u/a.jpg") (Some 7).

Definition checked : World :=
  snd (imageExists Examples.stocked Examples.options "u/a"
         (Examples.ready Examples.stocked)).

Lemma skip_existing_file_witness :
  (imageExists Examples.stocked Examples.options "u/a"
     (Examples.ready Examples.stocked) = (Return found, checked) /\
   file_exists found = true) /\
  exists r path bytes,
    attemptDownloadWithContext Examples.stocked Examples.options 0 "u/a"
      Examples.plain 1 (Examples.ready Examples.stocked) = (Return r, checked) /\
    file_filepath found = Some path /\ file_size found = Some bytes /\
    success r = true /\ skipped r = Some true /\ photoId r = "u/a" /\
    filepath r = Some path /\ size r = Some bytes /\
    logged isPageWork checked = logged isPageWork (Examples.ready Examples.stocked).
Proof.
  assert (H1 : imageExists Examples.stocked Examples.options "u/a"
                 (Examples.ready Examples.stocked) = (Return found, checked))
    by reflexivity.
  assert (H2 : file_exists found = true) by reflexivity.
  split; [split; [exact H1|exact H2]|].
  exact (DownloadFacts.skip_existing_file Examples.stocked Examples.options 0 "u/a"
           Examples.plain 1 (Examples.ready Examples.stocked) checked found H1 H2).
Defined.

Lemma skip_without_metadata_witness :
  (imageExists Examples.stocked Examples.options "u/a"
     (Examples.ready Examples.stocked) = (Return found, checked) /\
   file_exists found = true /\
   manager_getPage Examples.stocked (tick checked) = Ok tt) /\
  (exists r,
     attemptDownloadWithContext Examples.stocked Examples.options 0 "u/a"
       Examples.plain 1 (Examples.ready Examples.stocked) = (Return r, checked) /\
     skipped r = Some true /\
     uploadDate r = None /\ availableSizes r = None /\ srcset r = None /\
     logged isExtract checked = logged isExtract (Examples.ready Examples.stocked)) /\
  logged isExtract
    (snd (DownloadService.attemptDownload Examples.stocked Examples.options
            statsTracker "u/a" Examples.plain 1 (Examples.ready Examples.stocked))) =
  logged isExtract (Examples.ready Examples.stocked)
    ++ [EvExtractMetadata (vscoImageUrlOf "u/a" Examples.plain)].
Proof.
  assert (H1 : imageExists Examples.stocked Examples.options "u/a"
                 (Examples.ready Examples.stocked) = (Return found, checked))
    by reflexivity.
  assert (H2 : file_exists found = true) by reflexivity.
  assert (H3 : manager_getPage Examples.stocked (tick checked) = Ok tt)
    by reflexivity.
  split; [split; [exact H1|split; [exact H2|exact H3]]|].
  exact (DownloadFacts.skip_without_metadata Examples.stocked Examples.options 0
           "u/a" Examples.plain 1 (Examples.ready Examples.stocked) checked found
           H1 H2 H3).
Defined.

Lemma batches_in_order_witness :
  (nullish (enableBatching Examples.options) true = true /\
   concurrencyOk Examples.options /\ delayOk Examples.options) /\
  let batchSize :=
    orNumber (batchSize Examples.options)
      (orNumber (maxConcurrency Examples.options) 3) in
  let delay := orNumber (delayBetweenBatches Examples.options) 1000 in
  let batches := slices (Z.to_nat batchSize) (map fst Examples.five) in
  let entries := slices (Z.to_nat batchSize) Examples.five in
  exists results w',
    downloadImagesConcurrently Examples.calm Examples.options statsTracker
      Examples.five (Examples.ready Examples.calm) = (Return results, w') /\
    map photoId results = concat batches /\
    Z.of_nat (length batches) = - (- Z.of_nat (length Examples.five) / batchSize) /\
    logged isBatchEvent w' =
      logged isBatchEvent (Examples.ready Examples.calm) ++
      batchPlan true delay (Z.of_nat (length batches)) 1 batches /\
    map (map fst) entries = batches /\
    processSlices Examples.calm Examples.options statsTracker delay
      (Z.of_nat (length batches)) 1 0 entries (Examples.ready Examples.calm)
      = (Return results, w') /\
    logged isBatchOrTask w' =
      logged isBatchOrTask (Examples.ready Examples.calm) ++
      batchTrace delay (Z.of_nat (length batches)) 1 entries.
Proof.
  assert (H1 : nullish (enableBatching Examples.options) true = true) by reflexivity.
  assert (H2 : concurrencyOk Examples.options) by (split; simpl; lia).
  assert (H3 : delayOk Examples.options) by (unfold delayOk; simpl; lia).
  split; [split; [exact H1|split; [exact H2|exact H3]]|].
  exact (BatchFacts.batches_in_order Examples.calm Examples.options Examples.five
           (Examples.ready Examples.calm) H1 H2 H3).
Defined.

(** Five entries in batches of two: three batches, of two, two and one
    entries, and two sleeps of 500 ms between them. *)
Example five_entries_in_batches_of_two :
  logged isBatchEvent
    (snd (downloadImagesConcurrently Examples.calm Examples.options statsTracker
            Examples.five (Examples.ready Examples.calm))) =
  [EvBatch 1 3 ["u/a"; "u/b"]; EvSleep BetweenBatches 500;
   EvBatch 2 3 ["u/c"; "u/d"]; EvSleep BetweenBatches 500;
   EvBatch 3 3 ["u/e"]].
Proof. vm_compute. reflexivity. Qed.

(** The same run with the tasks: each batch is announced, its tasks call
    [getContext], two, two and one of them, and only then comes the pause
    and the next batch. *)
Example five_entries_task_by_task :
  logged isBatchOrTask
    (snd (downloadImagesConcurrently Examples.calm Examples.options statsTracker
            Examples.five (Examples.ready Examples.calm))) =
  [EvBatch 1 3 ["u/a"; "u/b"]; EvGetContext; EvGetContext;
   EvSleep BetweenBatches 500;
   EvBatch 2 3 ["u/c"; "u/d"]; EvGetContext; EvGetContext;
   EvSleep BetweenBatches 500;
   EvBatch 3 3 ["u/e"]; EvGetContext].
Proof. vm_compute. reflexivity. Qed.

(** A configured delay of 0 is read as 1000 ms by the [||] of the code. *)
Example no_delay_is_one_second :
  logged isBatchEvent
    (snd (downloadImagesConcurrently Examples.calm
            (mkConfigOptions false false (Some "/d") (Some 30000) (Some 3) None
               (Some 2) (Some 0) (Some 3) None)
            statsTracker Examples.five (Examples.ready Examples.calm))) =
  [EvBatch 1 2 ["u/a"; "u/b"; "u/c"]; EvSleep BetweenBatches 1000;
   EvBatch 2 2 ["u/d"; "u/e"]].
Proof. vm_compute. reflexivity. Qed.

(** An image whose first attempt succeeds: one attempt and no sleep. *)
Example first_attempt_succeeds :
  let out := downloadImageWithContext Examples.calm Examples.options 0 "u/a"
               Examples.plain (Examples.ready Examples.calm) in
  logged isRetryEvent (snd out) = [EvAttempt "u/a" 1] /\
  match fst out with Return r => success r | _ => false end = true.
Proof. vm_compute. split; reflexivity. Qed.

(** An image whose first attempt fails and whose second succeeds: two
    attempts, one backoff of 2 seconds, and the loop ends there. *)
Example second_attempt_succeeds :
  let out := downloadImageWithContext Examples.flaky Examples.options 0 "u/a"
               Examples.plain (Examples.ready Examples.flaky) in
  logged isRetryEvent (snd out) =
    [EvAttempt "u/a" 1; EvSleep Backoff 2000; EvAttempt "u/a" 2] /\
  match fst out with Return r => success r | _ => false end = true.
Proof. vm_compute. split; reflexivity. Qed.

(** An image whose attempts all fail: three attempts, backoffs of 2 and 4
    seconds, and the message of the last error in the result. *)
Example three_failed_attempts :
  let out := downloadImageWithContext Examples.noPages Examples.options 0 "u/a"
               Examples.plain (Examples.ready Examples.noPages) in
  logged isRetryEvent (snd out) =
    [EvAttempt "u/a" 1; EvSleep Backoff 2000; EvAttempt "u/a" 2;
     EvSleep Backoff 4000; EvAttempt "u/a" 3] /\
  fst out = Return (failedResult "u/a" "Target closed" EmptyString).
Proof. vm_compute. split; reflexivity. Qed.

End Witnesses.

(** * More on the semaphore: progress *)

Module SemaphoreProgress.
Import Semaphore SemaphoreFacts.

Lemma calls_split s : wf s -> calls s = started s ++ queue (sem s).
Proof.
  intros W. rewrite (wf_calls s W), (wf_total s W), seq_app. simpl.
  f_equal; symmetry; [apply (wf_started s W)|apply (wf_queue s W)].
Qed.

Lemma idle_run evs s :
  maxConcurrent (sem s) <= 0 -> wf s -> started s = [] ->
  started (run evs s) = [].
Proof.
  revert s. induction evs as [|e evs IH]; intros s K W E; simpl; [exact E|].
  assert (R : running s = []).
  { destruct (running s) as [|x l] eqn:Hr; [reflexivity|].
    assert (Hx : x ∈ started s).
    { apply (wf_running s W). rewrite Hr. apply elem_of_cons. now left. }
    rewrite E in Hx. inversion Hx. }
  assert (C : currentCount (sem s) = 0) by (rewrite (wf_count s W), R; reflexivity).
  apply IH.
  - rewrite maxConcurrent_step. exact K.
  - apply wf_step, W.
  - destruct e as [|id ok]; simpl.
    + unfold acquire. simpl. rewrite C.
      destruct (Z.ltb_spec 0 (maxConcurrent (sem s))); [lia|exact E].
    + unfold inFlight. rewrite R. simpl. exact E.
Qed.

(** The semaphore wastes no slot.  With a capacity of 1 at least, after
    every sequence of [acquire] calls and completions: the calls made are
    the tasks started followed by the tasks waiting, in the order of the
    calls; a task waits only while all [k] slots are taken; and when no
    task is in flight, nobody waits and every call made has been
    started. *)
Theorem no_task_waits_for_a_free_slot (k : Z) (evs : list action) :
  1 <= k ->
  let s := run evs (init k) in
  calls s = started s ++ queue (sem s) /\
  (queue (sem s) <> [] -> currentCount (sem s) = k) /\
  (running s = [] -> queue (sem s) = [] /\ started s = calls s).
Proof.
  intros Hk s.
  assert (W : wf s) by apply wf_run, wf_init.
  assert (B : bounded s).
  { apply bounded_run; [apply wf_init|]. unfold bounded. simpl. lia. }
  assert (M : maxConcurrent (sem s) = k) by (unfold s; now rewrite maxConcurrent_run).
  split; [apply calls_split, W|]. split.
  - intros Q. pose proof (wf_full s W Q). unfold bounded in B. lia.
  - intros R.
    assert (Q : queue (sem s) = []).
    { destruct (queue (sem s)) as [|x q] eqn:Hq; [reflexivity|].
      assert (Hne : queue (sem s) <> []) by (rewrite Hq; discriminate).
      pose proof (wf_full s W Hne) as F.
      rewrite (wf_count s W), R in F. simpl in F. lia. }
    split; [exact Q|]. rewrite (calls_split s W), Q. now rewrite app_nil_r.
Qed.

Lemma no_task_waits_for_a_free_slot_witness :
  1 <= 2 /\
  let s := run [Acquire; Acquire; Acquire; Settle 0 false; Settle 2 true; Settle 1 true]
             (init 2) in
  calls s = started s ++ queue (sem s) /\
  (queue (sem s) <> [] -> currentCount (sem s) = 2) /\
  (running s = [] -> queue (sem s) = [] /\ started s = calls s).
Proof.
  assert (H : 1 <= 2) by lia.
  split; [exact H|].
  exact (no_task_waits_for_a_free_slot 2
           [Acquire; Acquire; Acquire; Settle 0 false; Settle 2 true; Settle 1 true] H).
Defined.

(** A semaphore whose capacity is 0 or less never calls a task: every
    [acquire] puts its task on the queue, where it stays. *)
Theorem no_capacity_no_start (k : Z) (evs : list action) :
  k <= 0 ->
  let s := run evs (init k) in
  started s = [] /\ running s = [] /\ queue (sem s) = calls s /\
  currentCount (sem s) = 0.
Proof.
  intros Hk s.
  assert (W : wf s) by apply wf_run, wf_init.
  assert (E : started s = []) by (apply idle_run; [exact Hk|apply wf_init|reflexivity]).
  assert (R : running s = []).
  { destruct (running s) as [|x l] eqn:Hr; [reflexivity|].
    assert (Hx : x ∈ started s).
    { apply (wf_running s W). rewrite Hr. apply elem_of_cons. now left. }
    rewrite E in Hx. inversion Hx. }
  split; [exact E|]. split; [exact R|]. split.
  - rewrite (calls_split s W), E. reflexivity.
  - rewrite (wf_count s W), R. reflexivity.
Qed.

Lemma no_capacity_no_start_witness :
  0 <= 0 /\
  let s := run [Acquire; Acquire; Settle 0 true; Acquire] (init 0) in
  started s = [] /\ running s = [] /\ queue (sem s) = calls s /\
  currentCount (sem s) = 0.
Proof.
  assert (H : 0 <= 0) by lia.
  split; [exact H|].
  exact (no_capacity_no_start 0 [Acquire; Acquire; Settle 0 true; Acquire] H).
Defined.

End SemaphoreProgress.

(** * More on the browser pool: who holds which context *)

Module PoolUse.
Import Effects EffectsFacts BrowserPool BrowserPoolFacts.

Lemma renewed_refl w : distinct w -> renewed w w.
Proof.
  intros D. constructor; [exact D|lia|now left|now intros].
Qed.

Lemma renewed_trans w1 w2 w3 : renewed w1 w2 -> renewed w2 w3 -> renewed w1 w3.
Proof.
  intros [D2 N2 A2 K2] [D3 N3 A3 K3]. constructor.
  - exact D3.
  - lia.
  - intros pc H. destruct (A3 pc H) as [H2|(U & C & F)].
    + apply A2, H2.
    + right. repeat split; [exact U|exact C|lia].
  - intros pc H U. apply K3; [apply K2; assumption|exact U].
Qed.

Lemma distinct_view w w' : poolView w' = poolView w -> distinct w -> distinct w'.
Proof.
  unfold poolView. intros [= P N] [D1 D2]. constructor; rewrite ?P, ?N; assumption.
Qed.

Lemma renewed_view w w' : poolView w' = poolView w -> distinct w -> renewed w w'.
Proof.
  intros V D. pose proof (distinct_view w w' V D) as D'.
  unfold poolView in V. injection V as P N.
  constructor; rewrite ?P, ?N; [exact D'|lia|now left|now intros].
Qed.

Lemma usesOk_renewed w w' : renewed w w' -> usesOk w -> usesOk w'.
Proof.
  intros [_ _ A _] U pc H. destruct (A pc H) as [H1|(I & C & _)].
  - apply U, H1.
  - rewrite C. unfold maxContextUses. split; [lia|intros _; lia].
Qed.

Lemma borrowed_spec w c :
  c ∈ borrowed w <-> exists pc, pc ∈ contextPool (pool w) /\ context pc = c /\ inUse pc = true.
Proof.
  unfold borrowed. rewrite list_elem_of_fmap. split.
  - intros (pc & -> & H). apply list_elem_of_In, List.filter_In in H as [H1 H2].
    exists pc. split; [now apply list_elem_of_In|split; [reflexivity|exact H2]].
  - intros (pc & H & <- & U). exists pc. split; [reflexivity|].
    apply list_elem_of_In, List.filter_In. split; [now apply list_elem_of_In|exact U].
Qed.

(** When the pool was only renewed, the contexts in use are the same. *)
Lemma borrowed_renewed w w' c : renewed w w' -> (c ∈ borrowed w' <-> c ∈ borrowed w).
Proof.
  intros [_ _ A K]. rewrite !borrowed_spec. split.
  - intros (pc & H & C & U). destruct (A pc H) as [H1|(I & _)]; [|congruence].
    exists pc. auto.
  - intros (pc & H & C & U). exists pc. auto.
Qed.

Section WithEnv.
Variable env : Env.

Lemma createContext_renewed w :
  distinct w ->
  wp (createContext env)
     (fun r w' =>
        renewed w w' /\
        match r with
        | Return pc =>
            pc ∈ contextPool (pool w') /\ inUse pc = false /\ useCount pc = 0 /\
            (nextContext w <= context pc)%nat
        | Throw _ => True
        | Pending => False
        end) w.
Proof.
  intros D. unfold createContext.
  apply wp_bind, wp_gets. destruct (negb (browser (pool w))).
  { apply wp_throw. split; [apply renewed_refl, D|exact I]. }
  apply wp_bind, wp_await. destruct (browser_newContext env (tick w)); simpl.
  2: { split; [apply renewed_view; [reflexivity|exact D]|exact I]. }
  repeat (wp_step; simpl).
  destruct D as [D1 D2].
  assert (Hin : forall pc,
            pc ∈ contextPool (pool w) ++
                 [mkPooledContext (nextContext w) false (Date_now env (S (tick w)))
                    (Date_now env (S (S (tick w)))) 0] ->
            pc ∈ contextPool (pool w) \/
            (inUse pc = false /\ useCount pc = 0 /\ context pc = nextContext w)).
  { intros pc H. apply elem_of_app in H as [H|H]; [now left|right].
    apply list_elem_of_singleton in H. subst pc. simpl. auto. }
  split; [constructor; simpl|].
  - constructor; simpl.
    + rewrite map_app. simpl. apply NoDup_app. split; [exact D1|]. split.
      * intros x Hx Hx'. apply list_elem_of_singleton in Hx'. subst x.
        apply list_elem_of_fmap in Hx as (pc & E & Hpc).
        specialize (D2 pc Hpc). lia.
      * apply NoDup_singleton.
    + intros pc H. destruct (Hin pc H) as [H1|(_ & _ & ->)]; [|lia].
      specialize (D2 pc H1). lia.
  - lia.
  - intros pc H. destruct (Hin pc H) as [H1|(U & C & E)]; [now left|right].
    rewrite E. auto.
  - intros pc H _. apply elem_of_app. now left.
  - split; [|simpl; auto]. apply elem_of_app. right. apply list_elem_of_singleton.
    reflexivity.
Qed.

Lemma indexOfContext_Some c l i :
  indexOfContext c l = Some i -> exists pc, l !! i = Some pc /\ context pc = c.
Proof.
  revert i. induction l as [|x l IH]; intros i; simpl; [discriminate|].
  destruct (Nat.eqb_spec (context x) c) as [E|E].
  - intros [= <-]. exists x. split; [reflexivity|exact E].
  - destruct (indexOfContext c l) as [j|]; [|discriminate].
    intros [= <-]. apply (IH j eq_refl).
Qed.

Lemma indexOfContext_None c l :
  indexOfContext c l = None -> forall pc, pc ∈ l -> context pc <> c.
Proof.
  induction l as [|x l IH]; simpl; intros H pc Hin; [inversion Hin|].
  destruct (Nat.eqb_spec (context x) c) as [E|E]; [discriminate|].
  destruct (indexOfContext c l); [discriminate|].
  apply elem_of_cons in Hin as [->|Hin]; [exact E|now apply IH].
Qed.

(** Without the entry at [i]: what is left was there, once, and is not the
    context of that entry. *)
Lemma delete_distinct (l : list PooledContext) i pc :
  NoDup (map context l) -> l !! i = Some pc ->
  NoDup (map context (delete i l)) /\
  (forall x, x ∈ delete i l -> x ∈ l /\ context x <> context pc) /\
  (forall x, x ∈ l -> context x <> context pc -> x ∈ delete i l).
Proof.
  intros ND Hi.
  assert (E : l = take i l ++ pc :: drop (S i) l) by (symmetry; now apply take_drop_middle).
  rewrite delete_take_drop.
  rewrite E in ND. rewrite map_app in ND. simpl in ND.
  apply NoDup_app in ND as (N1 & N2 & N3). apply NoDup_cons in N3 as [N3 N4].
  split; [|split].
  - rewrite map_app. apply NoDup_app. split; [exact N1|]. split; [|exact N4].
    intros x Hx Hx'. apply (N2 x Hx). apply elem_of_cons. now right.
  - intros x Hx. split.
    + rewrite E. apply elem_of_app in Hx as [Hx|Hx]; apply elem_of_app;
        [now left|right; apply elem_of_cons; now right].
    + intros Ec. apply elem_of_app in Hx as [Hx|Hx].
      * apply (N2 (context x)); [apply list_elem_of_fmap; eauto|].
        rewrite Ec. apply elem_of_cons. now left.
      * apply N3. rewrite <- Ec. apply list_elem_of_fmap. eauto.
  - intros x Hx Hc. rewrite E in Hx. apply elem_of_app in Hx as [Hx|Hx];
      apply elem_of_app; [now left|].
    apply elem_of_cons in Hx as [->|Hx]; [contradiction|now right].
Qed.

Lemma replaceContext_renewed pc w :
  distinct w ->
  (forall x, x ∈ contextPool (pool w) -> context x = context pc -> inUse x = false) ->
  wp (replaceContext env pc)
     (fun r w' =>
        r = Return tt /\ renewed w w' /\
        forall x, x ∈ contextPool (pool w') -> x ∈ contextPool (pool w) ->
                  context x <> context pc) w.
Proof.
  intros D Free. unfold replaceContext. apply wp_bind, wp_gets.
  destruct (indexOfContext (context pc) (contextPool (pool w))) as [index|] eqn:I.
  2: { apply wp_ret. split; [reflexivity|]. split; [apply renewed_refl, D|].
       intros x _ Hx. eapply indexOfContext_None; eassumption. }
  apply indexOfContext_Some in I as (old & Hold & Eold).
  destruct (delete_distinct (contextPool (pool w)) index old (distinct_nodup w D) Hold)
    as (ND & Sub & Sup).
  rewrite Eold in Sub, Sup.
  assert (K : forall w1, poolView w1 = poolView w ->
            wp (setContextPool (delete index) ;;
                p <- gets pool ;;
                if Z.of_nat (length (contextPool p)) <? maxPoolSize p
                then tryCatch (createContext env ;; ret tt)
                       (fun e => emit (EvWarn ("Failed to create replacement context: "
                                               +:+ messageOr "undefined" e)))
                else ret tt)%js
               (fun r w' =>
                  r = Return tt /\ renewed w w' /\
                  forall x, x ∈ contextPool (pool w') -> x ∈ contextPool (pool w) ->
                            context x <> context pc) w1).
  { intros w1 V. unfold poolView in V. injection V as P1 N1.
    apply wp_bind. unfold setContextPool. apply wp_modify.
    set (w2 := setPool _ w1).
    assert (P2 : contextPool (pool w2) = delete index (contextPool (pool w)))
      by (unfold w2; simpl; now rewrite P1).
    assert (N2 : nextContext w2 = nextContext w) by exact N1.
    assert (D2 : distinct w2).
    { constructor; rewrite ?P2, ?N2; [exact ND|].
      intros x Hx. apply (distinct_known w D), Sub, Hx. }
    assert (R2 : renewed w w2).
    { constructor; rewrite ?P2, ?N2; [exact D2|lia| |].
      - intros x Hx. left. apply Sub, Hx.
      - intros x Hx U. apply Sup; [exact Hx|]. intros E.
        rewrite (Free x Hx E) in U. discriminate. }
    assert (G2 : forall x, x ∈ contextPool (pool w2) -> x ∈ contextPool (pool w) ->
                           context x <> context pc).
    { intros x Hx _. rewrite P2 in Hx. apply Sub, Hx. }
    clearbody w2.
    apply wp_bind, wp_gets.
    destruct (Z.of_nat (length (contextPool (pool w2))) <? maxPoolSize (pool w2)).
    2: { apply wp_ret. auto. }
    apply wp_tryCatch, wp_bind.
    eapply wp_mono; [apply (createContext_renewed w2 D2)|].
    intros r w3 [R3 Hr].
    assert (R : renewed w w3) by (eapply renewed_trans; eassumption).
    assert (G3 : forall x, x ∈ contextPool (pool w3) -> x ∈ contextPool (pool w) ->
                           context x <> context pc).
    { intros x Hx Hw. destruct (renewed_new w2 w3 R3 x Hx) as [H2|(_ & _ & F)].
      - now apply G2.
      - pose proof (distinct_known w D x Hw). lia. }
    destruct r as [a|e|].
    - apply wp_ret. auto.
    - apply wp_emit. split; [reflexivity|]. split; [|exact G3].
      eapply renewed_trans; [exact R|]. apply renewed_view; [reflexivity|].
      apply (renewed_distinct w w3 R).
    - (* the promise of [newContext] settles *)
      exfalso. exact Hr. }
  apply wp_bind, wp_tryCatch, wp_bind, wp_emit, wp_await.
  destruct (context_close env (tick _)); [apply K; reflexivity|].
  apply wp_ret. apply K. reflexivity.
Qed.

Lemma same_context (l : list PooledContext) x y :
  NoDup (map context l) -> x ∈ l -> y ∈ l -> context x = context y -> x = y.
Proof.
  induction l as [|z l IH]; simpl; intros ND Hx Hy E; [inversion Hx|].
  apply NoDup_cons in ND as [N1 N2].
  apply elem_of_cons in Hx as [->|Hx]; apply elem_of_cons in Hy as [->|Hy].
  - reflexivity.
  - exfalso. apply N1. rewrite E. apply list_elem_of_fmap. eauto.
  - exfalso. apply N1. rewrite <- E. apply list_elem_of_fmap. eauto.
  - now apply IH.
Qed.

Lemma replaceAll_renewed (stale : list PooledContext) w :
  distinct w ->
  (forall pc, pc ∈ stale -> forall x, x ∈ contextPool (pool w) ->
              context x = context pc -> inUse x = false) ->
  wp (forEach stale (replaceContext env))
     (fun r w' => r = Return tt /\ renewed w w') w.
Proof.
  revert w. induction stale as [|pc stale IH]; intros w D Free; simpl.
  - apply wp_ret. split; [reflexivity|apply renewed_refl, D].
  - apply wp_bind. eapply wp_mono.
    + apply (replaceContext_renewed pc w D). apply Free, elem_of_cons. now left.
    + intros r w1 (-> & R1 & _). eapply wp_mono.
      * apply IH; [apply (renewed_distinct w w1 R1)|].
        intros pc' Hpc' x Hx E.
        destruct (renewed_new w w1 R1 x Hx) as [H1|(U & _)]; [|exact U].
        apply (Free pc'); [apply elem_of_cons; now right|exact H1|exact E].
      * simpl. intros r w2 [-> R2]. split; [reflexivity|].
        eapply renewed_trans; eassumption.
Qed.

Lemma cleanupStaleContexts_renewed w :
  distinct w ->
  wp (cleanupStaleContexts env) (fun r w' => r = Return tt /\ renewed w w') w.
Proof.
  intros D. unfold cleanupStaleContexts. apply wp_bind, wp_ask, wp_bind, wp_gets.
  assert (D1 : distinct (ticked w)) by (apply (distinct_view w); [reflexivity|exact D]).
  eapply wp_mono.
  - apply (replaceAll_renewed _ (ticked w) D1).
    intros pc Hpc x Hx E. simpl in Hx.
    apply list_elem_of_In, List.filter_In in Hpc as [Hin Hst]. simpl in Hin.
    apply andb_true_iff in Hst as [Hst _]. apply negb_true_iff in Hst.
    assert (x = pc) as ->; [|exact Hst].
    apply (same_context (contextPool (pool w)));
      [apply (distinct_nodup w D)|exact Hx|now apply list_elem_of_In|exact E].
  - simpl. intros r w' [-> R]. split; [reflexivity|].
    eapply renewed_trans; [|exact R]. apply renewed_view; [reflexivity|exact D].
Qed.

Lemma elem_of_insertByLastUsed pc l x :
  x ∈ insertByLastUsed pc l <-> x = pc \/ x ∈ l.
Proof.
  induction l as [|y l IH]; simpl.
  - rewrite list_elem_of_singleton. split; [now left|]. intros [H|H]; [exact H|inversion H].
  - destruct (lastUsedAt pc <=? lastUsedAt y).
    + rewrite elem_of_cons. reflexivity.
    + rewrite !elem_of_cons, IH. tauto.
Qed.

Lemma elem_of_sortByLastUsed l x : x ∈ sortByLastUsed l <-> x ∈ l.
Proof.
  induction l as [|y l IH]; simpl; [reflexivity|].
  rewrite elem_of_insertByLastUsed, IH, elem_of_cons. reflexivity.
Qed.

Lemma map_context_updateContext c f l :
  (forall pc, context (f pc) = context pc) ->
  map context (updateContext c f l) = map context l.
Proof.
  intros Hf. unfold updateContext. rewrite map_map. apply map_ext.
  intros pc. destruct (Nat.eqb (context pc) c); [apply Hf|reflexivity].
Qed.

Lemma elem_of_updateContext c f l x :
  x ∈ updateContext c f l <->
  exists y, y ∈ l /\ x = if Nat.eqb (context y) c then f y else y.
Proof.
  unfold updateContext. rewrite list_elem_of_fmap. split; intros (y & H1 & H2); eauto.
Qed.

(** The three assignments that mark the entry of [pc] as in use. *)
Lemma mark_handedOut w2 w3 pc now :
  distinct w2 -> pc ∈ contextPool (pool w2) -> inUse pc = false ->
  nextContext w3 = nextContext w2 ->
  contextPool (pool w3) =
    updateContext (context pc)
      (fun pc => mkPooledContext (context pc) true (createdAt pc) now (useCount pc + 1))
      (contextPool (pool w2)) ->
  handedOut w2 w3 (context pc).
Proof.
  intros D Hpc Hfree N P.
  assert (Same : forall y, y ∈ contextPool (pool w2) -> context y = context pc -> y = pc).
  { intros y Hy E. apply (same_context (contextPool (pool w2)));
      [apply (distinct_nodup w2 D)|exact Hy|exact Hpc|exact E]. }
  constructor.
  - constructor; rewrite ?P, ?N.
    + rewrite map_context_updateContext by reflexivity. apply (distinct_nodup w2 D).
    + intros x Hx. apply elem_of_updateContext in Hx as (y & Hy & ->).
      pose proof (distinct_known w2 D y Hy).
      destruct (Nat.eqb (context y) (context pc)); simpl; lia.
  - rewrite borrowed_spec. intros (y & Hy & E & U).
    rewrite (Same y Hy E) in U. congruence.
  - intros x. rewrite !borrowed_spec. rewrite P. split.
    + intros (z & Hz & <- & U). apply elem_of_updateContext in Hz as (y & Hy & ->).
      destruct (Nat.eqb_spec (context y) (context pc)) as [E|E]; simpl in *.
      * now left.
      * right. exists y. auto.
    + intros [->|(y & Hy & <- & U)].
      * eexists. split; [apply elem_of_updateContext; exists pc; split;
                           [exact Hpc|reflexivity]|].
        rewrite Nat.eqb_refl. simpl. auto.
      * destruct (Nat.eqb_spec (context y) (context pc)) as [E|E].
        { rewrite (Same y Hy E) in U. congruence. }
        exists y. split; [|auto]. apply elem_of_updateContext. exists y.
        split; [exact Hy|]. apply Nat.eqb_neq in E. now rewrite E.
  - intros U x Hx. rewrite P in Hx. apply elem_of_updateContext in Hx as (y & Hy & ->).
    destruct (Nat.eqb_spec (context y) (context pc)) as [E|E]; [|apply U, Hy].
    rewrite (Same y Hy E). destruct (U pc Hpc) as [U1 U2]. specialize (U2 Hfree).
    simpl. split; [lia|discriminate].
Qed.

Lemma handedOut_after w w2 w3 c : renewed w w2 -> handedOut w2 w3 c -> handedOut w w3 c.
Proof.
  intros R [D F B U]. constructor.
  - exact D.
  - now rewrite <- (borrowed_renewed w w2 c R).
  - intros x. rewrite B, (borrowed_renewed w w2 x R). reflexivity.
  - intros Uw. apply U. eapply usesOk_renewed; eassumption.
Qed.

Lemma getContext_handedOut w :
  distinct w ->
  wp (getContext env)
     (fun r w' =>
        match r with
        | Return c => handedOut w w' c
        | Throw _ => renewed w w'
        | Pending => False
        end) w.
Proof.
  intros D. unfold getContext.
  apply wp_bind, wp_emit. set (w0 := mkWorld _ _ _ _ _).
  assert (R0 : renewed w w0) by (apply renewed_view; [reflexivity|exact D]).
  apply wp_bind, wp_gets.
  destruct (negb (browser (pool w0))); [apply wp_throw; exact R0|].
  apply wp_bind. eapply wp_mono;
    [apply (cleanupStaleContexts_renewed w0 (renewed_distinct w w0 R0))|].
  intros r w1 [-> R1'].
  assert (R1 : renewed w w1) by (eapply renewed_trans; eassumption).
  clear R1' R0. clearbody w0.
  assert (Fin : forall w2 pc,
            renewed w w2 -> pc ∈ contextPool (pool w2) -> inUse pc = false ->
            wp (now <- ask (Date_now env) ;;
                setContextPool
                  (updateContext (context pc)
                     (fun pc => mkPooledContext (context pc) true (createdAt pc) now
                                                (useCount pc + 1))) ;;
                ret (context pc))%js
               (fun r w' =>
                  match r with
                  | Return c => handedOut w w' c
                  | Throw _ => renewed w w'
                  | Pending => False
                  end) w2).
  { intros w2 pc R2 Hpc Hfree. apply wp_bind, wp_ask, wp_bind.
    unfold setContextPool. apply wp_modify, wp_ret.
    eapply handedOut_after; [exact R2|].
    eapply mark_handedOut; [apply (renewed_distinct w w2 R2)|exact Hpc|exact Hfree
                            |reflexivity|reflexivity]. }
  apply wp_bind, wp_gets, wp_bind.
  destruct (List.find available (contextPool (pool w1))) as [pc|] eqn:Hfind.
  - apply List.find_some in Hfind as [Hin Hav]. apply negb_true_iff in Hav.
    apply wp_ret, wp_bind, wp_ret. apply Fin; [exact R1|now apply list_elem_of_In|exact Hav].
  - destruct (Z.of_nat (length (contextPool (pool w1))) <? maxPoolSize (pool w1)).
    + apply wp_bind. eapply wp_mono;
        [apply (createContext_renewed w1 (renewed_distinct w w1 R1))|].
      intros r w2 [R2' Hr].
      assert (R2 : renewed w w2) by (eapply renewed_trans; eassumption).
      destruct r as [pc|e|]; [|exact R2|exact Hr].
      destruct Hr as (Hin & Hfree & _).
      apply wp_ret, wp_bind, wp_ret. apply Fin; assumption.
    + apply wp_ret, wp_bind, wp_bind, wp_gets.
      destruct (sortByLastUsed (List.filter available (contextPool (pool w1))))
        as [|pc rest] eqn:Hsort.
      * apply wp_throw. exact R1.
      * assert (Hpc : pc ∈ List.filter available (contextPool (pool w1))).
        { apply elem_of_sortByLastUsed. rewrite Hsort. apply elem_of_cons. now left. }
        apply list_elem_of_In, List.filter_In in Hpc as [Hin Hav].
        apply negb_true_iff in Hav.
        apply wp_ret. apply Fin; [exact R1|now apply list_elem_of_In|exact Hav].
Qed.

Lemma closePages_keeps_view (xs : list nat) w :
  wp (forEach xs (fun _ => tryCatch (emit EvClosePage ;; await (page_close env))
                                    (fun _ => ret tt)))
     (fun r w' => r = Return tt /\ poolView w' = poolView w) w.
Proof.
  revert w. induction xs as [|x xs IH]; intros w; simpl.
  - apply wp_ret. split; reflexivity.
  - apply wp_bind, wp_tryCatch, wp_bind, wp_emit, wp_await.
    destruct (page_close env _); [|apply wp_ret];
      (eapply wp_mono; [apply IH|]); simpl; intros r w' [-> Hp]; split;
      try reflexivity; exact Hp.
Qed.

Lemma releaseContext_givenBack c w :
  distinct w ->
  wp (releaseContext env c) (fun r w' => r = Return tt /\ givenBack w w' c) w.
Proof.
  intros D. unfold releaseContext. apply wp_bind, wp_emit, wp_bind, wp_gets. simpl.
  destruct (List.find _ _) as [pooled|] eqn:Hfind.
  2: { apply wp_emit. split; [reflexivity|].
       assert (R : renewed w (mkWorld (pool w) (stats w)
                                ((log w ++ [EvReleaseContext c]) ++
                                 [EvWarn "Attempted to release unknown context"])
                                (tick w) (nextContext w)))
         by (apply renewed_view; [reflexivity|exact D]).
       constructor.
       - apply (renewed_distinct _ _ R).
       - intros x. rewrite (borrowed_renewed _ _ x R). split; [|tauto].
         intros Hx. split; [exact Hx|]. intros ->.
         apply borrowed_spec in Hx as (pc & Hpc & E & _).
         apply list_elem_of_In in Hpc.
         pose proof (List.find_none _ _ Hfind pc Hpc) as F. simpl in F.
         rewrite E, Nat.eqb_refl in F. discriminate.
       - apply usesOk_renewed, R. }
  apply List.find_some in Hfind as [Hin Hc].
  apply list_elem_of_In in Hin. apply Nat.eqb_eq in Hc.
  assert (Same : forall y, y ∈ contextPool (pool w) -> context y = c -> y = pooled).
  { intros y Hy E. apply (same_context (contextPool (pool w)));
      [apply (distinct_nodup w D)|exact Hy|exact Hin|congruence]. }
  apply wp_bind, wp_ask, wp_bind.
  eapply wp_mono; [apply closePages_keeps_view|].
  simpl. intros r w1 [-> V1]. unfold poolView in V1. simpl in V1. injection V1 as P1 N1.
  apply wp_bind. unfold setContextPool. apply wp_modify.
  set (w2 := setPool _ w1).
  assert (P2 : contextPool (pool w2) =
               updateContext c
                 (fun pc => mkPooledContext (context pc) false (createdAt pc)
                              (lastUsedAt pc) (useCount pc))
                 (contextPool (pool w)))
    by (unfold w2; simpl; now rewrite P1).
  assert (N2 : nextContext w2 = nextContext w) by exact N1.
  clearbody w2. clear P1 N1 w1.
  assert (D2 : distinct w2).
  { constructor; rewrite ?P2, ?N2.
    - rewrite map_context_updateContext by reflexivity. apply (distinct_nodup w D).
    - intros x Hx. apply elem_of_updateContext in Hx as (y & Hy & ->).
      pose proof (distinct_known w D y Hy).
      destruct (Nat.eqb (context y) c); simpl; lia. }
  assert (B2 : forall x, x ∈ borrowed w2 <-> x ∈ borrowed w /\ x <> c).
  { intros x. rewrite !borrowed_spec, P2. split.
    - intros (z & Hz & <- & U). apply elem_of_updateContext in Hz as (y & Hy & ->).
      destruct (Nat.eqb_spec (context y) c) as [E|E]; simpl in *; [discriminate|].
      split; [exists y; auto|exact E].
    - intros [(y & Hy & <- & U) E]. exists y. split; [|auto].
      apply elem_of_updateContext. exists y. split; [exact Hy|].
      apply Nat.eqb_neq in E. now rewrite E. }
  assert (Free2 : forall x, x ∈ contextPool (pool w2) -> context x = context pooled ->
                            inUse x = false).
  { intros x Hx E. rewrite P2 in Hx. apply elem_of_updateContext in Hx as (y & Hy & ->).
    destruct (Nat.eqb_spec (context y) c) as [E'|E']; [reflexivity|].
    congruence. }
  destruct (Z.leb_spec maxContextUses (useCount pooled)) as [Hmany|Hfew].
  - eapply wp_mono; [apply (replaceContext_renewed pooled w2 D2 Free2)|].
    simpl. intros r w3 (-> & R3 & Gone). split; [reflexivity|]. constructor.
    + apply (renewed_distinct _ _ R3).
    + intros x. rewrite (borrowed_renewed _ _ x R3). apply B2.
    + intros U x Hx. destruct (renewed_new _ _ R3 x Hx) as [H2|(I & C & _)].
      * pose proof (Gone x Hx H2) as Hne. rewrite P2 in H2.
        apply elem_of_updateContext in H2 as (y & Hy & ->).
        destruct (Nat.eqb_spec (context y) c) as [E|E]; [|apply U, Hy].
        simpl in Hne. congruence.
      * rewrite C. unfold maxContextUses. split; [lia|intros _; lia].
  - apply wp_ret. split; [reflexivity|]. constructor; [exact D2|exact B2|].
    intros U x Hx. rewrite P2 in Hx. apply elem_of_updateContext in Hx as (y & Hy & ->).
    destruct (Nat.eqb_spec (context y) c) as [E|E]; [|apply U, Hy].
    rewrite (Same y Hy E). destruct (U pooled Hin) as [U1 _]. simpl.
    split; [exact U1|intros _; exact Hfew].
Qed.

Lemma renewed_same w w' :
  contextPool (pool w') = contextPool (pool w) -> nextContext w' = nextContext w ->
  distinct w -> renewed w w'.
Proof.
  intros P N [D1 D2].
  constructor; [constructor|..]; rewrite ?P, ?N; auto.
Qed.

Lemma initialize_renewed w :
  distinct w -> wp (initialize env) (fun r w' => r <> Pending /\ renewed w w') w.
Proof.
  intros D. unfold initialize. apply wp_bind, wp_emit, wp_bind, wp_await.
  destruct (chromium_launch env _).
  2: { split; [discriminate|]. apply renewed_same; [reflexivity|reflexivity|exact D]. }
  apply wp_bind. unfold setBrowser. apply wp_modify. set (w1 := setPool _ _).
  assert (R1 : renewed w w1) by (apply renewed_same; [reflexivity|reflexivity|exact D]).
  clearbody w1. apply wp_bind.
  eapply wp_mono; [apply (createContext_renewed w1 (renewed_distinct _ _ R1))|].
  intros r w2 [R2 Hr].
  assert (R : renewed w w2) by (eapply renewed_trans; eassumption).
  destruct r; [apply wp_ret|..]; try (split; [discriminate|exact R]). contradiction.
Qed.

Lemma closeContexts_keeps_view (l : list PooledContext) w :
  wp (forEach l (fun pc => tryCatch (emit (EvCloseContext (context pc)) ;;
                                     await (context_close env))
                                    (fun _ => ret tt)))
     (fun r w' => r = Return tt /\ poolView w' = poolView w) w.
Proof.
  revert w. induction l as [|x l IH]; intros w; simpl.
  - apply wp_ret. split; reflexivity.
  - apply wp_bind, wp_tryCatch, wp_bind, wp_emit, wp_await.
    destruct (context_close env _); [|apply wp_ret];
      (eapply wp_mono; [apply IH|]); simpl; intros r w' [-> Hp]; split;
      try reflexivity; exact Hp.
Qed.

Lemma cleanup_clears w :
  wp (cleanup env)
     (fun r w' => r = Return tt /\ contextPool (pool w') = [] /\
                  nextContext w' = nextContext w) w.
Proof.
  unfold cleanup. apply wp_tryCatch, wp_bind, wp_gets, wp_bind.
  eapply wp_mono; [apply closeContexts_keeps_view|].
  simpl. intros r w1 [-> V1]. unfold poolView in V1. injection V1 as P1 N1.
  apply wp_bind. unfold setContextPool, setBrowser. apply wp_modify.
  apply wp_bind, wp_gets. simpl. rewrite P1.
  destruct (browser (pool w)).
  - apply wp_bind, wp_emit, wp_bind, wp_await.
    destruct (browser_close env _); repeat (wp_step; simpl); rewrite ?N1; auto.
  - apply wp_ret. simpl. auto.
Qed.

Lemma distinct_empty w : contextPool (pool w) = [] -> distinct w /\ usesOk w.
Proof.
  intros E. split; [constructor|]; try intros pc; rewrite ?E; simpl;
    try apply NoDup_nil_2; intros H; inversion H.
Qed.

(** Every public operation keeps the entries of the pool distinct and
    their counts of uses within the limit. *)
Lemma call_poolOk o w :
  distinct w /\ usesOk w -> distinct (call env o w) /\ usesOk (call env o w).
Proof.
  intros [D U]. destruct o as [| |c|]; simpl.
  - destruct (initialize_renewed w D) as [_ R].
    split; [apply (renewed_distinct _ _ R)|eapply usesOk_renewed; eassumption].
  - pose proof (getContext_handedOut w D) as H. unfold wp in H.
    destruct (fst (getContext env w)) as [c|e|]; [| |contradiction].
    + split; [apply (handed_distinct _ _ _ H)|apply (handed_uses _ _ _ H U)].
    + split; [apply (renewed_distinct _ _ H)|eapply usesOk_renewed; eassumption].
  - destruct (releaseContext_givenBack c w D) as [_ H].
    split; [apply (back_distinct _ _ _ H)|apply (back_uses _ _ _ H U)].
  - destruct (cleanup_clears w) as (_ & E & _). apply distinct_empty, E.
Qed.

Lemma calls_poolOk ops w :
  distinct w /\ usesOk w -> distinct (calls env ops w) /\ usesOk (calls env ops w).
Proof.
  revert w. induction ops as [|o ops IH]; intros w H; simpl; [exact H|].
  apply IH, call_poolOk, H.
Qed.

Lemma newWorld_poolOk config : distinct (newWorld config) /\ usesOk (newWorld config).
Proof. apply distinct_empty. reflexivity. Qed.

Lemma NoDup_borrowed w : distinct w -> NoDup (borrowed w).
Proof.
  intros [D _]. unfold borrowed. revert D.
  induction (contextPool (pool w)) as [|pc l IH]; simpl; intros D; [constructor|].
  apply NoDup_cons in D as [D1 D2]. destruct (inUse pc); simpl; [|now apply IH].
  apply NoDup_cons. split; [|now apply IH].
  intros H. apply D1. apply list_elem_of_fmap in H as (x & E & Hx).
  apply list_elem_of_fmap. exists x. split; [exact E|].
  apply list_elem_of_In, List.filter_In in Hx as [Hx _]. now apply list_elem_of_In.
Qed.

(** [getContext] never hands out a context that is in use.  In every
    state a pool reaches through its public operations, a context that
    [getContext] returns was not in use before the call; after the call it
    is, next to the contexts that were in use before, and no context is
    held twice. *)
Theorem context_handed_out_was_free (config : ConfigOptions) (ops : list op)
    (c : nat) (w' : World) :
  let w := calls env ops (newWorld config) in
  getContext env w = (Return c, w') ->
  (c ∉ borrowed w) /\
  (forall x, x ∈ borrowed w' <-> x = c \/ x ∈ borrowed w) /\
  NoDup (borrowed w').
Proof.
  intros w Hget.
  destruct (calls_poolOk ops (newWorld config) (newWorld_poolOk config)) as [D _].
  fold w in D. pose proof (getContext_handedOut w D) as H. unfold wp in H.
  rewrite Hget in H. simpl in H. destruct H as [D' F B _].
  split; [exact F|]. split; [exact B|apply NoDup_borrowed, D'].
Qed.

(** [releaseContext] never throws, also when the context is unknown or a
    page or the context cannot be closed; after it the context is not in
    use, and the other contexts that were in use still are. *)
Theorem context_released_is_free (config : ConfigOptions) (ops : list op) (c : nat) :
  let w := calls env ops (newWorld config) in
  let out := releaseContext env c w in
  fst out = Return tt /\
  forall x, x ∈ borrowed (snd out) <-> x ∈ borrowed w /\ x <> c.
Proof.
  intros w out.
  destruct (calls_poolOk ops (newWorld config) (newWorld_poolOk config)) as [D _].
  destruct (releaseContext_givenBack c _ D) as [Hr [_ B _]].
  split; [exact Hr|exact B].
Qed.


(** Releasing a context the pool does not hold changes nothing but the
    log, where a warning is left. *)
Theorem unknown_context_released (c : nat) (w : World) :
  c ∉ map context (contextPool (pool w)) ->
  releaseContext env c w =
  (Return tt,
   mkWorld (pool w) (stats w)
     (log w ++ [EvReleaseContext c; EvWarn "Attempted to release unknown context"])
     (tick w) (nextContext w)).
Proof.
  intros Hc. unfold releaseContext, bind, emit, modify, gets. simpl.
  destruct (List.find _ _) as [pc|] eqn:Hfind.
  - exfalso. apply List.find_some in Hfind as [Hin E]. apply Nat.eqb_eq in E.
    apply Hc. apply list_elem_of_fmap. exists pc. split; [now symmetry|].
    now apply list_elem_of_In.
  - unfold emit, modify. simpl. rewrite <- app_assoc. reflexivity.
Qed.

Lemma closeContexts_log (l : list PooledContext) w :
  wp (forEach l (fun pc => tryCatch (emit (EvCloseContext (context pc)) ;;
                                     await (context_close env))
                                    (fun _ => ret tt)))
     (fun r w' => r = Return tt /\ poolView w' = poolView w /\
                  logged isCloseContext w' =
                  logged isCloseContext w ++
                  map (fun pc => EvCloseContext (context pc)) l) w.
Proof.
  revert w. induction l as [|x l IH]; intros w; simpl.
  - apply wp_ret. rewrite app_nil_r. auto.
  - apply wp_bind, wp_tryCatch, wp_bind, wp_emit, wp_await.
    destruct (context_close env _); [|apply wp_ret];
      (eapply wp_mono; [apply IH|]); simpl; intros r w' (-> & Hp & Hl);
      (split; [reflexivity|]); (split; [exact Hp|]); rewrite Hl;
      unfold logged; simpl; rewrite List.filter_app, <- app_assoc; reflexivity.
Qed.

(** [cleanup] never throws; it asks every context of the pool to close,
    in the order of the pool, and leaves the pool empty, also when a context
    or the browser cannot be closed. *)
Theorem cleanup_closes_every_context (w : World) :
  let out := cleanup env w in
  fst out = Return tt /\
  contextPool (pool (snd out)) = [] /\
  logged isCloseContext (snd out) =
    logged isCloseContext w ++
    map (fun pc => EvCloseContext (context pc)) (contextPool (pool w)).
Proof.
  cbv zeta. change (wp (cleanup env)
    (fun r w' => r = Return tt /\ contextPool (pool w') = [] /\
       logged isCloseContext w' =
       logged isCloseContext w ++
       map (fun pc => EvCloseContext (context pc)) (contextPool (pool w))) w).
  unfold cleanup. apply wp_tryCatch, wp_bind, wp_gets, wp_bind.
  eapply wp_mono; [apply closeContexts_log|].
  simpl. intros r w1 (-> & V1 & L1). unfold poolView in V1. injection V1 as P1 N1.
  apply wp_bind. unfold setContextPool, setBrowser. apply wp_modify.
  apply wp_bind, wp_gets. simpl. rewrite P1.
  destruct (browser (pool w)).
  - apply wp_bind, wp_emit, wp_bind, wp_await.
    destruct (browser_close env _); repeat (wp_step; simpl);
      (split; [reflexivity|]); (split; [reflexivity|]);
      unfold logged in *; simpl; rewrite ?List.filter_app; simpl;
      rewrite ?app_nil_r; exact L1.
  - apply wp_ret. simpl. auto.
Qed.

Lemma filter_all_false {A} (f : A -> bool) (l : list A) :
  Forall (fun x => f x = false) l -> List.filter f l = [].
Proof.
  induction 1 as [|x l Hx _ IH]; simpl; [reflexivity|]. now rewrite Hx.
Qed.

Lemma find_all_false {A} (f : A -> bool) (l : list A) :
  Forall (fun x => f x = false) l -> List.find f l = None.
Proof.
  induction 1 as [|x l Hx _ IH]; simpl; [reflexivity|]. now rewrite Hx.
Qed.

(** A pool whose contexts are all taken does not wait and reuses nothing.
    When the browser runs, every context of the pool is in use and the pool
    is at its limit, [getContext] throws; nothing is created or closed, and
    no context is handed out a second time: the search for the least
    recently used context looks among the contexts that are not in use,
    and there is none. *)
Theorem exhausted_pool_throws (w : World) :
  browser (pool w) = true ->
  Forall (fun pc => inUse pc = true) (contextPool (pool w)) ->
  maxPoolSize (pool w) <= Z.of_nat (length (contextPool (pool w))) ->
  getContext env w =
  (Throw (ErrorObj "No browser contexts available and pool is at capacity"),
   mkWorld (pool w) (stats w) (log w ++ [EvGetContext]) (S (tick w)) (nextContext w)).
Proof.
  intros Hb Hall Hmax.
  assert (Hst : forall now,
            List.filter
              (fun pc => negb (inUse pc) &&
                 ((contextLifetime <? now - createdAt pc) ||
                  (maxContextUses <=? useCount pc)))
              (contextPool (pool w)) = []).
  { intros now. apply filter_all_false. eapply Forall_impl; [exact Hall|].
    simpl. intros pc ->. reflexivity. }
  assert (Hav : Forall (fun pc => available pc = false) (contextPool (pool w))).
  { eapply Forall_impl; [exact Hall|]. unfold available. simpl. intros pc ->. reflexivity. }
  unfold getContext, cleanupStaleContexts, bind, emit, modify, gets, ask, nextTick, ret,
    throw. simpl. rewrite Hb. simpl. rewrite Hst. simpl.
  rewrite (find_all_false _ _ Hav).
  destruct (Z.ltb_spec (Z.of_nat (length (contextPool (pool w)))) (maxPoolSize (pool w)));
    [lia|]. simpl. rewrite (filter_all_false _ _ Hav). reflexivity.
Qed.

End WithEnv.

Lemma context_handed_out_was_free_witness :
  let w := calls Examples.calm [Initialize; GetContext] (newWorld Examples.options) in
  let w' := snd (getContext Examples.calm w) in
  getContext Examples.calm w = (Return 1%nat, w') /\
  (1%nat ∉ borrowed w) /\
  (forall x, x ∈ borrowed w' <-> x = 1%nat \/ x ∈ borrowed w) /\
  NoDup (borrowed w').
Proof.
  cbv zeta.
  assert (H : getContext Examples.calm
                (calls Examples.calm [Initialize; GetContext] (newWorld Examples.options))
              = (Return 1%nat,
                 snd (getContext Examples.calm
                        (calls Examples.calm [Initialize; GetContext]
                           (newWorld Examples.options))))) by (vm_compute; reflexivity).
  split; [exact H|].
  exact (context_handed_out_was_free Examples.calm Examples.options
           [Initialize; GetContext] 1%nat _ H).
Defined.

Lemma unknown_context_released_witness :
  (5%nat ∉ map context (contextPool (pool (Examples.ready Examples.calm)))) /\
  releaseContext Examples.calm 5 (Examples.ready Examples.calm) =
  (Return tt,
   mkWorld (pool (Examples.ready Examples.calm)) (stats (Examples.ready Examples.calm))
     (log (Examples.ready Examples.calm)
        ++ [EvReleaseContext 5; EvWarn "Attempted to release unknown context"])
     (tick (Examples.ready Examples.calm)) (nextContext (Examples.ready Examples.calm))).
Proof.
  assert (H : 5%nat ∉ map context (contextPool (pool (Examples.ready Examples.calm)))).
  { intros H. vm_compute in H. inversion H as [|? ? ? H']; inversion H'. }
  split; [exact H|].
  exact (unknown_context_released Examples.calm 5 (Examples.ready Examples.calm) H).
Defined.

Lemma exhausted_pool_throws_witness :
  let w := calls Examples.calm [Initialize; GetContext; GetContext]
             (newWorld Examples.options) in
  (browser (pool w) = true /\
   Forall (fun pc => inUse pc = true) (contextPool (pool w)) /\
   maxPoolSize (pool w) <= Z.of_nat (length (contextPool (pool w)))) /\
  getContext Examples.calm w =
  (Throw (ErrorObj "No browser contexts available and pool is at capacity"),
   mkWorld (pool w) (stats w) (log w ++ [EvGetContext]) (S (tick w)) (nextContext w)).
Proof.
  cbv zeta.
  assert (H1 : browser (pool (calls Examples.calm [Initialize; GetContext; GetContext]
                                (newWorld Examples.options))) = true)
    by (vm_compute; reflexivity).
  assert (H2 : Forall (fun pc => inUse pc = true)
                 (contextPool (pool (calls Examples.calm
                                       [Initialize; GetContext; GetContext]
                                       (newWorld Examples.options)))))
    by (vm_compute; repeat constructor).
  assert (H3 : maxPoolSize (pool (calls Examples.calm [Initialize; GetContext; GetContext]
                                    (newWorld Examples.options)))
               <= Z.of_nat (length (contextPool (pool (calls Examples.calm
                                       [Initialize; GetContext; GetContext]
                                       (newWorld Examples.options))))))
    by (vm_compute; discriminate).
  split; [split; [exact H1|split; [exact H2|exact H3]]|].
  exact (exhausted_pool_throws Examples.calm _ H1 H2 H3).
Defined.

End PoolUse.

(** * The summary of a run, the validation of the options, the page of an image *)

Module SummaryFacts.
Import DownloadService.

Lemma filter_three {A} (f g h : A -> bool) (l : list A) :
  (forall x, (f x && negb (g x) && negb (h x))
             || (negb (f x) && g x && negb (h x))
             || (negb (f x) && negb (g x) && h x) = true) ->
  (length (List.filter f l) + length (List.filter g l) + length (List.filter h l))%nat
  = length l.
Proof.
  intros H. induction l as [|x l IH]; simpl; [reflexivity|].
  specialize (H x). destruct (f x), (g x), (h x); simpl in *; try discriminate; lia.
Qed.

Lemma fold_sizes_nonneg (l : list DownloadResult) (acc : Z) :
  0 <= acc -> Forall (fun r => 0 <= orNumber (size r) 0) l ->
  0 <= fold_left (fun sum r => sum + orNumber (size r) 0) l acc.
Proof.
  revert acc. induction l as [|r l IH]; intros acc Hacc Hl; simpl; [exact Hacc|].
  apply Forall_cons in Hl as [Hr Hl]. apply IH; [lia|exact Hl].
Qed.

(** The summary counts every result exactly once, as downloaded, as failed
    or as skipped; the failed results it lists are the results that did not
    succeed, in the order of the run and as many as it counts; and the
    storage is not negative when no size is. *)
Theorem summary_counts_every_result (results : list DownloadResult) :
  let summary := getDownloadSummary results in
  successful summary + failed summary + skippedCount summary
    = Z.of_nat (length results) /\
  failedResults summary = List.filter (fun r => negb (success r)) results /\
  Z.of_nat (length (failedResults summary)) = failed summary /\
  (Forall (fun r => 0 <= nullish (size r) 0) results -> 0 <= totalStorage summary).
Proof.
  cbv zeta. unfold getDownloadSummary. simpl.
  split; [|split; [reflexivity|split; [reflexivity|]]].
  - rewrite <- !Nat2Z.inj_add. f_equal.
    apply (filter_three
             (fun r => success r && negb (nullish (skipped r) false))
             (fun r => negb (success r))
             (fun r => success r && nullish (skipped r) false)).
    intros r. destruct (success r), (nullish (skipped r) false); reflexivity.
  - intros H. apply fold_sizes_nonneg; [lia|].
    apply Forall_forall. intros r Hr.
    apply list_elem_of_In, List.filter_In in Hr as [Hr _]. apply list_elem_of_In in Hr.
    rewrite Forall_forall in H. specialize (H r Hr).
    unfold orNumber, nullish in *. destruct (size r) as [v|]; [|lia].
    destruct (v =? 0); lia.
Qed.

End SummaryFacts.

Module ConfigFacts.





End ConfigFacts.

Module UrlFacts.

Lemma splitSlash_cons s : exists h t, splitSlash s = h :: t.
Proof.
  induction s as [|c s IH]; simpl; [eauto|].
  destruct (Ascii.eqb c "/"); [eauto|]. destruct IH as (h & t & ->). eauto.
Qed.

Lemma splitSlash_noSlash s : noSlash s = true -> splitSlash s = [s].
Proof.
  induction s as [|c s IH]; simpl; [reflexivity|].
  intros H. apply andb_true_iff in H as [Hc Hs]. apply negb_true_iff in Hc.
  rewrite Hc, (IH Hs). reflexivity.
Qed.

Lemma splitSlash_app u rest :
  noSlash u = true -> splitSlash (u +:+ "/" +:+ rest) = u :: splitSlash rest.
Proof.
  induction u as [|c u IH]; simpl; intros H; [reflexivity|].
  apply andb_true_iff in H as [Hc Hu]. apply negb_true_iff in Hc.
  rewrite Hc, (IH Hu). reflexivity.
Qed.

(** The page a photo is looked up on.  An address in the manifest wins;
    without one, a photo id of the form [user/image] leads to the media
    page of that image, and a photo id without a slash, or one whose two
    parts are the same, leads to the profile of the user. *)
Theorem page_of_a_photo (photoId : string) (imageData : ImageData) :
  (forall url, vsco_url imageData = Some url -> url <> EmptyString ->
     vscoImageUrlOf photoId imageData = url) /\
  (truthyString (vsco_url imageData) = false ->
   forall user image,
     photoId = user +:+ "/" +:+ image ->
     noSlash user = true -> noSlash image = true ->
     user <> EmptyString -> image <> EmptyString ->
     vscoImageUrlOf photoId imageData =
     if String.eqb image user then "https://vsco.co/" +:+ user
     else "https://vsco.co/" +:+ user +:+ "/media/" +:+ image) /\
  (truthyString (vsco_url imageData) = false -> noSlash photoId = true ->
   vscoImageUrlOf photoId imageData = "https://vsco.co/" +:+ photoId).
Proof.
  unfold vscoImageUrlOf, usernameOf. split; [|split].
  - intros url E Hne. rewrite E. simpl.
    destruct (String.eqb_spec url EmptyString); [contradiction|reflexivity].
  - intros Hno user image -> Hu Hi Hune Hine. rewrite Hno.
    rewrite (splitSlash_app user image Hu), (splitSlash_noSlash image Hi). simpl.
    destruct (String.eqb_spec image EmptyString); [contradiction|].
    destruct (String.eqb_spec user EmptyString); [contradiction|]. simpl.
    destruct (String.eqb_spec image EmptyString); [contradiction|]. simpl.
    destruct (String.eqb image user); reflexivity.
  - intros Hno Hid. rewrite Hno, (splitSlash_noSlash photoId Hid). simpl.
    destruct (String.eqb_spec photoId EmptyString) as [->|Hne]; [reflexivity|].
    simpl. rewrite String.eqb_refl.
    destruct (String.eqb photoId EmptyString); reflexivity.
Qed.

End UrlFacts.

Module FileFacts.
Import Effects EffectsFacts.

Section WithEnv.
Variable env : Env.
Variable config : ConfigOptions.

Lemma imageExistsLoop_step dir id ext exts w :
  imageExistsLoop env dir id (ext :: exts) w =
  match fs_pathExists env (tick w) (path_join env dir (id +:+ ext)) with
  | Ok true =>
      match fs_stat env (S (tick w)) (path_join env dir (id +:+ ext)) with
      | Ok bytes =>
          (Return (mkImageExistsResult true (Some (path_join env dir (id +:+ ext)))
                     (Some bytes)), ticked (ticked w))
      | Err e => (Throw e, ticked (ticked w))
      end
  | Ok false => imageExistsLoop env dir id exts (ticked w)
  | Err e => (Throw e, ticked w)
  end.
Proof.
  cbn [imageExistsLoop]. unfold await. unfold bind, nextTick, ret, throw, ticked. simpl.
  destruct (fs_pathExists env (tick w) (path_join env dir (id +:+ ext))) as [[|]|e];
    simpl; try reflexivity.
  destruct (fs_stat env (S (tick w)) (path_join env dir (id +:+ ext))); reflexivity.
Qed.

Lemma imageExistsLoop_first dir id exts w r w' :
  imageExistsLoop env dir id exts w = (Return r, w') ->
  (r = mkImageExistsResult false None None /\
   tick w' = (tick w + length exts)%nat /\
   forall j ext, exts !! j = Some ext ->
     fs_pathExists env (tick w + j) (path_join env dir (id +:+ ext)) = Ok false) \/
  (exists k ext bytes,
     exts !! k = Some ext /\
     (forall j ext', (j < k)%nat -> exts !! j = Some ext' ->
        fs_pathExists env (tick w + j) (path_join env dir (id +:+ ext')) = Ok false) /\
     fs_pathExists env (tick w + k) (path_join env dir (id +:+ ext)) = Ok true /\
     fs_stat env (tick w + k + 1) (path_join env dir (id +:+ ext)) = Ok bytes /\
     r = mkImageExistsResult true (Some (path_join env dir (id +:+ ext))) (Some bytes)).
Proof.
  revert w. induction exts as [|ext exts IH]; intros w.
  - simpl. unfold ret. intros [= <- <-]. left. split; [reflexivity|]. split; [lia|].
    intros j e H. inversion H.
  - rewrite imageExistsLoop_step.
    destruct (fs_pathExists env (tick w) (path_join env dir (id +:+ ext)))
      as [[|]|e] eqn:E; [| |discriminate].
    + destruct (fs_stat env (S (tick w)) (path_join env dir (id +:+ ext)))
        as [bytes|e] eqn:St; [|discriminate].
      intros [= <- <-]. right. exists 0%nat, ext, bytes.
      rewrite !Nat.add_0_r. replace (tick w + 1)%nat with (S (tick w)) by lia.
      repeat split; try assumption. intros j e' Hj. lia.
    + intros H. apply IH in H. simpl in H.
      destruct H as [(-> & Ht & Hall)|(k & e & bytes & Hk & Hbefore & Hex & Hst & ->)].
      * left. split; [reflexivity|]. split; [simpl; lia|].
        intros [|j] e' Hj; simpl in Hj.
        -- injection Hj as <-. now rewrite Nat.add_0_r.
        -- replace (tick w + S j)%nat with (S (tick w + j))%nat by lia. now apply Hall.
      * right. exists (S k), e, bytes. split; [exact Hk|].
        replace (tick w + S k)%nat with (S (tick w + k))%nat by lia.
        repeat split; try assumption.
        intros [|j] e' Hlt Hj; simpl in Hj.
        -- injection Hj as <-. now rewrite Nat.add_0_r.
        -- replace (tick w + S j)%nat with (S (tick w + j))%nat by lia.
           apply Hbefore; [lia|exact Hj].
Qed.

(** [imageExists] looks for the file of a photo under the extensions
    [.jpg], [.jpeg], [.png] and [.webp], in that order, and stops at the
    first one the file system reports: the result carries the path with
    that extension and the size [stat] gives for it, and every extension
    before it was reported absent.  No file is reported only after all four
    were looked for.  [n] is the number of answers taken from the outside
    world before the call. *)
Theorem imageExists_first_extension (dir id : string) (w w' : World)
    (r : ImageExistsResult) :
  downloadDir config = Some dir -> dir <> EmptyString ->
  imageExists env config id w = (Return r, w') ->
  let n := tick w in
  let path ext := path_join env dir (id +:+ ext) in
  (r = mkImageExistsResult false None None /\
   tick w' = (n + 4)%nat /\
   forall j ext, possibleExtensions !! j = Some ext ->
     fs_pathExists env (n + j) (path ext) = Ok false) \/
  (exists k ext bytes,
     possibleExtensions !! k = Some ext /\
     (forall j ext', (j < k)%nat -> possibleExtensions !! j = Some ext' ->
        fs_pathExists env (n + j) (path ext') = Ok false) /\
     fs_pathExists env (n + k) (path ext) = Ok true /\
     fs_stat env (n + k + 1) (path ext) = Ok bytes /\
     r = mkImageExistsResult true (Some (path ext)) (Some bytes)).
Proof.
  intros Hdir Hne. unfold imageExists. rewrite Hdir. unfold truthyString, nullish.
  destruct (String.eqb_spec dir EmptyString); [contradiction|]. cbn [negb].
  unfold bind at 1. cbn [emit modify fst snd].
  intros H. apply imageExistsLoop_first in H. exact H.
Qed.


End WithEnv.

Lemma imageExists_first_extension_witness :
  (downloadDir Examples.options = Some "/d" /\ "/d" <> EmptyString /\
   imageExists Examples.stocked Examples.options "u/a" (Examples.ready Examples.stocked)
   = (Return (mkImageExistsResult true (Some "/d/u/a.jpg") (Some 7)),
      snd (imageExists Examples.stocked Examples.options "u/a"
             (Examples.ready Examples.stocked)))) /\
  let n := tick (Examples.ready Examples.stocked) in
  let path ext := path_join Examples.stocked "/d" ("u/a" +:+ ext) in
  (mkImageExistsResult true (Some "/d/u/a.jpg") (Some 7)
     = mkImageExistsResult false None None /\
   tick (snd (imageExists Examples.stocked Examples.options "u/a"
                (Examples.ready Examples.stocked))) = (n + 4)%nat /\
   forall j ext, possibleExtensions !! j = Some ext ->
     fs_pathExists Examples.stocked (n + j) (path ext) = Ok false) \/
  (exists k ext bytes,
     possibleExtensions !! k = Some ext /\
     (forall j ext', (j < k)%nat -> possibleExtensions !! j = Some ext' ->
        fs_pathExists Examples.stocked (n + j) (path ext') = Ok false) /\
     fs_pathExists Examples.stocked (n + k) (path ext) = Ok true /\
     fs_stat Examples.stocked (n + k + 1) (path ext) = Ok bytes /\
     mkImageExistsResult true (Some "/d/u/a.jpg") (Some 7)
       = mkImageExistsResult true (Some (path ext)) (Some bytes)).
Proof.
  assert (H1 : downloadDir Examples.options = Some "/d") by reflexivity.
  assert (H2 : "/d" <> EmptyString) by discriminate.
  assert (H3 : imageExists Examples.stocked Examples.options "u/a"
                 (Examples.ready Examples.stocked)
               = (Return (mkImageExistsResult true (Some "/d/u/a.jpg") (Some 7)),
                  snd (imageExists Examples.stocked Examples.options "u/a"
                         (Examples.ready Examples.stocked))))
    by (vm_compute; reflexivity).
  split; [split; [exact H1|split; [exact H2|exact H3]]|].
  exact (imageExists_first_extension Examples.stocked Examples.options "/d" "u/a"
           _ _ _ H1 H2 H3).
Defined.


End FileFacts.

Module OptionFacts.

(** What the concurrent service reads from the options the command line
    builds: between 1 and 10 workers, batches of one entry at least, the
    number of workers when no batch size was given, and a pause of more than
    0 ms between batches, a pause of 0 being read as one second. *)
Theorem command_line_options_in_range (concurrency : Z) (batch : option Z) (delay : Z)
    (noBatching : bool) (options : ConfigOptions) :
  let built := buildDownloaderOptions concurrency batch delay noBatching options in
  let workers := orNumber (maxConcurrency built) 3 in
  1 <= workers <= 10 /\
  workers = Z.max 1 (Z.min 10 concurrency) /\
  orNumber (batchSize built) workers
    = match batch with
      | Some b => Z.max 1 b
      | None => workers
      end /\
  orNumber (delayBetweenBatches built) 1000 = (if 0 <? delay then delay else 1000) /\
  nullish (enableBatching built) true
    = (if noBatching then false else nullish (enableBatching options) true).
Proof.
  cbv zeta. unfold buildDownloaderOptions, orNumber, nullish. simpl.
  repeat match goal with
         | |- context [?a =? ?b] => destruct (Z.eqb_spec a b)
         | |- context [?a <? ?b] => destruct (Z.ltb_spec a b)
         end;
    destruct batch as [b|]; simpl;
    repeat match goal with
           | |- context [?a =? ?b] => destruct (Z.eqb_spec a b)
           end;
    destruct noBatching; repeat split; try reflexivity; lia.
Qed.

End OptionFacts.

(** * More on a single attempt *)

Module AttemptFacts.
Import Effects EffectsFacts ConcurrentDownloadService DownloadFacts.

Section WithEnv.
Variable env : Env.
Variable config : ConfigOptions.

(** Whatever the page answers, [downloadFromDirectUrl] ends: it either
    returns a successful result for the photo, having saved the image
    once, or throws an [Error] whose message begins with [Failed to
    download from direct URL: ].  The image is only saved after the page
    has answered with a response that is [ok] and has a body that is not
    empty. *)
Theorem image_saved_after_good_response (url id : string) (imageData : ImageData)
    (metadata : VscoMetadata) (w : World) :
  let out := downloadFromPage env url id imageData metadata w in
  match fst out with
  | Return res =>
      success res = true /\ photoId res = id /\ imageUrl res = Some url /\
      logged isSave (snd out) = logged isSave w ++ [EvSaveImage id]
  | Throw e => exists m, e = ErrorObj ("Failed to download from direct URL: " +:+ m)
  | Pending => False
  end /\
  (logged isSave (snd out) <> logged isSave w ->
   exists r n, page_goto env (tick w) url = Ok (Some r) /\ resp_ok r = true /\
               resp_body r = Ok (Some n) /\ n <> 0).
Proof.
  cbv zeta.
  change (wp (downloadFromPage env url id imageData metadata)
            (fun o w' =>
               match o with
               | Return res =>
                   success res = true /\ photoId res = id /\ imageUrl res = Some url /\
                   logged isSave w' = logged isSave w ++ [EvSaveImage id]
               | Throw e =>
                   exists m, e = ErrorObj ("Failed to download from direct URL: " +:+ m)
               | Pending => False
               end /\
               (logged isSave w' <> logged isSave w ->
                exists r n, page_goto env (tick w) url = Ok (Some r) /\
                            resp_ok r = true /\ resp_body r = Ok (Some n) /\ n <> 0)) w).
  unfold downloadFromPage.
  apply wp_tryCatch, wp_bind, wp_emit, wp_bind, wp_await. simpl.
  destruct (page_goto env (tick w) url) as [[r|]|e] eqn:G.
  - destruct (resp_ok r) eqn:Hok; simpl.
    + apply wp_bind, wp_await. destruct (resp_body r) as [[n|]|e] eqn:B; simpl.
      * destruct (Z.eqb_spec n 0) as [->|Hn]; simpl.
        -- apply wp_throw, wp_throw. split; [eauto|]. intros H; exfalso; apply H; unfold logged; simpl; rewrite ?List.filter_app; simpl; rewrite ?app_nil_r; reflexivity.
        -- apply wp_bind, wp_emit, wp_bind, wp_await.
           destruct (fs_saveImageFile env _ id) as [sf|e] eqn:Sv.
           ++ apply wp_ret. simpl. split.
              ** repeat split. unfold logged. simpl.
                 rewrite !List.filter_app. simpl. now rewrite app_nil_r.
              ** intros _. exists r, n. auto.
           ++ apply wp_throw. split; [eauto|]. intros _. exists r, n. auto.
      * apply wp_throw, wp_throw. split; [eauto|]. intros H; exfalso; apply H; unfold logged; simpl; rewrite ?List.filter_app; simpl; rewrite ?app_nil_r; reflexivity.
      * apply wp_throw. split; [eauto|]. intros H; exfalso; apply H; unfold logged; simpl; rewrite ?List.filter_app; simpl; rewrite ?app_nil_r; reflexivity.
    + apply wp_throw, wp_throw. split; [eauto|]. intros H; exfalso; apply H; unfold logged; simpl; rewrite ?List.filter_app; simpl; rewrite ?app_nil_r; reflexivity.
  - apply wp_throw, wp_throw. split; [eauto|]. intros H; exfalso; apply H; unfold logged; simpl; rewrite ?List.filter_app; simpl; rewrite ?app_nil_r; reflexivity.
  - apply wp_throw. split; [eauto|]. intros H; exfalso; apply H; unfold logged; simpl; rewrite ?List.filter_app; simpl; rewrite ?app_nil_r; reflexivity.
Qed.


(** In a dry run nothing is downloaded: when the file of the photo is not
    there yet, the attempt returns a successful result marked [dryRun], in
    the state the look at the file system left; no page is opened. *)
Theorem dry_run_opens_no_page (c : nat) (id : string) (imageData : ImageData)
    (attempt : Z) (w w1 : World) (existing : ImageExistsResult) :
  imageExists env config id w = (Return existing, w1) ->
  file_exists existing = false ->
  dryRun config = true ->
  exists r,
    attemptDownloadWithContext env config c id imageData attempt w = (Return r, w1) /\
    success r = true /\ isDryRun r = Some true /\ photoId r = id /\
    filepath r = None /\ skipped r = None /\
    logged isPageWork w1 = logged isPageWork w.
Proof.
  intros Hex Hno Hdry. eexists. split; [|split; [|split; [|split; [|split]]]].
  - unfold attemptDownloadWithContext. unfold bind at 1. rewrite Hex, Hno, Hdry.
    reflexivity.
  - reflexivity.
  - reflexivity.
  - reflexivity.
  - reflexivity.
  - split; [reflexivity|].
    pose proof (keeps_imageExists env config isPageWork id eq_refl w) as K.
    rewrite Hex in K. exact K.
Qed.

Lemma keeps_pageBody keep url username id imageData :
  (forall u, keep (EvExtractMetadata u) = false) ->
  (forall u, keep (EvFetchImage u) = false) ->
  (forall p, keep (EvSaveImage p) = false) ->
  keeps (logged keep)
    (vscoMetadata <- extractVscoImageMetadata env url username ;;
     downloadFromDirectUrl env (directImageUrl vscoMetadata) id imageData vscoMetadata).
Proof.
  intros H1 H2 H3.
  unfold extractVscoImageMetadata, downloadFromDirectUrl, extractFromPage,
    downloadFromPage.
  keeps_tac; apply keeps_emit; auto.
Qed.

Lemma settles_pageBody url username id imageData :
  settles
    (vscoMetadata <- extractVscoImageMetadata env url username ;;
     downloadFromDirectUrl env (directImageUrl vscoMetadata) id imageData vscoMetadata).
Proof.
  unfold extractVscoImageMetadata, downloadFromDirectUrl, extractFromPage,
    downloadFromPage.
  settles_tac.
Qed.

(** A page that was opened is closed again.  When the file of the photo is
    not there, the run is not a dry run and the context opens a page, the
    attempt ends, and by then it has opened exactly that one page and asked
    exactly once for it to be closed, whatever the extraction, the download
    and the closing itself do. *)
Theorem opened_page_is_closed (c : nat) (id : string) (imageData : ImageData)
    (attempt : Z) (w w1 : World) (existing : ImageExistsResult) :
  imageExists env config id w = (Return existing, w1) ->
  file_exists existing = false ->
  dryRun config = false ->
  context_newPage env (tick w1) = Ok tt ->
  let out := attemptDownloadWithContext env config c id imageData attempt w in
  fst out <> Pending /\
  logged isNewPage (snd out) = logged isNewPage w ++ [EvNewPage c] /\
  logged isClosePage (snd out) = logged isClosePage w ++ [EvClosePage].
Proof.
  intros Hex Hno Hdry Hpage. cbv zeta.
  pose proof (keeps_imageExists env config isNewPage id eq_refl w) as K1.
  pose proof (keeps_imageExists env config isClosePage id eq_refl w) as K2.
  rewrite Hex in K1, K2. simpl in K1, K2. rewrite <- K1, <- K2.
  change (wp (attemptDownloadWithContext env config c id imageData attempt)
            (fun o w' =>
               o <> Pending /\
               logged isNewPage w' = logged isNewPage w1 ++ [EvNewPage c] /\
               logged isClosePage w' = logged isClosePage w1 ++ [EvClosePage]) w).
  unfold attemptDownloadWithContext. apply wp_bind. unfold wp at 1.
  rewrite Hex. cbn [fst snd]. rewrite Hno, Hdry.
  apply wp_bind, wp_emit, wp_bind, wp_await. simpl. rewrite Hpage.
  set (w2 := ticked _).
  assert (L2 : logged isNewPage w2 = logged isNewPage w1 ++ [EvNewPage c] /\
               logged isClosePage w2 = logged isClosePage w1).
  { subst w2. unfold logged. simpl. rewrite !List.filter_app. simpl.
    now rewrite app_nil_r. }
  clearbody w2. destruct L2 as [N2 C2].
  apply wp_tryFinally.
  apply (wp_keeps (fun s => (logged isNewPage s, logged isClosePage s))).
  { intros s. f_equal; apply keeps_pageBody; reflexivity. }
  { apply settles_pageBody. }
  intros r w3 Hr [= N3 C3].
  assert (Fin : wp (tryCatch (emit EvClosePage ;; await (page_close env))
                             (fun _ => ret tt))%js
                   (fun rc w' =>
                      rc = Return tt /\
                      logged isNewPage w' = logged isNewPage w1 ++ [EvNewPage c] /\
                      logged isClosePage w' = logged isClosePage w1 ++ [EvClosePage]) w3).
  { apply wp_tryCatch, wp_bind, wp_emit, wp_await.
    destruct (page_close env _) as [[]|e]; [|apply wp_ret];
      (split; [reflexivity|]); unfold logged in *; simpl;
      rewrite !List.filter_app; simpl; rewrite ?app_nil_r;
      rewrite N3, C3, N2, C2; split; reflexivity. }
  destruct r as [res|e|]; [| |contradiction];
    (eapply wp_mono; [exact Fin|]); intros rc w4 (-> & N4 & C4);
    (split; [discriminate|split; assumption]).
Qed.

End WithEnv.

Lemma dry_run_opens_no_page_witness :
  let w := Examples.ready Examples.calm in
  let w1 := snd (imageExists Examples.calm Examples.rehearsal "u/a" w) in
  (imageExists Examples.calm Examples.rehearsal "u/a" w
     = (Return (mkImageExistsResult false None None), w1) /\
   file_exists (mkImageExistsResult false None None) = false /\
   dryRun Examples.rehearsal = true) /\
  exists r,
    attemptDownloadWithContext Examples.calm Examples.rehearsal 0 "u/a" Examples.plain 1 w
      = (Return r, w1) /\
    success r = true /\ isDryRun r = Some true /\ photoId r = "u/a" /\
    filepath r = None /\ skipped r = None /\
    logged isPageWork w1 = logged isPageWork w.
Proof.
  cbv zeta.
  assert (H1 : imageExists Examples.calm Examples.rehearsal "u/a"
                 (Examples.ready Examples.calm)
               = (Return (mkImageExistsResult false None None),
                  snd (imageExists Examples.calm Examples.rehearsal "u/a"
                         (Examples.ready Examples.calm)))) by (vm_compute; reflexivity).
  assert (H2 : file_exists (mkImageExistsResult false None None) = false) by reflexivity.
  assert (H3 : dryRun Examples.rehearsal = true) by reflexivity.
  split; [split; [exact H1|split; [exact H2|exact H3]]|].
  exact (dry_run_opens_no_page Examples.calm Examples.rehearsal 0 "u/a" Examples.plain 1
           _ _ _ H1 H2 H3).
Defined.

Lemma opened_page_is_closed_witness :
  let w := Examples.ready Examples.calm in
  let w1 := snd (imageExists Examples.calm Examples.options "u/a" w) in
  (imageExists Examples.calm Examples.options "u/a" w
     = (Return (mkImageExistsResult false None None), w1) /\
   file_exists (mkImageExistsResult false None None) = false /\
   dryRun Examples.options = false /\
   context_newPage Examples.calm (tick w1) = Ok tt) /\
  let out := attemptDownloadWithContext Examples.calm Examples.options 0 "u/a"
               Examples.plain 1 w in
  fst out <> Pending /\
  logged isNewPage (snd out) = logged isNewPage w ++ [EvNewPage 0] /\
  logged isClosePage (snd out) = logged isClosePage w ++ [EvClosePage].
Proof.
  cbv zeta.
  assert (H1 : imageExists Examples.calm Examples.options "u/a"
                 (Examples.ready Examples.calm)
               = (Return (mkImageExistsResult false None None),
                  snd (imageExists Examples.calm Examples.options "u/a"
                         (Examples.ready Examples.calm)))) by (vm_compute; reflexivity).
  assert (H2 : file_exists (mkImageExistsResult false None None) = false) by reflexivity.
  assert (H3 : dryRun Examples.options = false) by reflexivity.
  assert (H4 : context_newPage Examples.calm
                 (tick (snd (imageExists Examples.calm Examples.options "u/a"
                               (Examples.ready Examples.calm)))) = Ok tt)
    by (vm_compute; reflexivity).
  split; [split; [exact H1|split; [exact H2|split; [exact H3|exact H4]]]|].
  exact (opened_page_is_closed Examples.calm Examples.options 0 "u/a" Examples.plain 1
           _ _ _ H1 H2 H3 H4).
Defined.

End AttemptFacts.
(** * The counters and the pool across a task *)

Module TaskState.
Import Effects EffectsFacts ConcurrentDownloadService DownloadFacts TaskFacts PoolUse.
Local Open Scope js_scope.


(** ** What a computation leaves of the pool and of the counters *)

Lemma view_emit e : keeps servicesView (emit e).
Proof. intros w. reflexivity. Qed.

Lemma view_nextTick : keeps servicesView nextTick.
Proof. intros w. reflexivity. Qed.

Lemma view_await {A} (p : nat -> answer A) : keeps servicesView (await p).
Proof.
  apply keeps_bind; [apply view_nextTick|].
  intros k. destruct (p k); [apply keeps_ret|apply keeps_throw].
Qed.

Lemma view_ask {A} (p : nat -> A) : keeps servicesView (ask p).
Proof. apply keeps_bind; [apply view_nextTick|intros k; apply keeps_ret]. Qed.

Ltac view_tac :=
  repeat first
    [ apply keeps_ret | apply keeps_throw | apply keeps_never | apply keeps_gets
    | apply view_await | apply view_ask | apply view_nextTick | apply view_emit
    | apply keeps_bind | apply keeps_tryCatch | apply keeps_tryFinally
    | apply keeps_forEach
    | match goal with
      | |- forall _, _ => intro
      | |- keeps _ (match ?x with _ => _ end) => destruct x
      | H : keeps _ ?m |- keeps _ ?m => exact H
      | H : forall a, keeps _ (?m a) |- keeps _ (?m _) => apply H
      end ].

(** The pool leaves the counters alone. *)
Lemma stats_setContextPool g : keeps stats (BrowserPool.setContextPool g).
Proof. intros w. reflexivity. Qed.

Lemma stats_setBrowser b : keeps stats (BrowserPool.setBrowser b).
Proof. intros w. reflexivity. Qed.

Lemma stats_freshContext : keeps stats BrowserPool.freshContext.
Proof. intros w. reflexivity. Qed.

Lemma stats_view {A} (m : M World A) : keeps servicesView m -> keeps stats m.
Proof. intros K w. specialize (K w). unfold servicesView in K. congruence. Qed.

Ltac stats_tac :=
  repeat first
    [ apply keeps_ret | apply keeps_throw | apply keeps_never | apply keeps_gets
    | apply stats_view, view_await | apply stats_view, view_ask
    | apply stats_view, view_nextTick | apply stats_view, view_emit
    | apply stats_setContextPool | apply stats_setBrowser | apply stats_freshContext
    | apply keeps_bind | apply keeps_tryCatch | apply keeps_tryFinally
    | apply keeps_forEach
    | match goal with
      | |- forall _, _ => intro
      | |- keeps _ (match ?x with _ => _ end) => destruct x
      | H : keeps _ ?m |- keeps _ ?m => exact H
      | H : forall a, keeps _ (?m a) |- keeps _ (?m _) => apply H
      end ].

Section WithEnv.
Variable env : Env.
Variable config : ConfigOptions.

Lemma view_imageExistsLoop dir photoId exts :
  keeps servicesView (imageExistsLoop env dir photoId exts).
Proof. induction exts as [|ext rest IH]; simpl; view_tac. Qed.

Lemma view_imageExists photoId : keeps servicesView (imageExists env config photoId).
Proof. unfold imageExists. view_tac; apply view_imageExistsLoop. Qed.

Lemma view_attemptDownloadWithContext c photoId imageData attempt :
  keeps servicesView (attemptDownloadWithContext env config c photoId imageData attempt).
Proof.
  unfold attemptDownloadWithContext.
  apply keeps_bind; [apply view_imageExists|].
  unfold basenameOf, extractVscoImageMetadata, downloadFromDirectUrl,
    extractFromPage, downloadFromPage. view_tac.
Qed.

Lemma view_retryLoop fuel c id imageData r attempt lastError :
  keeps servicesView (retryLoop env config fuel c id imageData r attempt lastError).
Proof.
  revert attempt lastError.
  induction fuel as [|fuel IH]; intros attempt lastError; simpl;
    destruct (attempt <=? r); try apply keeps_never; try apply keeps_ret.
  apply keeps_bind.
  - apply keeps_tryCatch.
    + apply keeps_bind; [apply view_emit|intros _].
      apply keeps_bind; [apply view_attemptDownloadWithContext|].
      intros res. apply keeps_ret.
    + intros e. apply keeps_bind; [|intros _; apply keeps_ret].
      destruct (attempt <? r); [apply view_emit|apply keeps_ret].
  - intros [res|e]; [apply keeps_ret|apply IH].
Qed.

(** The download of an image touches neither the pool nor the counters. *)
Lemma view_downloadImageWithContext c id imageData :
  keeps servicesView (downloadImageWithContext env config c id imageData).
Proof. apply view_retryLoop. Qed.

Lemma stats_createContext : keeps stats (BrowserPool.createContext env).
Proof. unfold BrowserPool.createContext. stats_tac. Qed.

Lemma stats_replaceContext pc : keeps stats (BrowserPool.replaceContext env pc).
Proof. unfold BrowserPool.replaceContext. stats_tac. Qed.

Lemma stats_cleanupStaleContexts : keeps stats (BrowserPool.cleanupStaleContexts env).
Proof. unfold BrowserPool.cleanupStaleContexts. stats_tac. Qed.

Lemma stats_getContext : keeps stats (BrowserPool.getContext env).
Proof. unfold BrowserPool.getContext. stats_tac. Qed.

Lemma stats_releaseContext c : keeps stats (BrowserPool.releaseContext env c).
Proof. unfold BrowserPool.releaseContext. stats_tac. Qed.

(** ** The task, step by step *)

Lemma downloadSingleImage_unfold entry i n w :
  downloadSingleImage env config statsTracker entry i n w =
  match BrowserPool.getContext env w with
  | (Return c, w1) =>
      match downloadImageWithContext env config c (fst entry) (snd entry) w1 with
      | (Return res, w2) =>
          match BrowserPool.releaseContext env c
                  (setStats (fun _ => counted res (stats w2)) w2) with
          | (Return _, w4) => (Return res, w4)
          | (Throw e, w4) =>
              (Return res,
               snd (emit (EvWarn ("Failed to release context: "
                                  +:+ messageOr "undefined" e)) w4))
          | (Pending, w4) => (Pending, w4)
          end
      | (Throw e, w2) =>
          let res := failedResult (fst entry) (messageOr "Unknown error" e)
                       (orString (image_author (snd entry)) EmptyString) in
          match BrowserPool.releaseContext env c
                  (setStats (fun _ => counted res (stats w2)) w2) with
          | (Return _, w4) => (Return res, w4)
          | (Throw e', w4) =>
              (Return res,
               snd (emit (EvWarn ("Failed to release context: "
                                  +:+ messageOr "undefined" e')) w4))
          | (Pending, w4) => (Pending, w4)
          end
      | (Pending, w2) => (Pending, w2)
      end
  | (Throw e, w1) =>
      let res := failedResult (fst entry) (messageOr "Unknown error" e)
                   (orString (image_author (snd entry)) EmptyString) in
      (Return res, setStats (fun _ => counted res (stats w1)) w1)
  | (Pending, w1) => (Pending, w1)
  end.
Proof.
  unfold downloadSingleImage, tryFinally, tryCatch, tryBlock, catchBlock, finallyBlock,
    countResult, assignContext, counted.
  unfold tryCatch, inFrame, callStats, emit, bind, gets, modify, ret.
  cbn [fst snd].
  destruct (BrowserPool.getContext env w) as [[c|e|] w1]; cbn [fst snd];
    try reflexivity.
  destruct (downloadImageWithContext env config c (fst entry) (snd entry) w1)
    as [[res|e|] w2]; cbn [fst snd]; try reflexivity.
  - destruct (success res && negb (nullish (skipped res) false));
      [|destruct (nullish (skipped res) false)]; cbn [statsTracker incrementDownloaded
        incrementSkipped incrementFailed fst snd];
      destruct (BrowserPool.releaseContext env c _) as [[[]|e|] w4]; reflexivity.
  - cbn [statsTracker incrementFailed fst snd failedResult success skipped nullish andb].
    destruct (BrowserPool.releaseContext env c _) as [[[]|e'|] w4]; reflexivity.
Qed.

Lemma returns_success_attempt c id imageData attempt :
  returns (fun r => success r = true)
    (attemptDownloadWithContext env config c id imageData attempt).
Proof.
  unfold attemptDownloadWithContext. apply returns_bind. intros existing.
  destruct (file_exists existing).
  { apply returns_bind. intros name. apply returns_ret. reflexivity. }
  destruct (dryRun config); [apply returns_ret; reflexivity|].
  apply returns_bind. intros _. apply returns_bind. intros _.
  apply returns_tryFinally, returns_bind. intros metadata.
  unfold downloadFromDirectUrl, downloadFromPage.
  apply returns_tryCatch; [|intros e; apply returns_throw].
  apply returns_bind. intros _. apply returns_bind. intros [r|]; [|apply returns_throw].
  destruct (negb (resp_ok r)); [apply returns_throw|].
  apply returns_bind. intros buffer. destruct (truthyNumber buffer); [|apply returns_throw].
  apply returns_bind. intros _. apply returns_bind. intros saved.
  apply returns_ret. reflexivity.
Qed.

Lemma returns_consistent_retryLoop fuel c id imageData r attempt lastError :
  returns consistent (retryLoop env config fuel c id imageData r attempt lastError).
Proof.
  revert attempt lastError.
  induction fuel as [|fuel IH]; intros attempt lastError; simpl;
    destruct (attempt <=? r); try apply returns_never;
    try (apply returns_ret; intros _; reflexivity).
  apply (returns_bind_with
           (fun tried => match tried with
                         | inl res => success res = true
                         | inr _ => True
                         end)).
  - apply returns_tryCatch.
    + apply returns_bind. intros _.
      apply (returns_bind_with (fun res => success res = true));
        [apply returns_success_attempt|].
      intros res Hres. apply returns_ret. exact Hres.
    + intros e. apply returns_bind. intros _. apply returns_ret. exact I.
  - intros [res|e] H; [apply returns_ret; intros F; congruence|apply IH].
Qed.

(** What a task returns and what it leaves of the counters. *)
Lemma task_outcome entry i n w :
  exists res w',
    downloadSingleImage env config statsTracker entry i n w = (Return res, w') /\
    photoId res = fst entry /\
    stats w' = counted res (stats w) /\
    consistent res.
Proof.
  rewrite downloadSingleImage_unfold.
  pose proof (stats_getContext w) as Sg.
  pose proof (BrowserPoolFacts.settles_getContext env w) as Tg.
  destruct (BrowserPool.getContext env w) as [[c|e|] w1]; simpl in Sg, Tg;
    [| |congruence].
  - pose proof (stats_view _ (view_downloadImageWithContext c (fst entry) (snd entry)) w1)
      as Sd.
    destruct (succeeds_downloadImageWithContext env config c (fst entry) (snd entry) w1)
      as [res Hres].
    pose proof (returns_downloadImageWithContext env config c (fst entry) (snd entry)
                  w1 res Hres) as Hid.
    pose proof (returns_consistent_retryLoop
                  (Z.to_nat (orNumber (retries config) 3)) c (fst entry) (snd entry)
                  (orNumber (retries config) 3) 1 None w1 res Hres) as Hc.
    destruct (downloadImageWithContext env config c (fst entry) (snd entry) w1)
      as [o w2]. simpl in Hres, Sd. subst o.
    pose proof (stats_releaseContext c
                  (setStats (fun _ => counted res (stats w2)) w2)) as Sr.
    pose proof (BrowserPoolFacts.settles_releaseContext env c
                  (setStats (fun _ => counted res (stats w2)) w2)) as Tr.
    destruct (BrowserPool.releaseContext env c _) as [[[]|e|] w4]; simpl in Sr, Tr;
      [| |congruence]; eexists; eexists; (split; [reflexivity|]);
      (split; [exact Hid|]); (split; [|exact Hc]); simpl; rewrite Sr; simpl;
      rewrite Sd, Sg; reflexivity.
  - eexists; eexists. split; [reflexivity|]. split; [reflexivity|].
    split; [simpl; rewrite Sg; reflexivity|]. intros _. reflexivity.
Qed.

(** A task counts its result once: it returns a result for its photo and
    leaves the counters as they were but for the one that counts this
    result, which has gone up by one; and a result that did not succeed is
    not marked as skipped, so that the tracker and the summary count it
    alike. *)
Theorem task_counts_its_result (entry : ImageEntry) (i n : Z) (w : World) :
  exists res w',
    downloadSingleImage env config statsTracker entry i n w = (Return res, w') /\
    photoId res = fst entry /\
    stats w' = counted res (stats w) /\
    (success res = false -> nullish (skipped res) false = false).
Proof.
  destruct (task_outcome entry i n w) as (res & w' & Hrun & Hid & Hst & Hc).
  exists res, w'. split; [exact Hrun|]. split; [exact Hid|]. split; [exact Hst|].
  exact Hc.
Qed.

(** A task gives back the context it took: after it the contexts in use
    are those that were in use before, whatever the task met with, and no
    context is held twice. *)
Theorem task_gives_back_its_context (ops : list BrowserPool.op) (entry : ImageEntry)
    (i n : Z) :
  let w := BrowserPool.calls env ops (newWorld config) in
  let w' := snd (downloadSingleImage env config statsTracker entry i n w) in
  (forall x, x ∈ borrowed w' <-> x ∈ borrowed w) /\ NoDup (borrowed w').
Proof.
  intros w w'. subst w'.
  destruct (calls_poolOk env ops (newWorld config) (newWorld_poolOk config)) as [D _].
  fold w in D. rewrite downloadSingleImage_unfold.
  pose proof (getContext_handedOut env w D) as Hg. unfold wp in Hg.
  destruct (BrowserPool.getContext env w) as [[c|e|] w1]; simpl in Hg; [| |contradiction].
  - destruct Hg as [D1 F B _].
    pose proof (view_downloadImageWithContext c (fst entry) (snd entry) w1) as Vd.
    destruct (succeeds_downloadImageWithContext env config c (fst entry) (snd entry) w1)
      as [res Hres].
    destruct (downloadImageWithContext env config c (fst entry) (snd entry) w1)
      as [o w2]. simpl in Hres, Vd. subst o.
    set (w3 := setStats (fun _ => counted res (stats w2)) w2).
    assert (D3 : distinct w3).
    { apply (distinct_view w1); [|exact D1]. unfold servicesView in Vd.
      unfold poolView, w3. simpl. congruence. }
    assert (B3 : borrowed w3 = borrowed w1).
    { unfold servicesView in Vd. unfold borrowed, w3. simpl.
      injection Vd as -> _ _. reflexivity. }
    destruct (releaseContext_givenBack env c w3 D3) as [Hr [D4 B4 _]].
    destruct (BrowserPool.releaseContext env c w3) as [o w4]. simpl in Hr, D4, B4.
    subst o. simpl. split; [|apply NoDup_borrowed, D4].
    intros x. rewrite B4, B3, B. split.
    + intros [[->|H] Hx]; [congruence|exact H].
    + intros H. split; [now right|]. intros ->. contradiction.
  - simpl. split.
    + intros x. rewrite <- (borrowed_renewed w w1 x Hg). reflexivity.
    + apply NoDup_borrowed. apply (distinct_view w1); [reflexivity|].
      apply (renewed_distinct _ _ Hg).
Qed.


End WithEnv.
End TaskState.
(** * The sequential service and the dispatch of [downloadImages] *)

Module SequentialFacts.
Import Effects EffectsFacts DownloadFacts TaskState DownloadService BatchFacts PoolUse.
Local Open Scope js_scope.

Lemma wp_facts {S A X} (f : S -> X) (P : A -> Prop) (m : M S A)
    (Q : outcome A -> S -> Prop) s :
  keeps f m -> settles m -> returns P m ->
  (forall r s', f s' = f s ->
     match r with
     | Return a => P a -> Q (Return a) s'
     | Throw e => Q (Throw e) s'
     | Pending => True
     end) ->
  wp m Q s.
Proof.
  intros K T R H. unfold wp. specialize (K s). specialize (T s). specialize (R s).
  specialize (H (fst (m s)) (snd (m s)) K).
  destruct (fst (m s)) as [a|e|]; [apply H, R; reflexivity|exact H|congruence].
Qed.

Section WithEnv.
Variable env : Env.
Variable config : ConfigOptions.

Lemma view_extractVscoImageMetadata url username :
  keeps servicesView (extractVscoImageMetadata env url username).
Proof.
  unfold extractVscoImageMetadata, extractFromPage. view_tac.
Qed.

Lemma settles_extractVscoImageMetadata url username :
  settles (extractVscoImageMetadata env url username).
Proof.
  unfold extractVscoImageMetadata, extractFromPage. settles_tac.
Qed.

Lemma view_downloadFromDirectUrl url id imageData metadata :
  keeps servicesView (downloadFromDirectUrl env url id imageData metadata).
Proof.
  unfold downloadFromDirectUrl, downloadFromPage. view_tac.
Qed.

Lemma settles_downloadFromDirectUrl url id imageData metadata :
  settles (downloadFromDirectUrl env url id imageData metadata).
Proof.
  unfold downloadFromDirectUrl, downloadFromPage. settles_tac.
Qed.

Lemma returns_downloadFromDirectUrl url id imageData metadata :
  returns (fun r => photoId r = id /\ success r = true /\ skipped r = None)
    (downloadFromDirectUrl env url id imageData metadata).
Proof.
  unfold downloadFromDirectUrl, downloadFromPage.
  apply returns_bind. intros _.
  apply returns_tryCatch; [|intros e; apply returns_throw].
  apply returns_bind. intros _. apply returns_bind. intros [r|]; [|apply returns_throw].
  destruct (negb (resp_ok r)); [apply returns_throw|].
  apply returns_bind. intros buffer. destruct (truthyNumber buffer); [|apply returns_throw].
  apply returns_bind. intros _. apply returns_bind. intros saved.
  apply returns_ret. auto.
Qed.

(** An attempt of the sequential service that returns has counted its
    result, and an attempt that throws has counted nothing. *)
Lemma wp_attemptDownload id imageData attempt w :
  wp (attemptDownload env config statsTracker id imageData attempt)
     (fun r w' =>
        match r with
        | Return res =>
            photoId res = id /\ success res = true /\
            stats w' = counted res (stats w)
        | Throw _ => stats w' = stats w
        | Pending => False
        end) w.
Proof.
  unfold attemptDownload. apply wp_bind.
  apply (wp_facts servicesView reported);
    [apply view_imageExists|apply settles_imageExists|apply returns_imageExists|].
  intros [existing|e|] w1 V; [|unfold servicesView in V; congruence|exact I].
  assert (S1 : stats w1 = stats w) by (unfold servicesView in V; congruence).
  intros Hrep. destruct (file_exists existing) eqn:Hex.
  - destruct (Hrep Hex) as (path & bytes & Hp & Hb). rewrite Hp.
    apply wp_bind, wp_callStats. simpl.
    apply wp_tryCatch, wp_bind.
    match goal with
    | |- wp _ _ ?w2 => apply (wp_keeps servicesView _ _ w2)
    end; [apply view_extractVscoImageMetadata|apply settles_extractVscoImageMetadata|].
    intros [m|e|] w3 Hn V3; [| |congruence].
    + apply wp_bind, wp_ret, wp_ret. split; [reflexivity|]. split; [reflexivity|].
      unfold servicesView in V3. simpl in V3. injection V3 as _ _ ->.
      unfold counted. simpl. rewrite S1. reflexivity.
    + apply wp_bind, wp_ret, wp_ret. split; [reflexivity|]. split; [reflexivity|].
      unfold servicesView in V3. simpl in V3. injection V3 as _ _ ->.
      unfold counted. simpl. rewrite S1. reflexivity.
  - destruct (dryRun config).
    + apply wp_bind, wp_callStats. simpl. apply wp_ret.
      split; [reflexivity|]. split; [reflexivity|].
      unfold counted. simpl. rewrite S1. reflexivity.
    + apply wp_tryCatch, wp_bind.
      apply (wp_keeps servicesView);
        [apply view_extractVscoImageMetadata|apply settles_extractVscoImageMetadata|].
      intros [m|e|] w3 Hn V3; [| |congruence].
      2: { apply wp_throw. unfold servicesView in V3. congruence. }
      apply wp_bind.
      apply (wp_facts servicesView
               (fun r => photoId r = id /\ success r = true /\ skipped r = None));
        [apply view_downloadFromDirectUrl|apply settles_downloadFromDirectUrl
        |apply returns_downloadFromDirectUrl|].
      intros [res|e|] w4 V4; [| |exact I].
      2: { apply wp_throw. unfold servicesView in V3, V4. congruence. }
      intros (Hid & Hs & Hk). rewrite Hs. apply wp_bind, wp_callStats. simpl.
      apply wp_ret. split; [exact Hid|]. split; [exact Hs|].
      unfold counted. rewrite Hs, Hk. simpl.
      unfold servicesView in V3, V4. replace (stats w4) with (stats w) by congruence.
      reflexivity.
Qed.


Lemma keeps_attemptDownload keep id imageData attempt :
  (forall p, keep (EvImageExists p) = false) ->
  (forall u, keep (EvExtractMetadata u) = false) ->
  (forall u, keep (EvFetchImage u) = false) ->
  (forall p, keep (EvSaveImage p) = false) ->
  keeps (logged keep) (attemptDownload env config statsTracker id imageData attempt).
Proof.
  intros H1 H2 H3 H4. unfold attemptDownload.
  apply keeps_bind; [apply keeps_imageExists, H1|].
  unfold basenameOf, extractVscoImageMetadata, downloadFromDirectUrl,
    extractFromPage, downloadFromPage. keeps_tac; apply keeps_emit; auto.
Qed.

Lemma keeps_sequential_retryLoop fuel id imageData r attempt lastError :
  keeps (logged isBatchEvent)
    (retryLoop env config statsTracker fuel id imageData r attempt lastError).
Proof.
  revert attempt lastError.
  induction fuel as [|fuel IH]; intros attempt lastError; simpl;
    destruct (attempt <=? r); try apply keeps_never; try solve [keeps_tac].
  apply keeps_bind.
  - apply keeps_tryCatch.
    + apply keeps_bind; [apply keeps_emit; reflexivity|intros _].
      apply keeps_bind; [apply keeps_attemptDownload; reflexivity|].
      intros res. apply keeps_ret.
    + intros e. apply keeps_bind; [|intros _; apply keeps_ret].
      destruct (attempt <? r); [apply keeps_emit; reflexivity|apply keeps_ret].
  - intros [res|e]; [apply keeps_ret|apply IH].
Qed.

Lemma wp_sequential_retryLoop fuel id imageData r attempt lastError w :
  r - attempt + 1 <= Z.of_nat fuel ->
  wp (retryLoop env config statsTracker fuel id imageData r attempt lastError)
     (fun o w' =>
        exists res, o = Return res /\ photoId res = id /\ consistent res /\
                    stats w' = counted res (stats w)) w.
Proof.
  revert attempt lastError w.
  induction fuel as [|fuel IH]; intros attempt lastError w Hf; simpl;
    destruct (Z.leb_spec attempt r) as [Hle|Hgt]; try lia.
  - apply wp_bind, wp_callStats. simpl. apply wp_ret. eexists.
    split; [reflexivity|]. split; [reflexivity|]. split; [intros _; reflexivity|].
    reflexivity.
  - apply wp_bind, wp_tryCatch, wp_bind, wp_emit, wp_bind.
    eapply wp_mono; [apply wp_attemptDownload|].
    simpl. intros [res|e|] w1 H; [| |contradiction].
    + destruct H as (Hid & Hs & Hst). apply wp_ret, wp_ret. exists res.
      split; [reflexivity|]. split; [exact Hid|].
      split; [intros F; congruence|exact Hst].
    + apply wp_bind.
      destruct (attempt <? r); [apply wp_emit|apply wp_ret]; apply wp_ret;
        (eapply wp_mono; [apply IH; lia|]); simpl;
        intros o w' (res & -> & Hid & Hp & Hst); exists res; rewrite <- H; auto.
  - apply wp_bind, wp_callStats. simpl. apply wp_ret. eexists.
    split; [reflexivity|]. split; [reflexivity|]. split; [intros _; reflexivity|].
    reflexivity.
Qed.



Lemma wp_downloadImage id imageData w :
  wp (downloadImage env config statsTracker id imageData)
     (fun o w' =>
        (exists res, o = Return res /\ photoId res = id /\ consistent res /\
                     stats w' = counted res (stats w)) /\
        logged isBatchEvent w' = logged isBatchEvent w) w.
Proof.
  unfold downloadImage. split.
  - apply wp_sequential_retryLoop. lia.
  - apply keeps_sequential_retryLoop.
Qed.


(** The sequential service counts every image once.  [downloadImage] never
    throws: it returns a result for the photo, and of the three counters of
    the tracker it has moved exactly one, by one, the one that counts this
    result, however many attempts it took. *)
Theorem sequential_image_counted_once (id : string) (imageData : ImageData) (w : World) :
  exists res w',
    downloadImage env config statsTracker id imageData w = (Return res, w') /\
    photoId res = id /\
    stats w' = counted res (stats w) /\
    (success res = false -> nullish (skipped res) false = false).
Proof.
  destruct (wp_downloadImage id imageData w) as [(res & Ho & Hid & Hp & Hst) _].
  exists res, (snd (downloadImage env config statsTracker id imageData w)).
  split; [|auto]. rewrite <- Ho. apply surjective_pairing.
Qed.







End WithEnv.


End SequentialFacts.
(** * The counters of the tracker across a concurrent run *)

Module ConcurrentStats.
Import Effects EffectsFacts ConcurrentDownloadService DownloadFacts TaskFacts TaskState
  Semaphore SemaphoreFacts BatchFacts.
Local Open Scope js_scope.

Lemma count_insert {A} (f : A -> bool) (l : list (option A)) i r :
  l !! i = Some None ->
  length (List.filter f (fulfilled (<[i := Some r]> l))) =
  (length (List.filter f (fulfilled l)) + (if f r then 1 else 0))%nat.
Proof.
  revert i. induction l as [|x l IH]; intros i H; [inversion H|].
  destruct i as [|i]; simpl in *.
  - injection H as ->. simpl. destruct (f r); simpl; lia.
  - specialize (IH i H). destruct x as [a|]; simpl; [|exact IH].
    destruct (f a); simpl; lia.
Qed.

Lemma advanced_refl s : advanced s s [].
Proof. unfold advanced. simpl. lia. Qed.

Lemma advanced_insert s0 s slots i r :
  advanced s0 s (fulfilled slots) -> slots !! i = Some None -> consistent r ->
  advanced s0 (counted r s) (fulfilled (<[i := Some r]> slots)).
Proof.
  unfold advanced, DownloadService.getDownloadSummary. simpl.
  intros (H1 & H2 & H3) Hi Hr. rewrite !(count_insert _ slots i r Hi).
  unfold consistent in Hr. unfold counted.
  destruct (success r); simpl.
  - destruct (nullish (skipped r) false); simpl; lia.
  - rewrite (Hr eq_refl). simpl. lia.
Qed.

Lemma advanced_app s0 s1 s2 rs1 rs2 :
  advanced s0 s1 rs1 -> advanced s1 s2 rs2 -> advanced s0 s2 (rs1 ++ rs2).
Proof.
  unfold advanced, DownloadService.getDownloadSummary. simpl.
  rewrite !List.filter_app, !length_app. lia.
Qed.

Lemma fulfilled_Some {A} (l : list A) : fulfilled (map Some l) = l.
Proof. induction l as [|x l IH]; simpl; [reflexivity|]. now rewrite IH. Qed.

Section WithEnv.
Variable env : Env.
Variable config : ConfigOptions.

Lemma settleLoop_stats s0 fuel batch startIndex endIndex s slots w :
  joined batch s slots ->
  (length (running s) + length (queue (sem s)) <= fuel)%nat ->
  advanced s0 (stats w) (fulfilled slots) ->
  exists slots' w',
    settleLoop env config statsTracker fuel batch startIndex endIndex s slots None w
      = (Return (slots', None), w') /\
    length slots' = length batch /\
    (forall i, (i < length batch)%nat -> exists r, slots' !! i = Some (Some r)) /\
    advanced s0 (stats w') (fulfilled slots').
Proof.
  revert s slots w. induction fuel as [|fuel IH]; intros s slots w J Hfuel Hadv.
  - exists slots, w. split; [reflexivity|]. split; [apply (joined_slots _ _ _ J)|].
    split; [|exact Hadv].
    apply (joined_idle _ _ _ J). destruct (running s); [reflexivity|simpl in Hfuel; lia].
  - destruct (running s) as [|first rest] eqn:Hrun.
    + exists slots, w. split; [simpl; now rewrite Hrun|].
      split; [apply (joined_slots _ _ _ J)|].
      split; [|exact Hadv]. apply (joined_idle _ _ _ J Hrun).
    + rewrite (settleLoop_step env config statsTracker fuel batch startIndex endIndex s
                 slots None w first rest Hrun).
      set (id := nullish (running s !! (settles_next env (tick w) mod length (running s))%nat)
                         first).
      assert (Hin : id ∈ running s).
      { subst id.
        destruct (running s !! (settles_next env (tick w) mod length (running s))%nat)
          as [x|] eqn:E; simpl.
        - eapply list_elem_of_lookup_2, E.
        - rewrite Hrun. apply elem_of_cons. now left. }
      assert (Hlt : (id < length batch)%nat).
      { eapply started_lt; [exact J|]. apply (wf_running s (joined_wf _ _ _ J)), Hin. }
      assert (Hslot : slots !! id = Some None).
      { pose proof (joined_filled _ _ _ J id Hlt) as F.
        destruct (slots !! id) as [[r|]|] eqn:E.
        - exfalso. assert (H : Some (Some r) <> Some None) by discriminate.
          apply F in H. destruct H as [_ H]. contradiction.
        - reflexivity.
        - apply lookup_ge_None in E. rewrite (joined_slots _ _ _ J) in E. lia. }
      destruct (lookup_lt_is_Some_2 batch id Hlt) as [entry Hentry].
      cbv zeta. rewrite Hentry.
      destruct (task_outcome env config entry (startIndex + Z.of_nat id + 1) endIndex
                  (ticked w)) as (r & w1 & Htask & _ & Hst & Hcons).
      pose proof (returns_downloadSingleImage env config statsTracker entry
                    (startIndex + Z.of_nat id + 1) endIndex (ticked w) r) as Hid.
      rewrite Htask in *. specialize (Hid eq_refl).
      apply IH.
      * eapply joined_finish; eassumption.
      * pose proof (finish_measure id true s Hin) as Hm. rewrite Hrun in Hm.
        simpl in Hm, Hfuel. lia.
      * rewrite Hst. apply advanced_insert; assumption.
Qed.

(** The counters of the tracker after a batch have advanced by what the
    summary counts in the results of the batch. *)
Lemma processBatch_stats batch startIndex endIndex w :
  1 <= orNumber (maxConcurrency config) 3 ->
  exists results w',
    processBatch env config statsTracker batch startIndex endIndex w
      = (Return results, w') /\
    advanced (stats w) (stats w') results.
Proof.
  intros Hmax. unfold processBatch.
  set (k := Z.min _ _).
  assert (J : joined batch (run (map (fun _ => Acquire) batch) (init k))
                (replicate (length batch) None)).
  { apply joined_initially. destruct batch; [now left|right].
    subst k. simpl length. lia. }
  destruct (settleLoop_stats (stats w) (length batch) batch startIndex endIndex _ _ w J)
    as (slots & w' & Hloop & Hlen & Hfilled & Hadv).
  { pose proof (joined_wf _ _ _ J) as W.
    pose proof (wf_total _ W) as T. pose proof (joined_calls _ _ _ J) as C.
    revert T C. rewrite map_const_replicate.
    rewrite (acquires_running (length batch) (init k) eq_refl). lia. }
  { clear. induction (length batch); simpl; [apply advanced_refl|assumption]. }
  destruct (allFulfilled_filled slots) as (results & Hall & Hmap).
  { intros i Hi. apply Hfilled. lia. }
  exists results, w'. unfold bind. rewrite Hloop. simpl. rewrite Hall.
  split; [reflexivity|]. rewrite Hmap, fulfilled_Some in Hadv. exact Hadv.
Qed.

Lemma batchLoop_stats fuel items b d i acc w :
  1 <= orNumber (maxConcurrency config) 3 -> 1 <= b -> 0 <= i ->
  Z.of_nat (length items) - i <= Z.of_nat fuel ->
  exists results w',
    batchLoop env config statsTracker fuel items b d i acc w
      = (Return (acc ++ results), w') /\
    advanced (stats w) (stats w') results.
Proof.
  intros Hmax Hb. revert i acc w.
  induction fuel as [|fuel IH]; intros i acc w Hi Hfuel.
  - exists [], w. rewrite batchLoop_done by lia. rewrite app_nil_r.
    split; [reflexivity|apply advanced_refl].
  - destruct (Z.le_gt_cases (Z.of_nat (length items)) i) as [Hge|Hlt].
    { exists [], w. rewrite batchLoop_done by lia. rewrite app_nil_r.
      split; [reflexivity|apply advanced_refl]. }
    rewrite batchLoop_step by lia. cbv zeta.
    unfold bind at 1. cbn [emit modify fst snd].
    set (w1 := mkWorld _ _ _ _ _).
    destruct (processBatch_stats (jsSlice items i (Z.min (i + b) (Z.of_nat (length items))))
                i (Z.min (i + b) (Z.of_nat (length items))) w1 Hmax)
      as (batchResults & w2 & Hrun & Hadv).
    unfold bind at 1. rewrite Hrun. unfold bind at 1.
    assert (Hret : exists w3,
              (if (Z.min (i + b) (Z.of_nat (length items)) <? Z.of_nat (length items))
                  && (0 <? d)
               then sleep BetweenBatches d else ret tt) w2 = (Return tt, w3) /\
              stats w3 = stats w2).
    { destruct (_ && _); eexists; split; reflexivity. }
    destruct Hret as (w3 & -> & Hs3).
    destruct (IH (i + b) (acc ++ batchResults) w3) as (results & w' & Hloop & Hadv');
      [lia|lia|].
    exists (batchResults ++ results), w'. rewrite Hloop.
    split; [now rewrite app_assoc|].
    eapply advanced_app; [exact Hadv|]. rewrite <- Hs3. exact Hadv'.
Qed.

(** A concurrent run and its summary agree.  With options of concurrency
    that are not negative, [downloadImagesConcurrently] returns its results,
    and the counters of the tracker have advanced by what
    [getDownloadSummary] counts in them as successful, failed and skipped,
    with batching and without, whatever the order in which the tasks
    finish. *)
Theorem concurrent_run_matches_summary (items : list ImageEntry) (w : World) :
  concurrencyOk config ->
  exists results w',
    downloadImagesConcurrently env config statsTracker items w = (Return results, w') /\
    map photoId results = map fst items /\
    let summary := DownloadService.getDownloadSummary results in
    stats_downloaded (stats w') =
      stats_downloaded (stats w) + DownloadService.successful summary /\
    stats_failed (stats w') = stats_failed (stats w) + DownloadService.failed summary /\
    stats_skipped (stats w') =
      stats_skipped (stats w) + DownloadService.skippedCount summary.
Proof.
  intros Hok.
  destruct (downloadImagesConcurrently_run env config items w Hok)
    as (results & w' & Hrun & Hids).
  exists results, w'. split; [exact Hrun|]. split; [exact Hids|].
  change (advanced (stats w) (stats w') results).
  revert Hrun. unfold downloadImagesConcurrently.
  destruct (negb (nullish (enableBatching config) true)).
  - destruct (processBatch_stats items 0 (Z.of_nat (length items)) w
                (concurrencyOk_max config Hok)) as (rs & w2 & -> & Hadv).
    intros [= <- <-]. exact Hadv.
  - destruct (batchLoop_stats (length items) items
                (orNumber (batchSize config) (orNumber (maxConcurrency config) 3))
                (orNumber (delayBetweenBatches config) 1000) 0 [] w)
      as (rs & w2 & -> & Hadv);
      [apply concurrencyOk_max, Hok|apply concurrencyOk_batchSize, Hok|lia|lia|].
    intros [= <- <-]. exact Hadv.
Qed.

End WithEnv.

Lemma concurrent_run_matches_summary_witness :
  concurrencyOk Examples.options /\
  exists results w',
    downloadImagesConcurrently Examples.calm Examples.options statsTracker Examples.five
      (Examples.ready Examples.calm) = (Return results, w') /\
    map photoId results = map fst Examples.five /\
    let summary := DownloadService.getDownloadSummary results in
    stats_downloaded (stats w') =
      stats_downloaded (stats (Examples.ready Examples.calm))
        + DownloadService.successful summary /\
    stats_failed (stats w') =
      stats_failed (stats (Examples.ready Examples.calm)) + DownloadService.failed summary /\
    stats_skipped (stats w') =
      stats_skipped (stats (Examples.ready Examples.calm))
        + DownloadService.skippedCount summary.
Proof.
  assert (H : concurrencyOk Examples.options) by (split; simpl; lia).
  split; [exact H|].
  exact (concurrent_run_matches_summary Examples.calm Examples.options Examples.five
           (Examples.ready Examples.calm) H).
Defined.

End ConcurrentStats.
